(** * hydrachain consensus manager (hydrachain/consensus/manager.py)

    A shallow embedding of [ConsensusManager], [HeightManager],
    [RoundManager] and [ConsensusContract].  Python objects become records,
    the two [ManagerDict]s and the dicts become finite maps, and a method
    that mutates [self] or raises becomes a function in a state-and-exception
    monad over the consensus manager: an exception leaves the mutations made
    so far in place, as in Python. *)

From stdpp Require Import base option list gmap strings sorting.
From Stdlib Require Import ZArith QArith Lia.

Open Scope Z_scope.

(** ** Data model *)

(** Block hashes and validator addresses are byte strings. *)
Definition Hash := string.
Definition Address := string.

(** [Vote], with its two subclasses [VoteBlock] and [VoteNil].  A vote that
    has not been signed yet has the empty sender. *)
Inductive VoteKind :=
| VoteBlock (blockhash : Hash)
| VoteNil.

Record Vote := mkVote {
  v_sender : Address;
  v_height : Z;
  v_round : Z;
  v_kind : VoteKind
}.

#[global] Instance VoteKind_eq_dec : EqDecision VoteKind.
Proof. solve_decision. Defined.
#[global] Instance Vote_eq_dec : EqDecision Vote.
Proof. solve_decision. Defined.

(** The sender of what has not been signed. *)
Definition no_sender : Address := EmptyString.

(** [isinstance(v, VoteBlock)] for an optional vote. *)
Definition isinstance_VoteBlock (v : option Vote) : option Hash :=
  match v with
  | Some (mkVote _ _ _ (VoteBlock bh)) => Some bh
  | _ => None
  end.

(** [LockSet(num_eligible_votes=n)]: the manager builds a lock-set from the
    number of eligible votes and iterates over its votes; the operations on
    it are those of the class [Base] below. *)
Record LockSet := mkLockSet {
  num_eligible_votes : Z;
  votes : list Vote
}.

#[global] Instance LockSet_eq_dec : EqDecision LockSet.
Proof. solve_decision. Defined.

(** [ls.copy()] is a new object with the content of [ls]; the values of the
    model are immutable, so the copy is the value itself. *)
Definition copy (ls : LockSet) : LockSet := ls.

(** A block: a [TransientBlock] as it is received, a [Block] once the chain
    service has linked it ([blk_linked], the [isinstance(_, Block)] test). *)
Record Block := mkBlock {
  blk_linked : bool;
  number : Z;
  hash : Hash;
  prevhash : Hash
}.

#[global] Instance Block_eq_dec : EqDecision Block.
Proof. solve_decision. Defined.

Record BlockProposal := mkBlockProposal {
  bp_sender : Address;
  bp_height : Z;
  bp_round : Z;
  bp_block : Block;
  bp_signing_lockset : LockSet;
  bp_round_lockset : option LockSet
}.

Record VotingInstruction := mkVotingInstruction {
  vi_sender : Address;
  vi_height : Z;
  vi_round : Z;
  vi_lockset : LockSet
}.

Inductive Proposal :=
| PBlock (bp : BlockProposal)
| PInstr (vi : VotingInstruction).

#[global] Instance BlockProposal_eq_dec : EqDecision BlockProposal.
Proof. solve_decision. Defined.
#[global] Instance VotingInstruction_eq_dec : EqDecision VotingInstruction.
Proof. solve_decision. Defined.
#[global] Instance Proposal_eq_dec : EqDecision Proposal.
Proof. solve_decision. Defined.

Definition p_sender (p : Proposal) : Address :=
  match p with PBlock bp => bp_sender bp | PInstr vi => vi_sender vi end.
Definition p_height (p : Proposal) : Z :=
  match p with PBlock bp => bp_height bp | PInstr vi => vi_height vi end.
Definition p_round (p : Proposal) : Z :=
  match p with PBlock bp => bp_round bp | PInstr vi => vi_round vi end.

(** Modelled from the spec: the property [lockset] of a [BlockProposal] is
    declared in base.  A block proposal of a round above 0 carries the
    round lock-set of the round before, which justifies the new round; at
    round 0 its only lock-set is the signing lock-set. *)
Definition bp_lockset (bp : BlockProposal) : LockSet :=
  match bp_round_lockset bp with
  | Some ls => ls
  | None => bp_signing_lockset bp
  end.

Definition p_lockset (p : Proposal) : LockSet :=
  match p with PBlock bp => bp_lockset bp | PInstr vi => vi_lockset vi end.

(** Modelled from the spec: the property [blockhash] of a [BlockProposal]
    is declared in base; block candidates are kept by the hash of their
    block. *)
Definition bp_blockhash (bp : BlockProposal) : Hash := hash (bp_block bp).

(** A reference to the lock-set object owned by the round manager of a
    (height, round): evidence records keep the object, not a snapshot. *)
Definition LockSetRef := (Z * Z)%type.

(** The [ProtocolFailureEvidence] subclasses. *)
Inductive Evidence :=
| InvalidProposalEvidence (proposal : Proposal)
| DoubleVotingEvidence (vote : Vote) (othervote : LockSetRef)
| InvalidVoteEvidence (vote : Vote)
| FailedToProposeEvidence (round_lockset : LockSetRef).

Record RoundManager := mkRoundManager {
  rm_round : Z;
  rm_height : Z;
  rm_lockset : LockSet;
  rm_proposal : option Proposal;
  rm_lock : option Vote;
  rm_timeout_time : option Q
}.

Record HeightManager := mkHeightManager {
  hm_height : Z;
  hm_rounds : gmap Z RoundManager   (* ManagerDict(RoundManager, self).d *)
}.

Record ConsensusContract := mkConsensusContract {
  validators : list Address
}.

(** The chain service as far as the manager reads it: [chain.head],
    [chain.coinbase], [chain.head_candidate], [now], and the key/value
    store under the keys ['blockproposal:%s' % blockhash]. *)
Record ChainService := mkChainService {
  head : Block;
  coinbase : Address;
  head_candidate : Block;
  now : Q;
  db : gmap Hash BlockProposal
}.

Record ConsensusManager := mkConsensusManager {
  cm_chainservice : ChainService;
  cm_contract : ConsensusContract;
  cm_privkey : string;
  cm_heights : gmap Z HeightManager;          (* ManagerDict(HeightManager, self).d *)
  cm_block_candidates : gmap Hash BlockProposal;
  cm_tracked_protocol_failures : list Evidence
}.

(** Exceptions raised by the code of the manager or passing through it. *)
Inductive Exn :=
| AssertionError
| AttributeError
| UnboundLocalError
| ZeroDivisionError
| KeyError
| IndexError
| RecursionLimit              (* RuntimeError: maximum recursion depth exceeded *)
| InvalidRoundLockset         (* Exception('invalid round_lockset') *)
| InvalidProposalError
| DoubleVotingError
| InvalidVoteError.

#[global] Instance Exn_eq_dec : EqDecision Exn.
Proof. solve_decision. Defined.

Inductive Res (A : Type) :=
| Ok (a : A)
| Raise (e : Exn).
Arguments Ok {A} a.
Arguments Raise {A} e.

(** ** What the manager imports

    The lock-set algebra and signing come from the module base, the
    proposer election uses Python's built-in [hash], and the chain service
    links and commits blocks.  None of them is part of manager.py: they are
    the operations of this class. *)
Class Base := {
  (** [ls.add(vote, force_replace)]: the lock-set after the call and the
      returned flag, or the exception raised ([DoubleVotingError] or
      [InvalidVoteError]), which leaves the lock-set as it was. *)
  ls_add : LockSet → Vote → bool → Res (LockSet * bool);
  (** truth value of a lock-set, [if ls:] *)
  ls_bool : LockSet → bool;
  ls_height : LockSet → Z;
  ls_round : LockSet → Z;
  ls_is_valid : LockSet → bool;
  (** [ls.has_quorum]: the block hash that has a quorum, if any *)
  ls_has_quorum : LockSet → option Hash;
  ls_has_noquorum : LockSet → bool;
  (** [ls.has_quorum_possible]: the block hash that can still reach a
      quorum, if any *)
  ls_has_quorum_possible : LockSet → option Hash;
  (** address of a private key: [o.sign(privkey)] sets [o.sender] to it *)
  privtoaddr : string → Address;
  (** [hash(repr((height, round_)))] *)
  pyhash : Z → Z → Z;
  (** [chainservice.link_block(block)]: the linked block, or a false value *)
  link_block : ChainService → Block → option Block;
  (** [chainservice.commit_block(block)]: the chain service after the call
      and the success flag *)
  commit_block : ChainService → Block → ChainService * bool
}.

(** ** [ConsensusContract] *)

Section Contract.
Context `{Base}.

Definition proposer (c : ConsensusContract) (height round_ : Z) : Res Address :=
  let v := Z.abs (pyhash height round_) in
  let n := Z.of_nat (length (validators c)) in
  if decide (n = 0) then Raise ZeroDivisionError
  else match validators c !! Z.to_nat (v `mod` n) with
       | Some a => Ok a
       | None => Raise IndexError
       end.

Definition isvalidator (c : ConsensusContract) (address : Address) : Res bool :=
  if decide (length (validators c) = 0%nat) then Raise AssertionError
  else Ok (bool_decide (address ∈ validators c)).

Definition isproposer (c : ConsensusContract) (p : Proposal) : Res bool :=
  match proposer c (p_height p) (p_round p) with
  | Ok a => Ok (bool_decide (p_sender p = a))
  | Raise e => Raise e
  end.

Definition contract_num_eligible_votes (c : ConsensusContract) (height : Z) : Z :=
  if decide (height = 0) then 0 else Z.of_nat (length (validators c)).
End Contract.

(** ** The derived properties of [HeightManager]

    They only read the height manager: the loops run over the keys that are
    in [rounds], so that no round manager is created. *)

Section HeightProperties.
Context `{Base}.

(** [self.rounds[r] for r in sorted(self.rounds)] *)
Definition sorted_rounds (hm : HeightManager) : list RoundManager :=
  omap (λ r, hm_rounds hm !! r)
       (merge_sort Z.le (map fst (map_to_list (hm_rounds hm)))).

Definition hm_last_lock (hm : HeightManager) : option Vote :=
  rm ← find (λ rm, bool_decide (is_Some (rm_lock rm))) (reverse (sorted_rounds hm));
  rm_lock rm.

Definition hm_last_valid_lockset (hm : HeightManager) : option LockSet :=
  rm ← find (λ rm, ls_is_valid (rm_lockset rm)) (reverse (sorted_rounds hm));
  Some (rm_lockset rm).

Definition hm_round (hm : HeightManager) : Z :=
  match hm_last_valid_lockset hm with
  | Some l => if ls_bool l then ls_round l + 1 else 0
  | None => 0
  end.

(** The loop of [last_quorum_lockset], with [found] as it stands. *)
Fixpoint quorum_scan (found : option LockSet) (rms : list RoundManager)
  : Res (option LockSet) :=
  match rms with
  | [] => Ok found
  | rm :: rms' =>
      let ls := rm_lockset rm in
      if ls_is_valid ls && bool_decide (is_Some (ls_has_quorum ls)) then
        match found with
        | None => quorum_scan (Some ls) rms'
        | Some _ => Raise AssertionError   (* only one quorum allowed *)
        end
      else quorum_scan found rms'
  end.

Definition hm_last_quorum_lockset (hm : HeightManager) : Res (option LockSet) :=
  quorum_scan None (sorted_rounds hm).

Definition hm_has_quorum (hm : HeightManager) : Res (option Hash) :=
  match hm_last_quorum_lockset hm with
  | Ok (Some ls) => Ok (if ls_bool ls then ls_has_quorum ls else None)
  | Ok None => Ok None
  | Raise e => Raise e
  end.
End HeightProperties.

(** ** The monad of the methods *)

Definition M (A : Type) : Type := ConsensusManager → ConsensusManager * Res A.

Definition ret {A} (a : A) : M A := λ st, (st, Ok a).
Definition raise {A} (e : Exn) : M A := λ st, (st, Raise e).
Definition bind {A B} (m : M A) (k : A → M B) : M B :=
  λ st, match m st with
        | (st', Ok a) => k a st'
        | (st', Raise e) => (st', Raise e)
        end.
Definition lift {A} (r : Res A) : M A := λ st, (st, r).
Definition gets {A} (f : ConsensusManager → A) : M A := λ st, (st, Ok (f st)).
Definition modify (f : ConsensusManager → ConsensusManager) : M unit :=
  λ st, (f st, Ok tt).
(** [assert b] *)
Definition assert_ (b : bool) : M unit :=
  if b then ret tt else raise AssertionError.
(** [try: m], with the outcome handed to the handler. *)
Definition try_ {A} (m : M A) : M (Res A) :=
  λ st, match m st with (st', r) => (st', Ok r) end.

Notation "'let!' x ':=' m 'in' k" := (bind m (λ x, k))
  (at level 10, x name, m at level 100, k at level 200).
Notation "'run!' m 'in' k" := (bind m (λ _, k))
  (at level 10, m at level 100, k at level 200).

(** Field updates. *)
Definition set_heights (f : gmap Z HeightManager → gmap Z HeightManager)
    (st : ConsensusManager) : ConsensusManager :=
  mkConsensusManager (cm_chainservice st) (cm_contract st) (cm_privkey st)
    (f (cm_heights st)) (cm_block_candidates st) (cm_tracked_protocol_failures st).
Definition set_block_candidates (f : gmap Hash BlockProposal → gmap Hash BlockProposal)
    (st : ConsensusManager) : ConsensusManager :=
  mkConsensusManager (cm_chainservice st) (cm_contract st) (cm_privkey st)
    (cm_heights st) (f (cm_block_candidates st)) (cm_tracked_protocol_failures st).
Definition set_chainservice (f : ChainService → ChainService)
    (st : ConsensusManager) : ConsensusManager :=
  mkConsensusManager (f (cm_chainservice st)) (cm_contract st) (cm_privkey st)
    (cm_heights st) (cm_block_candidates st) (cm_tracked_protocol_failures st).
(** [self.tracked_protocol_failures.append(e)] *)
Definition track (e : Evidence) (st : ConsensusManager) : ConsensusManager :=
  mkConsensusManager (cm_chainservice st) (cm_contract st) (cm_privkey st)
    (cm_heights st) (cm_block_candidates st) (cm_tracked_protocol_failures st ++ [e]).
Definition set_rounds (f : gmap Z RoundManager → gmap Z RoundManager)
    (hm : HeightManager) : HeightManager :=
  mkHeightManager (hm_height hm) (f (hm_rounds hm)).
Definition set_lockset (ls : LockSet) (rm : RoundManager) : RoundManager :=
  mkRoundManager (rm_round rm) (rm_height rm) ls (rm_proposal rm) (rm_lock rm)
    (rm_timeout_time rm).
Definition set_proposal (p : option Proposal) (rm : RoundManager) : RoundManager :=
  mkRoundManager (rm_round rm) (rm_height rm) (rm_lockset rm) p (rm_lock rm)
    (rm_timeout_time rm).
Definition set_lock (v : option Vote) (rm : RoundManager) : RoundManager :=
  mkRoundManager (rm_round rm) (rm_height rm) (rm_lockset rm) (rm_proposal rm) v
    (rm_timeout_time rm).
Definition set_db (f : gmap Hash BlockProposal → gmap Hash BlockProposal)
    (cs : ChainService) : ChainService :=
  mkChainService (head cs) (coinbase cs) (head_candidate cs) (now cs) (f (db cs)).

(** The round manager of a (height, round), when it exists, and a change of
    it in place. *)
Definition the_round (h r : Z) (st : ConsensusManager) : option RoundManager :=
  hm ← cm_heights st !! h; hm_rounds hm !! r.
Definition update_round (h r : Z) (f : RoundManager → RoundManager)
    (st : ConsensusManager) : ConsensusManager :=
  set_heights (alter (set_rounds (alter f r)) h) st.

(** ** [ConsensusManager]: properties, lazy managers, logging *)

Section Manager.
Context `{Base}.

Definition cm_head (st : ConsensusManager) : Block := head (cm_chainservice st).
Definition cm_coinbase (st : ConsensusManager) : Address :=
  coinbase (cm_chainservice st).
Definition cm_height (st : ConsensusManager) : Z := number (cm_head st) + 1.

(** [mk_lockset(height)] *)
Definition cm_mk_lockset (st : ConsensusManager) (height : Z) : LockSet :=
  mkLockSet (contract_num_eligible_votes (cm_contract st) height) [].

(** [RoundManager(heightmanager, round_)] *)
Definition new_RoundManager (st : ConsensusManager) (hm : HeightManager)
    (round_ : Z) : RoundManager :=
  mkRoundManager round_ (hm_height hm) (cm_mk_lockset st (hm_height hm))
    None None None.

(** [self.heights[k]]: [ManagerDict.__getitem__] creates the height
    manager when the key is new. *)
Definition heights_getitem (k : Z) : M HeightManager :=
  λ st, match cm_heights st !! k with
        | Some hm => (st, Ok hm)
        | None =>
            let hm := mkHeightManager k ∅ in
            (set_heights <[k := hm]> st, Ok hm)
        end.

(** [self.heights[h].rounds[r]]: both dictionaries create what is
    missing. *)
Definition rounds_getitem (h r : Z) : M RoundManager :=
  let! hm := heights_getitem h in
  match hm_rounds hm !! r with
  | Some rm => ret rm
  | None =>
      let! rm := gets (λ st, new_RoundManager st hm r) in
      run! modify (set_heights (alter (set_rounds <[r := rm]>) h)) in
      ret rm
  end.

(** [self.log(tag, ...)] formats [repr(self)] before it logs, and
    [__repr__] reads [self.round], [self.last_lock] and
    [self.active_round]: the height manager of the current height and its
    active round come into being if they were not there. *)
Definition cm_log : M unit :=
  let! height := gets cm_height in
  let! hm := heights_getitem height in
  let! _ := rounds_getitem height (hm_round hm) in
  ret tt.

(** [sign(o)] on a vote and on the two proposals. *)
Definition sign_vote (st : ConsensusManager) (v : Vote) : Vote :=
  mkVote (privtoaddr (cm_privkey st)) (v_height v) (v_round v) (v_kind v).
Definition sign_bp (st : ConsensusManager) (bp : BlockProposal) : BlockProposal :=
  mkBlockProposal (privtoaddr (cm_privkey st)) (bp_height bp) (bp_round bp)
    (bp_block bp) (bp_signing_lockset bp) (bp_round_lockset bp).
Definition sign_vi (st : ConsensusManager) (vi : VotingInstruction)
  : VotingInstruction :=
  mkVotingInstruction (privtoaddr (cm_privkey st)) (vi_height vi) (vi_round vi)
    (vi_lockset vi).

(** [last_committing_lockset] *)
Definition cm_last_committing_lockset : M (option LockSet) :=
  let! height := gets cm_height in
  let! hm := heights_getitem (height - 1) in
  lift (hm_last_quorum_lockset hm).

(** [last_valid_lockset]: Python's [or] gives its left operand when that
    is true, and evaluates the right one only otherwise. *)
Definition cm_last_valid_lockset : M (option LockSet) :=
  let! height := gets cm_height in
  let! hm := heights_getitem height in
  match hm_last_valid_lockset hm with
  | Some ls => if ls_bool ls then ret (Some ls) else cm_last_committing_lockset
  | None => cm_last_committing_lockset
  end.

(** [last_lock] *)
Definition cm_last_lock : M (option Vote) :=
  let! height := gets cm_height in
  let! hm := heights_getitem height in
  ret (hm_last_lock hm).

(** ** Votes *)

(** [RoundManager.add_vote] of the round manager at (h, r). *)
Definition rm_add_vote (h r : Z) (v : Vote) (force_replace : bool)
  : M (option bool) :=
  run! cm_log in
  let! self := rounds_getitem h r in
  match ls_add (rm_lockset self) v force_replace with
  | Raise InvalidVoteError =>
      run! modify (track (InvalidVoteEvidence v)) in
      ret None
  | Raise e => raise e
  | Ok (ls, success) =>
      run! modify (update_round h r (set_lockset ls)) in
      run! (if ls_is_valid ls then
              run! cm_log in
              if negb (bool_decide (is_Some (rm_proposal self)))
                 && ls_has_noquorum ls
              then modify (track (FailedToProposeEvidence
                                    (rm_height self, rm_round self)))
                      else ret tt
            else ret tt) in
      ret (Some success)
  end.

(** [HeightManager.add_vote] of the height manager at h. *)
Definition hm_add_vote (h : Z) (v : Vote) (force_replace : bool)
  : M (option bool) :=
  let! _ := rounds_getitem h (v_round v) in
  rm_add_vote h (v_round v) v force_replace.

(** [ConsensusManager.add_vote].  The handler of [DoubleVotingError] falls
    through to [return success], a local that the failed assignment in the
    [try] never bound. *)
Definition cm_add_vote (v : Vote) : M (option bool) :=
  let! contract := gets cm_contract in
  let! ok := lift (isvalidator contract (v_sender v)) in
  run! assert_ ok in
  let! coinbase := gets cm_coinbase in
  let is_own_vote := bool_decide (v_sender v = coinbase) in
  let! outcome := try_ (let! _ := heights_getitem (v_height v) in
                        hm_add_vote (v_height v) v is_own_vote) in
  match outcome with
  | Ok success => ret success
  | Raise DoubleVotingError =>
      let! rm := rounds_getitem (v_height v) (v_round v) in
      run! modify (track (DoubleVotingEvidence v (rm_height rm, rm_round rm))) in
      raise UnboundLocalError
  | Raise e => raise e
  end.

(** [for v in votes: self.add_vote(v)] *)
Fixpoint add_votes (vs : list Vote) : M unit :=
  match vs with
  | [] => ret tt
  | v :: vs' => let! _ := cm_add_vote v in add_votes vs'
  end.
(** ** Proposals *)

(** [has_blockproposal(blockhash)] *)
Definition cm_has_blockproposal (st : ConsensusManager) (blockhash : Hash) : bool :=
  bool_decide (is_Some (db (cm_chainservice st) !! blockhash)).

(** [store_proposal(p)] *)
Definition cm_store_proposal (p : BlockProposal) : M unit :=
  modify (set_chainservice (set_db <[bp_blockhash p := p]>)).

(** [add_block_proposal(p)] *)
Definition cm_add_block_proposal (p : BlockProposal) : M unit :=
  let! known := gets (λ st, cm_has_blockproposal st (bp_blockhash p)) in
  if known then cm_log
  else
    run! assert_ (bool_decide (is_Some (ls_has_quorum (bp_signing_lockset p)))) in
    run! assert_ (bool_decide (ls_height (bp_signing_lockset p) = bp_height p - 1)) in
    run! add_votes (votes (bp_signing_lockset p)) in
    modify (set_block_candidates <[bp_blockhash p := p]>).

(** [RoundManager.add_proposal] of the round manager at (h, r). *)
Definition rm_add_proposal (h r : Z) (p : Proposal) : M bool :=
  run! cm_log in
  let! self := rounds_getitem h r in
  run! assert_ (match p with
                | PInstr _ => true
                | PBlock bp => blk_linked (bp_block bp)
                end) in
  run! assert_ (match rm_proposal self with
                | None => true
                | Some q => bool_decide (q = p)
                end) in
  run! modify (update_round h r (set_proposal (Some p))) in
  ret true.

(** [self.round = x] in [HeightManager]: [round] is a property of the
    class, declared without a setter, so that the assignment raises. *)
Definition hm_set_round (h x : Z) : M unit := raise AttributeError.

(** [HeightManager.add_proposal] of the height manager at h. *)
Definition hm_add_proposal (h : Z) (p : Proposal) : M bool :=
  let! self := heights_getitem h in
  run! assert_ (bool_decide (p_height p = hm_height self)) in
  run! assert_ (ls_is_valid (p_lockset p)) in
  run! (if bool_decide (p_round p > hm_round self)
        then hm_set_round h (p_round p) else ret tt) in
  let! _ := rounds_getitem h (p_round p) in
  rm_add_proposal h (p_round p) p.

(** The local function [check] of [add_proposal]. *)
Definition check (p : Proposal) (valid : bool) : M unit :=
  if valid then ret tt
  else
    run! modify (track (InvalidProposalEvidence p)) in
    raise InvalidProposalError.

(** [ConsensusManager.add_proposal]: [None] where the code returns
    nothing, [Some is_valid] at its last line. *)
Definition cm_add_proposal (p : Proposal) : M (option bool) :=
  run! cm_log in
  let! height := gets cm_height in
  if bool_decide (p_height p < height) then
    run! cm_log in ret None
  else
    let! contract := gets cm_contract in
    let! is_val := lift (isvalidator contract (p_sender p)) in
    let! is_prop := (if is_val then lift (isproposer contract p) else ret false) in
    run! check p is_prop in
    run! check p (ls_is_valid (p_lockset p)) in
    run! check p (bool_decide (ls_height (p_lockset p) = p_height p)
                  || bool_decide (p_round p = 0)) in
    run! check p (bool_decide (p_round p - ls_round (p_lockset p) = 1)
                  || bool_decide (p_round p = 0)) in
    run! add_votes (votes (p_lockset p)) in
    match p with
    | PBlock bp =>
        run! check p (bool_decide (number (bp_block bp) = bp_height bp)) in
        run! check p (ls_has_noquorum (bp_lockset bp)
                      || bool_decide (bp_round bp = 0)) in
        let! height' := gets cm_height in
        if bool_decide (bp_height bp > height') then
          run! cm_log in ret None
        else
          let! cs := gets cm_chainservice in
          let blk := link_block cs (bp_block bp) in
          run! check p (bool_decide (is_Some blk)) in
          match blk with
          | None => ret None
          | Some blk =>
              let bp' := mkBlockProposal (bp_sender bp) (bp_height bp)
                           (bp_round bp) blk (bp_signing_lockset bp)
                           (bp_round_lockset bp) in
              run! cm_add_block_proposal bp' in
              let! _ := heights_getitem (bp_height bp') in
              let! is_valid := hm_add_proposal (bp_height bp') (PBlock bp') in
              ret (Some is_valid)
          end
    | PInstr vi =>
        run! check p (bool_decide (is_Some (ls_has_quorum_possible (vi_lockset vi)))) in
        let! _ := heights_getitem (vi_height vi) in
        let! is_valid := hm_add_proposal (vi_height vi) p in
        ret (Some is_valid)
    end.
(** ** Proposing and voting *)

(** Modelled from the spec: the property [blockhash] of a
    [VotingInstruction] is declared in base; it is the block referenced by
    the lock-set of the instruction, the one that can still reach a
    quorum. *)
Definition vi_blockhash (vi : VotingInstruction) : option Hash :=
  ls_has_quorum_possible (vi_lockset vi).

(** [x.copy()], [x.has_noquorum], ... on a lock-set that may be [None]. *)
Definition not_None {A} (x : option A) : M A :=
  match x with
  | Some a => ret a
  | None => raise AttributeError
  end.

(** [RoundManager.mk_proposal] of the round manager at (h, r). *)
Definition rm_mk_proposal (h r : Z) : M BlockProposal :=
  let! self := rounds_getitem h r in
  let! lcl := cm_last_committing_lockset in
  let! lcl := not_None lcl in
  let signing_lockset := copy lcl in
  let! round_lockset :=
    (if bool_decide (rm_round self > 0) then
       let! lvl := cm_last_valid_lockset in
       let! lvl := not_None lvl in
       let round_lockset := copy lvl in
       run! assert_ (ls_has_noquorum round_lockset) in
       ret (Some round_lockset)
     else ret None) in
  run! assert_ (bool_decide (is_Some (ls_has_quorum signing_lockset))) in
  let! block := gets (λ st, head_candidate (cm_chainservice st)) in
  let bp := mkBlockProposal no_sender (rm_height self) (rm_round self) block
              signing_lockset round_lockset in
  let! bp := gets (λ st, sign_bp st bp) in
  ret bp.

(** [RoundManager.propose] of the round manager at (h, r). *)
Definition rm_propose (h r : Z) : M (option Proposal) :=
  let! self := rounds_getitem h r in
  let! contract := gets cm_contract in
  let! proposer := lift (proposer contract (rm_height self) (rm_round self)) in
  run! cm_log in
  let! coinbase := gets cm_coinbase in
  if negb (bool_decide (proposer = coinbase)) then ret None
  else
    match rm_proposal self with
    | Some q =>
        run! assert_ (bool_decide (p_sender q = coinbase)) in
        run! assert_ (bool_decide (is_Some (rm_lock self))) in
        ret None
    | None =>
        let! round_lockset := cm_last_valid_lockset in
        run! cm_log in
        let! noquorum :=
          (if bool_decide (rm_round self = 0) then ret true
           else let! ls := not_None round_lockset in ret (ls_has_noquorum ls)) in
        let! proposal :=
          (if noquorum then
             let! bp := rm_mk_proposal h r in ret (PBlock bp)
           else
             let! ls := not_None round_lockset in
             if bool_decide (is_Some (ls_has_quorum_possible ls)) then
               let vi := mkVotingInstruction no_sender (rm_height self) (rm_round self)
                           (copy ls) in
               let! vi := gets (λ st, sign_vi st vi) in
               ret (PInstr vi)
             else raise InvalidRoundLockset) in
        run! cm_log in
        run! modify (update_round h r (set_proposal (Some proposal))) in
        ret (Some proposal)
    end.

(** [now >= timeout_time] once the timeout is set. *)
Definition timed_out (st : ConsensusManager) (self : RoundManager) : bool :=
  match rm_timeout_time self with
  | Some t => Qle_bool t (now (cm_chainservice st))
  | None => false
  end.

(** [RoundManager.vote] of the round manager at (h, r). *)
Definition rm_vote (h r : Z) : M (option Vote) :=
  let! self := rounds_getitem h r in
  if bool_decide (is_Some (rm_lock self)) then ret None
  else
    run! cm_log in
    let! hm := heights_getitem h in
    let last_lock := hm_last_lock hm in
    let! timeout := gets (λ st, timed_out st self) in
    let! v :=
      (match rm_proposal self with
       | Some (PInstr vi) =>
           run! assert_ (bool_decide
                           (is_Some (ls_has_quorum_possible (vi_lockset vi)))) in
           run! cm_log in
           let! blockhash := not_None (vi_blockhash vi) in
           ret (Some (mkVote no_sender (rm_height self) (rm_round self)
                        (VoteBlock blockhash)))
       | Some (PBlock bp) =>
           match isinstance_VoteBlock last_lock with
           | None =>
               run! assert_ (blk_linked (bp_block bp)) in
               run! assert_ (ls_has_noquorum (bp_lockset bp)
                             || bool_decide (rm_round self = 0)) in
               let! head := gets cm_head in
               run! assert_ (bool_decide (prevhash (bp_block bp) = hash head)) in
               run! cm_log in
               ret (Some (mkVote no_sender (rm_height self) (rm_round self)
                            (VoteBlock (bp_blockhash bp))))
           | Some blockhash =>
               run! cm_log in
               ret (Some (mkVote no_sender (rm_height self) (rm_round self)
                            (VoteBlock blockhash)))
           end
       | None =>
           if timeout then
             match isinstance_VoteBlock last_lock with
             | Some blockhash =>
                 run! cm_log in
                 ret (Some (mkVote no_sender (rm_height self) (rm_round self)
                              (VoteBlock blockhash)))
             | None =>
                 run! cm_log in
                 ret (Some (mkVote no_sender (rm_height self) (rm_round self) VoteNil))
             end
           else ret None
       end) in
    match v with
    | None => ret None
    | Some v =>
        let! v := gets (λ st, sign_vote st v) in
        run! cm_log in
        run! modify (update_round h r (set_lock (Some v))) in
        let! hm := heights_getitem h in
        run! assert_ (bool_decide (hm_last_lock hm = Some v)) in
        let! self := rounds_getitem h r in
        let! added := lift (ls_add (rm_lockset self) v false) in
        run! modify (update_round h r (set_lockset added.1)) in
        ret (Some v)
    end.
(** ** Committing and cleaning up *)

(** A call [chainservice.commit_block(p.block)]: the manager as it is when
    the call is made, and the candidate [p]. *)
Definition CommitCall := (ConsensusManager * BlockProposal)%type.

(** [self.heights[p.height].has_quorum] *)
Definition cm_has_quorum_at (height : Z) : M (option Hash) :=
  let! hm := heights_getitem height in
  lift (hm_has_quorum hm).

(** The loop of [commit] over the candidates that were selected, with
    [self.commit] as [recurse].  It gives the calls of [commit_block] that
    were made, the manager at the end and the outcome. *)
Fixpoint commit_loop
    (recurse : ConsensusManager → list CommitCall * (ConsensusManager * Res unit))
    (ps : list BlockProposal) (st : ConsensusManager)
  : list CommitCall * (ConsensusManager * Res unit) :=
  match ps with
  | [] => ([], (st, Ok tt))
  | p :: ps' =>
      match cm_has_quorum_at (bp_height p) st with
      | (st1, Raise e) => ([], (st1, Raise e))
      | (st1, Ok quorum) =>
          if bool_decide (quorum = Some (bp_blockhash p)) then
            let st2 := (cm_store_proposal p st1).1 in
            let '(cs, success) := commit_block (cm_chainservice st2) (bp_block p) in
            let st3 := set_chainservice (λ _, cs) st2 in
            if success then
              let st4 := (cm_log st3).1 in
              if bool_decide (cm_head st4 = bp_block p) then
                let '(calls, out) := recurse st4 in
                ((st2, p) :: calls, out)
              else ([(st2, p)], (st4, Raise AssertionError))
            else ([(st2, p)], (st3, Raise AssertionError))
          else commit_loop recurse ps' st1
      end
  end.

(** [c for c in self.block_candidates.values()
     if c.block.prevhash == self.head.hash] *)
Definition commit_candidates (st : ConsensusManager) : list BlockProposal :=
  filter (λ c, prevhash (bp_block c) = hash (cm_head st))
         (map snd (map_to_list (cm_block_candidates st))).

(** [ConsensusManager.commit], which calls itself after each block it
    commits; [depth] is the recursion depth the interpreter still
    allows. *)
Fixpoint cm_commit (depth : nat) (st : ConsensusManager)
  : list CommitCall * (ConsensusManager * Res unit) :=
  match depth with
  | O => ([], (st, Raise RecursionLimit))
  | S depth' =>
      let st1 := (cm_log st).1 in
      commit_loop (cm_commit depth') (commit_candidates st1) st1
  end.

(** [self.block_candidates.pop(k)] *)
Definition block_candidates_pop (k : Hash) : M unit :=
  let! candidates := gets cm_block_candidates in
  match candidates !! k with
  | Some _ => modify (set_block_candidates (delete k))
  | None => raise KeyError
  end.

(** The two loops of [cleanup]. *)
Fixpoint cleanup_candidates (ps : list BlockProposal) : M unit :=
  match ps with
  | [] => ret tt
  | p :: ps' =>
      let! head := gets cm_head in
      run! (if bool_decide (number head >= bp_height p)
            then block_candidates_pop (bp_blockhash p) else ret tt) in
      cleanup_candidates ps'
  end.

Fixpoint cleanup_heights (hs : list Z) : M unit :=
  match hs with
  | [] => ret tt
  | h :: hs' =>
      let! hm := heights_getitem h in
      let! head := gets cm_head in
      run! (if bool_decide (hm_height hm < number head)
            then modify (set_heights (delete h)) else ret tt) in
      cleanup_heights hs'
  end.

(** [ConsensusManager.cleanup] *)
Definition cm_cleanup : M unit :=
  run! cm_log in
  let! candidates := gets cm_block_candidates in
  run! cleanup_candidates (map snd (map_to_list candidates)) in
  let! heights := gets cm_heights in
  cleanup_heights (map fst (map_to_list heights)).
End Manager.

(** ** A lock-set algebra and a chain service to compute with *)

Module SpecBase.

Definition is_block_vote (bh : Hash) (v : Vote) : bool :=
  bool_decide (v_kind v = VoteBlock bh).

(** The block hashes voted for, each once, in the order of their first
    vote. *)
Fixpoint blockhashes (vs : list Vote) : list Hash :=
  match vs with
  | [] => []
  | v :: vs' =>
      match v_kind v with
      | VoteBlock bh => bh :: filter (λ x, x ≠ bh) (blockhashes vs')
      | VoteNil => blockhashes vs'
      end
  end.

Definition count_votes (ls : LockSet) (bh : Hash) : Z :=
  Z.of_nat (length (filter (λ v, is_block_vote bh v = true) (votes ls))).

(** Modelled from the spec: the lock-set algebra is declared in base.
    [is_valid]: at least ⌈2N/3⌉ votes are present. *)
Definition is_valid (ls : LockSet) : bool :=
  bool_decide (2 * num_eligible_votes ls ≤ 3 * Z.of_nat (length (votes ls))).

(** Modelled from the spec: [has_quorum], a single block hash has at least
    ⌈2N/3⌉ block votes; the value is that block hash. *)
Definition has_quorum (ls : LockSet) : option Hash :=
  snd <$> list_find (λ bh, 2 * num_eligible_votes ls ≤ 3 * count_votes ls bh)
                    (blockhashes (votes ls)).

(** Modelled from the spec: [has_quorum_possible], the lock-set is valid,
    has no quorum yet, and some block hash can still reach one.  The spec
    gives no threshold; its scenarios count two votes of four for a block
    as a possible quorum and three nil votes of four as none, and the
    model takes more than a third of the eligible votes. *)
Definition has_quorum_possible (ls : LockSet) : option Hash :=
  if is_valid ls && negb (bool_decide (is_Some (has_quorum ls))) then
    snd <$> list_find (λ bh, num_eligible_votes ls < 3 * count_votes ls bh)
                      (blockhashes (votes ls))
  else None.

(** Modelled from the spec: [has_noquorum], the lock-set is valid and no
    block hash can reach a quorum. *)
Definition has_noquorum (ls : LockSet) : bool :=
  is_valid ls
  && negb (bool_decide (is_Some (has_quorum ls)))
  && negb (bool_decide (is_Some (has_quorum_possible ls))).

(** Modelled from the spec: a lock-set holds the votes of one (height,
    round), here those of its first vote. *)
Definition height (ls : LockSet) : Z :=
  match votes ls with v :: _ => v_height v | [] => 0 end.
Definition round (ls : LockSet) : Z :=
  match votes ls with v :: _ => v_round v | [] => 0 end.

(** Modelled from the spec: [add(vote, force_replace)].  A vote that is
    already there changes nothing; a vote of another (height, round), or
    an unsigned one, is an invalid vote; a second, different vote of a
    sender is double voting unless it is forced, in which case it replaces
    the first. *)
Definition add (ls : LockSet) (v : Vote) (force_replace : bool)
  : Res (LockSet * bool) :=
  if bool_decide (v_sender v = no_sender) then Raise InvalidVoteError
  else if bool_decide (v ∈ votes ls) then Ok (ls, false)
  else if negb (bool_decide (votes ls = []))
          && negb (bool_decide (v_height v = height ls ∧ v_round v = round ls))
  then Raise InvalidVoteError
  else if bool_decide (v_sender v ∈ map v_sender (votes ls)) then
    if force_replace then
      Ok (mkLockSet (num_eligible_votes ls)
            (filter (λ w, v_sender w ≠ v_sender v) (votes ls) ++ [v]), true)
    else Raise DoubleVotingError
  else Ok (mkLockSet (num_eligible_votes ls) (votes ls ++ [v]), true).

(** Modelled from the spec: the chain service links a block whose parent
    is the head, and a commit makes the block the head. *)
Definition link (cs : ChainService) (b : Block) : option Block :=
  if bool_decide (prevhash b = hash (head cs))
  then Some (mkBlock true (number b) (hash b) (prevhash b))
  else None.
Definition commit (cs : ChainService) (b : Block) : ChainService * bool :=
  (mkChainService b (coinbase cs) (head_candidate cs) (now cs) (db cs), true).

(** The lock-set algebra of the spec, a lock-set being true when it has
    votes, the address of a key being the key itself, and the proposers
    taking turns. *)
#[export] Instance base : Base := {|
  ls_add := add;
  ls_bool := λ ls, negb (bool_decide (votes ls = []));
  ls_height := height;
  ls_round := round;
  ls_is_valid := is_valid;
  ls_has_quorum := has_quorum;
  ls_has_noquorum := has_noquorum;
  ls_has_quorum_possible := has_quorum_possible;
  privtoaddr := λ key, key;
  pyhash := λ height round_, 2 * height + round_;
  link_block := link;
  commit_block := commit
|}.

(** Four validators, of which a quorum is three; this node is [A]; the
    head is block 2. *)
Definition block2 : Block := mkBlock true 2 "h2" "h1".
Definition block3 : Block := mkBlock false 3 "x" "h2".
Definition block3' : Block := mkBlock false 3 "y" "h2".

Definition node : ConsensusManager :=
  mkConsensusManager
    (mkChainService block2 "A" (mkBlock true 3 "c" "h2") 0%Q ∅)
    (mkConsensusContract ["A"; "B"; "C"; "D"])
    "A" ∅ ∅ [].

Definition vote_block (sender : Address) (h r : Z) (bh : Hash) : Vote :=
  mkVote sender h r (VoteBlock bh).
Definition vote_nil (sender : Address) (h r : Z) : Vote :=
  mkVote sender h r VoteNil.
End SpecBase.

(** ** Observations and frames used by the statements *)

(** The proposal of the round manager of a (height, round), [None] also
    when no such manager exists yet. *)
Definition proposal_at (st : ConsensusManager) (h r : Z) : option Proposal :=
  the_round h r st ≫= rm_proposal.

Definition is_InvalidProposalEvidence (e : Evidence) : Prop :=
  match e with InvalidProposalEvidence _ => True | _ => False end.

(** What the handling of votes, the lazy creation of managers and logging
    leave alone: the chain service, the contract, the key, the block
    candidates and the proposals of all rounds; the evidence list grows, by
    records other than [InvalidProposalEvidence]. *)
Record frame (st st' : ConsensusManager) : Prop := mkFrame {
  frame_chainservice : cm_chainservice st' = cm_chainservice st;
  frame_contract : cm_contract st' = cm_contract st;
  frame_privkey : cm_privkey st' = cm_privkey st;
  frame_candidates : cm_block_candidates st' = cm_block_candidates st;
  frame_proposals : ∀ h r, proposal_at st' h r = proposal_at st h r;
  frame_evidence : ∃ ev,
    cm_tracked_protocol_failures st' = cm_tracked_protocol_failures st ++ ev
    ∧ Forall (λ e, ¬ is_InvalidProposalEvidence e) ev
}.

(** A computation keeps a relation between the manager before and after,
    whatever its outcome. *)
Definition preserves {A} (R : relation ConsensusManager) (m : M A) : Prop :=
  ∀ st st' r, m st = (st', r) → R st st'.


(** A call of [commit_block] is on a quorum when, in the manager as it is at
    the call, the candidate is one of the block candidates, its block follows
    the head, and the height manager of its height has a quorum for its block
    hash. *)
Definition on_quorum `{Base} (c : CommitCall) : Prop :=
  (∃ k, cm_block_candidates c.1 !! k = Some c.2)
  ∧ prevhash (bp_block c.2) = hash (cm_head c.1)
  ∧ ∃ hm, cm_heights c.1 !! bp_height c.2 = Some hm
          ∧ hm_has_quorum hm = Ok (Some (bp_blockhash c.2)).

(** The checks of [add_proposal] on a proposal, as functions of the contract
    and the chain service.  Those made on entry: the sender is a validator
    and the proposer of the round, the lock-set is valid, of the height of
    the proposal and of the round before it (or the round is 0). *)
Definition entry_checks `{Base} (c : ConsensusContract) (p : Proposal) : bool :=
  match isvalidator c (p_sender p) with
  | Ok true => match isproposer c p with Ok b => b | Raise _ => false end
  | _ => false
  end
  && ls_is_valid (p_lockset p)
  && (bool_decide (ls_height (p_lockset p) = p_height p) || bool_decide (p_round p = 0))
  && (bool_decide (p_round p - ls_round (p_lockset p) = 1) || bool_decide (p_round p = 0)).

(** Those made on a block proposal before the test for a future height: the
    block has the number of the height, and the lock-set has no quorum or
    the round is 0. *)
Definition block_checks `{Base} (bp : BlockProposal) : bool :=
  bool_decide (number (bp_block bp) = bp_height bp)
  && (ls_has_noquorum (bp_lockset bp) || bool_decide (bp_round bp = 0)).

(** Those made once the votes of the lock-set have been handed to
    [add_vote]: for a block proposal [block_checks] and, unless its height
    is a future one, that the chain service links the block; for a voting
    instruction, that a quorum is possible. *)
Definition late_checks `{Base} (st : ConsensusManager) (p : Proposal) : bool :=
  match p with
  | PBlock bp =>
      block_checks bp
      && (bool_decide (bp_height bp > cm_height st)
          || bool_decide (is_Some (link_block (cm_chainservice st) (bp_block bp))))
  | PInstr vi => bool_decide (is_Some (ls_has_quorum_possible (vi_lockset vi)))
  end.

(** The height manager that [self.heights[k]] gives: the one that is there,
    or the empty one that the access creates. *)
Definition height_manager_at (st : ConsensusManager) (k : Z) : HeightManager :=
  default (mkHeightManager k ∅) (cm_heights st !! k).

(** The values of the properties [last_committing_lockset] and
    [last_valid_lockset] of the consensus manager. *)
Definition last_committing_lockset `{Base} (st : ConsensusManager)
  : Res (option LockSet) :=
  hm_last_quorum_lockset (height_manager_at st (cm_height st - 1)).

Definition last_valid_lockset `{Base} (st : ConsensusManager)
  : Res (option LockSet) :=
  match hm_last_valid_lockset (height_manager_at st (cm_height st)) with
  | Some ls => if ls_bool ls then Ok (Some ls) else last_committing_lockset st
  | None => last_committing_lockset st
  end.

(** A lock-set that [mk_lockset] makes for a new round of the current height
    is not valid: it has no votes. *)
Definition fresh_lockset_not_valid `{Base} (st : ConsensusManager) : Prop :=
  ls_is_valid (cm_mk_lockset st (hm_height (height_manager_at st (cm_height st))))
  = false.

(** The managers that lazy creation and logging add leave the rounds that
    exist, the height managers of the other heights and the last valid
    lock-set of the current height as they are. *)
Record lazily_extends `{Base} (st st' : ConsensusManager) : Prop := mkLazilyExtends {
  ext_chainservice : cm_chainservice st' = cm_chainservice st;
  ext_contract : cm_contract st' = cm_contract st;
  ext_privkey : cm_privkey st' = cm_privkey st;
  ext_rounds : ∀ h r rm, the_round h r st = Some rm → the_round h r st' = Some rm;
  ext_other : ∀ k, k ≠ cm_height st →
    height_manager_at st' k = height_manager_at st k;
  ext_height :
    hm_height (height_manager_at st' (cm_height st))
    = hm_height (height_manager_at st (cm_height st));
  ext_valid :
    hm_last_valid_lockset (height_manager_at st' (cm_height st))
    = hm_last_valid_lockset (height_manager_at st (cm_height st))
}.

(** The two proposals that [propose] makes, from the last committing and the
    last valid lock-set. *)
Definition block_proposal_of `{Base} (st : ConsensusManager) (self : RoundManager)
    (lcl lvl : LockSet) : Proposal :=
  PBlock (mkBlockProposal (privtoaddr (cm_privkey st)) (rm_height self)
            (rm_round self) (head_candidate (cm_chainservice st)) (copy lcl)
            (if bool_decide (rm_round self > 0) then Some (copy lvl) else None)).

Definition voting_instruction_of `{Base} (st : ConsensusManager) (self : RoundManager)
    (lvl : LockSet) : Proposal :=
  PInstr (mkVotingInstruction (privtoaddr (cm_privkey st)) (rm_height self)
            (rm_round self) (copy lvl)).

(** The test of [last_quorum_lockset] on the lock-set of a round: it is valid
    and has a quorum. *)
Definition quorate `{Base} (rm : RoundManager) : bool :=
  ls_is_valid (rm_lockset rm) && bool_decide (is_Some (ls_has_quorum (rm_lockset rm))).


(** What the lazy creation of managers and logging do to the manager: they
    add managers and change nothing that is there.  A round manager that
    they add has no proposal, no lock and no votes, and the last lock of
    every height stays what it is. *)
Record only_creates (st st' : ConsensusManager) : Prop := mkOnlyCreates {
  oc_chainservice : cm_chainservice st' = cm_chainservice st;
  oc_contract : cm_contract st' = cm_contract st;
  oc_privkey : cm_privkey st' = cm_privkey st;
  oc_candidates : cm_block_candidates st' = cm_block_candidates st;
  oc_evidence : cm_tracked_protocol_failures st' = cm_tracked_protocol_failures st;
  oc_rounds : ∀ h r rm, the_round h r st = Some rm → the_round h r st' = Some rm;
  oc_new : ∀ h r rm, the_round h r st' = Some rm → the_round h r st = None →
    rm_proposal rm = None ∧ rm_lock rm = None ∧ votes (rm_lockset rm) = [];
  oc_last_lock : ∀ h,
    hm_last_lock (height_manager_at st' h) = hm_last_lock (height_manager_at st h)
}.

(** The round managers other than the one of (h, r) are kept as they are. *)
Definition keeps_other_rounds (h r : Z) (st st' : ConsensusManager) : Prop :=
  ∀ h' r' rm, (h', r') ≠ (h, r) →
    the_round h' r' st = Some rm → the_round h' r' st' = Some rm.

(** The vote that [RoundManager.vote] decides on before it signs it, as a
    function of the manager, the round manager without a lock and the last
    lock of the height: the block of a voting instruction; the block of a
    block proposal when the node is not locked on a block and the proposal
    passes the assertions; the block of the last lock otherwise; without a
    proposal, nothing before the timeout and the last lock or nil after
    it. *)
Definition vote_choice `{Base} (st : ConsensusManager) (self : RoundManager)
    (last_lock : option Vote) : Res (option VoteKind) :=
  match rm_proposal self with
  | Some (PInstr vi) =>
      match ls_has_quorum_possible (vi_lockset vi) with
      | Some blockhash => Ok (Some (VoteBlock blockhash))
      | None => Raise AssertionError
      end
  | Some (PBlock bp) =>
      match isinstance_VoteBlock last_lock with
      | None =>
          if blk_linked (bp_block bp)
             && (ls_has_noquorum (bp_lockset bp) || bool_decide (rm_round self = 0))
             && bool_decide (prevhash (bp_block bp) = hash (cm_head st))
          then Ok (Some (VoteBlock (bp_blockhash bp)))
          else Raise AssertionError
      | Some blockhash => Ok (Some (VoteBlock blockhash))
      end
  | None =>
      if timed_out st self then
        match isinstance_VoteBlock last_lock with
        | Some blockhash => Ok (Some (VoteBlock blockhash))
        | None => Ok (Some VoteNil)
        end
      else Ok None
  end.



(** The blocks that a run of [commit] hands to [commit_block] follow one
    another: each call is made with the block of the call before as head. *)
Fixpoint chained `{Base} (head : Block) (calls : list CommitCall) : Prop :=
  match calls with
  | [] => True
  | c :: calls' => cm_head c.1 = head ∧ chained (bp_block c.2) calls'
  end.

(** The height managers that are there are kept as they are. *)
Definition keeps_heights (st st' : ConsensusManager) : Prop :=
  ∀ k hm, cm_heights st !! k = Some hm → cm_heights st' !! k = Some hm.

(** No block candidate that follows the head has the quorum of its
    height. *)
Definition nothing_to_commit `{Base} (st : ConsensusManager) : Prop :=
  ∀ k p, cm_block_candidates st !! k = Some p →
    prevhash (bp_block p) = hash (cm_head st) →
    ∃ hm quorum, cm_heights st !! bp_height p = Some hm
      ∧ hm_has_quorum hm = Ok quorum ∧ quorum ≠ Some (bp_blockhash p).

(** What the entry points other than [commit] keep: the chain service, the
    contract and the key stay as they are; the evidence list only grows; and
    a block candidate that is there afterwards was there before or is kept
    under its own block hash. *)
Record steady (st st' : ConsensusManager) : Prop := mkSteady {
  steady_chainservice : cm_chainservice st' = cm_chainservice st;
  steady_contract : cm_contract st' = cm_contract st;
  steady_privkey : cm_privkey st' = cm_privkey st;
  steady_evidence : ∃ ev,
    cm_tracked_protocol_failures st' = cm_tracked_protocol_failures st ++ ev;
  steady_candidates : ∀ k p, cm_block_candidates st' !! k = Some p →
    cm_block_candidates st !! k = Some p ∨ bp_blockhash p = k
}.

(** Every block candidate is kept under its own block hash. *)
Definition keyed_by_hash (st : ConsensusManager) : Prop :=
  ∀ k p, cm_block_candidates st !! k = Some p → bp_blockhash p = k.

(** What [commit] keeps: everything but the chain service and the managers
    that logging creates. *)
Definition commit_keeps (st st' : ConsensusManager) : Prop :=
  cm_contract st' = cm_contract st ∧ cm_privkey st' = cm_privkey st
  ∧ cm_block_candidates st' = cm_block_candidates st
  ∧ cm_tracked_protocol_failures st' = cm_tracked_protocol_failures st
  ∧ ∀ h r rm, the_round h r st = Some rm → the_round h r st' = Some rm.

(** The lock of the round manager of a (height, round), [None] also when
    no such manager exists yet. *)
Definition lock_at (st : ConsensusManager) (h r : Z) : option Vote :=
  the_round h r st ≫= rm_lock.

(** The locks of all rounds stay as they are. *)
Definition keeps_locks (st st' : ConsensusManager) : Prop :=
  ∀ h r, lock_at st' h r = lock_at st h r.

(** A round that has a proposal keeps it. *)
Definition keeps_proposals (st st' : ConsensusManager) : Prop :=
  ∀ h r p, proposal_at st h r = Some p → proposal_at st' h r = Some p.

(** ** [process] of a round and of a height *)

(** What [broadcast] hands to the chain service: a proposal or a vote. *)
Inductive Message : Type :=
  | MProposal (p : Proposal)
  | MVote (v : Vote).

Section Process.
Context `{Base}.

(** The property [round] of the consensus manager. *)
Definition cm_round : M Z :=
  let! height := gets cm_height in
  let! hm := heights_getitem height in
  ret (hm_round hm).

(** [broadcast(m)] logs and hands the message to the chain service; the
    messages handed over are the result of [process]. *)
Definition cm_broadcast (m : Message) : M (list Message) :=
  run! cm_log in ret [m].

(** [RoundManager.process] of the round manager at (h, r); the result is
    the list of the messages broadcast, in their order. *)
Definition rm_process (h r : Z) : M (list Message) :=
  run! cm_log in
  let! self := rounds_getitem h r in
  let! round_ := cm_round in
  run! assert_ (bool_decide (round_ = rm_round self)) in
  let! height := gets cm_height in
  let! hm := heights_getitem h in
  run! assert_ (bool_decide (height = hm_height hm)
                && bool_decide (hm_height hm = rm_height self)) in
  let! p := rm_propose h r in
  run! (match p with
        | Some (PBlock bp) => cm_add_block_proposal bp
        | _ => ret tt
        end) in
  let! sent_p := (match p with
                  | Some p => cm_broadcast (MProposal p)
                  | None => ret []
                  end) in
  let! v := rm_vote h r in
  let! sent_v := (match v with
                  | Some v => cm_broadcast (MVote v)
                  | None => ret []
                  end) in
  let! self := rounds_getitem h r in
  run! assert_ (negb (bool_decide (is_Some (rm_proposal self)))
                || bool_decide (is_Some (rm_lock self))) in
  ret (sent_p ++ sent_v).

(** [HeightManager.process] of the height manager at h. *)
Definition hm_process (h : Z) : M (list Message) :=
  run! cm_log in
  let! self := heights_getitem h in
  let! _ := rounds_getitem h (hm_round self) in
  rm_process h (hm_round self).
End Process.

(** A computation that, started where the round (h, r) has no proposal,
    leaves every proposal that is there. *)
Definition sets_unset {A} (h r : Z) (m : M A) : Prop :=
  ∀ st st' res, proposal_at st h r = None → m st = (st', res) → keeps_proposals st st'.

(** A computation that, on a round (h, r) that exists, returns a proposal
    only when it has made it the proposal of the round. *)
Definition proposes (h r : Z) (m : M (option Proposal)) : Prop :=
  ∀ st st' p, is_Some (the_round h r st) → m st = (st', Ok (Some p)) →
    proposal_at st' h r = Some p.

(** ** Concrete runs

    Runs of the manager over the lock-set algebra of [SpecBase], with the
    four validators of its node. *)

Module Scenario.
Import SpecBase.

(** The manager after a computation. *)
Definition after {A} (m : M A) (st : ConsensusManager) : ConsensusManager := (m st).1.

(** The quorum that signed block 2, the head. *)
Definition signing2 : LockSet :=
  mkLockSet 4 [vote_block "A" 2 0 "h2"; vote_block "B" 2 0 "h2";
               vote_block "C" 2 0 "h2"].

(** The proposal of block 3 at round 0, by [C], the proposer of (3, 0). *)
Definition proposal3 : Proposal :=
  PBlock (mkBlockProposal "C" 3 0 block3 signing2 None).

(** The node once it has accepted that proposal and three votes for its
    block, and then once it has committed it. *)
Definition proposed : ConsensusManager := after (cm_add_proposal proposal3) node.
Definition voted : ConsensusManager :=
  after (add_votes [vote_block "B" 3 0 "x"; vote_block "C" 3 0 "x";
                    vote_block "D" 3 0 "x"]) proposed.
Definition committed : ConsensusManager := (cm_commit 5 voted).2.1.

(** Double voting: [B] votes for block [x] at (5, 2), then for [y]. *)
Definition b_voted_x : ConsensusManager := after (cm_add_vote (vote_block "B" 5 2 "x")) node.

(** Two quorums at one height: [B], [C] and [D] vote for [x] at round 0 of
    height 3 and, as validators that repeat their lock do, again at
    round 1. *)
Definition six_votes : list Vote :=
  [vote_block "B" 3 0 "x"; vote_block "C" 3 0 "x"; vote_block "D" 3 0 "x";
   vote_block "B" 3 1 "x"; vote_block "C" 3 1 "x"; vote_block "D" 3 1 "x"].
Definition two_quorums : ConsensusManager := after (add_votes six_votes) proposed.

(** A voting instruction for round 1 of height 3, with a valid lock-set of
    round 0 in which [x] can still reach a quorum; [D] is the proposer of
    (3, 1). *)
Definition lockset30 : LockSet :=
  mkLockSet 4 [vote_block "B" 3 0 "x"; vote_block "C" 3 0 "x"; vote_nil "D" 3 0].
Definition instruction31 : Proposal :=
  PInstr (mkVotingInstruction "D" 3 1 lockset30).

Definition signing4 : LockSet :=
  mkLockSet 4 [vote_block "A" 4 0 "h4"; vote_block "B" 4 0 "h4";
               vote_block "C" 4 0 "h4"].
Definition future5 : Proposal :=
  PBlock (mkBlockProposal "C" 5 0 (mkBlock false 5 "z" "h4") signing4 None).
Definition forged5 : Proposal :=
  PBlock (mkBlockProposal "B" 5 0 (mkBlock false 5 "z" "h4") signing4 None).

(** The node votes for block [x] at round 0 of height 3, which locks it. *)
Definition locked_x : ConsensusManager := after (rm_vote 3 0) proposed.

(** Round 0 ends without a quorum, and [D], the proposer of (3, 1), proposes
    another block, [y]. *)
Definition nil30 : LockSet :=
  mkLockSet 4 [vote_nil "B" 3 0; vote_nil "C" 3 0; vote_nil "D" 3 0].
Definition proposal3y : Proposal :=
  PBlock (mkBlockProposal "D" 3 1 block3' signing2 (Some nil30)).
Definition proposed_y : ConsensusManager := after (cm_add_proposal proposal3y) locked_x.

(** The round manager at (h, r) in a manager that has it. *)
Definition round_of (st : ConsensusManager) (h r : Z) : RoundManager :=
  default (mkRoundManager r h (mkLockSet 0 []) None None None) (the_round h r st).

(** Or round 0 ends with a possible quorum for [y], and [D] sends the
    voting instruction for it. *)
Definition lockset30y : LockSet :=
  mkLockSet 4 [vote_block "B" 3 0 "y"; vote_block "C" 3 0 "y"; vote_nil "D" 3 0].
Definition instruction31y : Proposal :=
  PInstr (mkVotingInstruction "D" 3 1 lockset30y).
Definition instructed_y : ConsensusManager :=
  after (cm_add_proposal instruction31y) locked_x.

(** The node is the proposer of (4, 0), the round that opens once block 3 is
    committed, and of (3, 2).  At height 3, round 1 ends with the valid
    lock-set [lockset31], in which [x] can still reach a quorum. *)
Definition quorum30 : LockSet :=
  mkLockSet 4 [vote_block "B" 3 0 "x"; vote_block "C" 3 0 "x";
               vote_block "D" 3 0 "x"].
Definition lockset31 : LockSet :=
  mkLockSet 4 [vote_block "B" 3 1 "x"; vote_block "C" 3 1 "x"; vote_nil "D" 3 1].
Definition round1_over : ConsensusManager := after (add_votes (votes lockset31)) node.

Definition linked3y : Proposal :=
  PBlock (mkBlockProposal "D" 3 1 (mkBlock true 3 "y" "h2") signing2 (Some nil30)).

(** The node that waits at round 0 of height 3: the round manager is there,
    without a proposal; and the same once the alarm of the round, set for
    time 0, is due. *)
Definition waiting : ConsensusManager := after (rounds_getitem 3 0) node.

(** The node, proposer of (4, 0), once it has proposed there; and the
    proposal of block 3 with its block linked, as [add_proposal] hands it
    on. *)
Definition proposed4 : ConsensusManager := after (rm_propose 4 0) committed.
Definition linked3 : BlockProposal :=
  mkBlockProposal "C" 3 0 (mkBlock true 3 "x" "h2") signing2 None.
End Scenario.
(** ** Proofs *)

Section MonadFacts.
Context {A B : Type}.

Lemma bind_Ok_inv (m : M A) (k : A → M B) st st' b :
  bind m k st = (st', Ok b) →
  ∃ a s, m st = (s, Ok a) ∧ k a s = (st', Ok b).
Proof.
  unfold bind. destruct (m st) as [s [a|e]]; [eauto | discriminate].
Qed.

Lemma bind_inv (m : M A) (k : A → M B) st st' r :
  bind m k st = (st', r) →
  (∃ a s, m st = (s, Ok a) ∧ k a s = (st', r))
  ∨ (∃ e, m st = (st', Raise e) ∧ r = Raise e).
Proof.
  unfold bind. destruct (m st) as [s [a|e]]; [eauto | ].
  intros [= <- <-]. eauto.
Qed.

Lemma bind_Ok (m : M A) (k : A → M B) st s a :
  m st = (s, Ok a) → bind m k st = k a s.
Proof. unfold bind. by intros ->. Qed.

Lemma bind_Raise (m : M A) (k : A → M B) st s e :
  m st = (s, Raise e) → bind m k st = (s, Raise e).
Proof. unfold bind. by intros ->. Qed.

Context (R : relation ConsensusManager) `{!PreOrder R}.

Lemma preserves_ret (a : A) : preserves R (ret a).
Proof. intros st st' r [= <- _]. reflexivity. Qed.

Lemma preserves_raise e : preserves R (@raise A e).
Proof. intros st st' r [= <- _]. reflexivity. Qed.

Lemma preserves_lift (x : Res A) : preserves R (lift x).
Proof. intros st st' r [= <- _]. reflexivity. Qed.

Lemma preserves_gets (f : ConsensusManager → A) : preserves R (gets f).
Proof. intros st st' r [= <- _]. reflexivity. Qed.

Lemma preserves_bind (m : M A) (k : A → M B) :
  preserves R m → (∀ a, preserves R (k a)) → preserves R (bind m k).
Proof.
  intros Hm Hk st st' r Hrun.
  apply bind_inv in Hrun as [(a & s & Hm1 & Hk1) | (e & Hm1 & _)].
  - transitivity s; [by eapply Hm | by eapply Hk].
  - by eapply Hm.
Qed.

Lemma preserves_try (m : M A) : preserves R m → preserves R (try_ m).
Proof.
  intros Hm st st' r. unfold try_. destruct (m st) as [s x] eqn:E.
  intros [= <- _]. by eapply Hm.
Qed.
End MonadFacts.

Lemma preserves_assert (R : relation ConsensusManager) `{!PreOrder R} b :
  preserves R (assert_ b).
Proof. destruct b; [apply preserves_ret | apply preserves_raise]; done. Qed.

Lemma preserves_modify (R : relation ConsensusManager) f :
  (∀ st, R st (f st)) → preserves R (modify f).
Proof. intros Hf st st' r [= <- _]. apply Hf. Qed.

#[global] Instance frame_preorder : PreOrder frame.
Proof.
  split.
  - intros st. split; try done. exists []. by rewrite app_nil_r.
  - intros s1 s2 s3 [C1 K1 V1 B1 P1 (ev1 & E1 & F1)] [C2 K2 V2 B2 P2 (ev2 & E2 & F2)].
    split; try congruence.
    exists (ev1 ++ ev2). rewrite E2, E1, app_assoc. split; [done|].
    by apply Forall_app.
Qed.

Section FrameFacts.
Context `{Base}.

Lemma proposal_at_new_height st k hm h r :
  cm_heights st !! k = None → hm_rounds hm = ∅ →
  proposal_at (set_heights <[k := hm]> st) h r = proposal_at st h r.
Proof.
  intros Hk Hhm. unfold proposal_at, the_round. simpl.
  destruct (decide (k = h)) as [->|Hne].
  - rewrite lookup_insert_eq, Hk. simpl. by rewrite Hhm, lookup_empty.
  - by rewrite lookup_insert_ne.
Qed.

Lemma proposal_at_new_round st hm rm h r h' r' :
  cm_heights st !! h = Some hm → hm_rounds hm !! r = None →
  rm_proposal rm = None →
  proposal_at (set_heights (alter (set_rounds <[r := rm]>) h) st) h' r'
  = proposal_at st h' r'.
Proof.
  intros Hh Hr Hp. unfold proposal_at, the_round. simpl.
  destruct (decide (h = h')) as [<-|Hne].
  - rewrite lookup_alter_eq, Hh. simpl.
    destruct (decide (r = r')) as [<-|Hne'].
    + by rewrite lookup_insert_eq, Hr.
    + by rewrite lookup_insert_ne.
  - by rewrite lookup_alter_ne.
Qed.

Lemma proposal_at_update_round st f h r h' r' :
  (∀ rm, rm_proposal (f rm) = rm_proposal rm) →
  proposal_at (update_round h r f st) h' r' = proposal_at st h' r'.
Proof.
  intros Hf. unfold proposal_at, the_round, update_round. simpl.
  destruct (decide (h = h')) as [<-|Hne].
  - rewrite lookup_alter_eq. destruct (cm_heights st !! h) as [hm|]; [|done].
    simpl. destruct (decide (r = r')) as [<-|Hne'].
    + rewrite lookup_alter_eq. destruct (hm_rounds hm !! r); simpl; [apply Hf|done].
    + by rewrite lookup_alter_ne.
  - by rewrite lookup_alter_ne.
Qed.

Lemma frame_track st e :
  ¬ is_InvalidProposalEvidence e → frame st (track e st).
Proof.
  intros He. split; try done. exists [e]. split; [done|]. by constructor.
Qed.

Lemma frame_update_round st f h r :
  (∀ rm, rm_proposal (f rm) = rm_proposal rm) → frame st (update_round h r f st).
Proof.
  intros Hf. split; try done.
  - intros h' r'. by apply proposal_at_update_round.
  - exists []. by rewrite app_nil_r.
Qed.

Lemma heights_getitem_frame k : preserves frame (heights_getitem k).
Proof.
  intros st st' r. unfold heights_getitem.
  destruct (cm_heights st !! k) as [hm|] eqn:E; intros [= <- _]; [reflexivity|].
  split; try done.
  - intros h r'. by apply proposal_at_new_height.
  - exists []. by rewrite app_nil_r.
Qed.

Lemma heights_getitem_present k st st' hm :
  heights_getitem k st = (st', Ok hm) → cm_heights st' !! k = Some hm.
Proof.
  unfold heights_getitem.
  destruct (cm_heights st !! k) as [x|] eqn:E; intros [= <- <-]; [done|].
  simpl. by rewrite lookup_insert_eq.
Qed.

Lemma heights_getitem_Ok k st : ∃ st' hm, heights_getitem k st = (st', Ok hm).
Proof. unfold heights_getitem. destruct (cm_heights st !! k); eauto. Qed.

Lemma rounds_getitem_frame h r : preserves frame (rounds_getitem h r).
Proof.
  intros st st' res Hrun. unfold rounds_getitem in Hrun.
  apply bind_inv in Hrun as [(hm & s & Hm & Hk) | (e & Hm & _)];
    [|by eapply heights_getitem_frame].
  pose proof (heights_getitem_frame _ _ _ _ Hm) as F1.
  pose proof (heights_getitem_present _ _ _ _ Hm) as Hs.
  destruct (hm_rounds hm !! r) as [rm|] eqn:E.
  - injection Hk as <- _. done.
  - unfold bind, gets, modify, ret in Hk. injection Hk as <- _.
    etransitivity; [exact F1|]. split; try done.
    + intros h' r'. by eapply proposal_at_new_round.
    + exists []. by rewrite app_nil_r.
Qed.

End FrameFacts.

Create HintDb frames discriminated.
#[global] Hint Resolve heights_getitem_frame rounds_getitem_frame : frames.

(** One step through a computation whose parts keep a relation. *)
Ltac preserves_step :=
  lazymatch goal with
  | |- preserves _ (bind _ _) => apply preserves_bind; [apply _ | | intros ?]
  | |- preserves _ (ret _) => apply preserves_ret; apply _
  | |- preserves _ (raise _) => apply preserves_raise; apply _
  | |- preserves _ (gets _) => apply preserves_gets; apply _
  | |- preserves _ (lift _) => apply preserves_lift; apply _
  | |- preserves _ (assert_ _) => apply preserves_assert; apply _
  | |- preserves _ (try_ _) => apply preserves_try; [.. |]; try apply _
  | |- preserves _ (modify _) => apply preserves_modify; intros ?
  | |- preserves _ (match ?x with _ => _ end) => destruct x
  | |- preserves _ _ => solve [eauto with frames]
  end.

Section VoteFrames.
Context `{Base}.

Lemma cm_log_frame : preserves frame cm_log.
Proof. unfold cm_log. repeat preserves_step. Qed.
Hint Resolve cm_log_frame : frames.

Lemma rm_add_vote_frame h r v force : preserves frame (rm_add_vote h r v force).
Proof.
  unfold rm_add_vote. repeat preserves_step;
    solve [apply frame_track; by intros [] | by apply frame_update_round].
Qed.
Hint Resolve rm_add_vote_frame : frames.

Lemma hm_add_vote_frame h v force : preserves frame (hm_add_vote h v force).
Proof. unfold hm_add_vote. repeat preserves_step. Qed.
Hint Resolve hm_add_vote_frame : frames.

Lemma cm_add_vote_frame v : preserves frame (cm_add_vote v).
Proof.
  unfold cm_add_vote. repeat preserves_step; apply frame_track; by intros [].
Qed.
Hint Resolve cm_add_vote_frame : frames.

Lemma add_votes_frame vs : preserves frame (add_votes vs).
Proof. induction vs; simpl; repeat preserves_step. Qed.

Lemma cm_last_committing_lockset_frame : preserves frame cm_last_committing_lockset.
Proof. unfold cm_last_committing_lockset. repeat preserves_step. Qed.
Hint Resolve cm_last_committing_lockset_frame : frames.

Lemma cm_last_valid_lockset_frame : preserves frame cm_last_valid_lockset.
Proof. unfold cm_last_valid_lockset. repeat preserves_step. Qed.
End VoteFrames.

#[global] Hint Resolve cm_log_frame rm_add_vote_frame hm_add_vote_frame
  cm_add_vote_frame add_votes_frame cm_last_committing_lockset_frame
  cm_last_valid_lockset_frame : frames.

(** ** [commit] *)

Section Commit.
Context `{Base}.

Lemma cm_has_quorum_at_run height st st' r :
  cm_has_quorum_at height st = (st', r) →
  frame st st' ∧ ∃ hm, cm_heights st' !! height = Some hm ∧ r = hm_has_quorum hm.
Proof.
  unfold cm_has_quorum_at. intros Hrun.
  destruct (heights_getitem_Ok height st) as (s & hm & Hget).
  rewrite (bind_Ok _ _ _ _ _ Hget) in Hrun. injection Hrun as <- <-.
  split; [by eapply heights_getitem_frame|].
  exists hm. split; [by eapply heights_getitem_present|done].
Qed.

Lemma commit_loop_on_quorum recurse ps st :
  (∀ s, Forall on_quorum (recurse s).1) →
  Forall (λ p, (∃ k, cm_block_candidates st !! k = Some p)
               ∧ prevhash (bp_block p) = hash (cm_head st)) ps →
  Forall on_quorum (commit_loop recurse ps st).1.
Proof.
  intros Hrec. revert st. induction ps as [|p ps IH]; intros st Hps; simpl.
  { constructor. }
  apply Forall_cons in Hps as [[Hcand Hprev] Hps].
  destruct (cm_has_quorum_at (bp_height p) st) as [st1 [quorum|e]] eqn:Hq;
    [|constructor].
  apply cm_has_quorum_at_run in Hq as [F (hm & Hhm & Hquorum)].
  case_bool_decide as Heq.
  - assert (on_quorum ((cm_store_proposal p st1).1, p)) as Hcall.
    { split; [|split]; simpl.
      - by rewrite (frame_candidates _ _ F).
      - unfold cm_head in *. simpl. by rewrite (frame_chainservice _ _ F).
      - exists hm. split; [done|]. by rewrite <- Hquorum, Heq. }
    destruct (commit_block _ _) as [cs success]. destruct success.
    + case_bool_decide.
      * match goal with
        | |- context [recurse ?s] =>
            specialize (Hrec s); destruct (recurse s) as [calls out]
        end.
        simpl in *. by constructor.
      * simpl. constructor; [done|constructor].
    + simpl. constructor; [done|constructor].
  - apply IH. eapply Forall_impl; [exact Hps|]. intros q [Hc Hp]. simpl in *.
    unfold cm_head in *. by rewrite (frame_candidates _ _ F), (frame_chainservice _ _ F).
Qed.

Lemma commit_candidates_spec st :
  Forall (λ p, (∃ k, cm_block_candidates st !! k = Some p)
               ∧ prevhash (bp_block p) = hash (cm_head st)) (commit_candidates st).
Proof.
  apply Forall_forall. intros p Hp. unfold commit_candidates in Hp.
  apply list_elem_of_filter in Hp as [Hprev Hin].
  apply list_elem_of_fmap in Hin as ([k q] & -> & Hin).
  apply elem_of_map_to_list in Hin. eauto.
Qed.

(** C1.  Every call of [chainservice.commit_block(p.block)] that an
    execution of [commit] makes, at any recursion depth, is made on a block
    candidate [p] whose block has the hash of the current head as [prevhash]
    and for which [heights[p.height].has_quorum] is [p.blockhash]. *)
Theorem commit_only_on_quorum depth st :
  Forall on_quorum (cm_commit depth st).1.
Proof.
  revert st. induction depth as [|depth IH]; intros st; simpl; [constructor|].
  apply commit_loop_on_quorum; [exact IH|]. apply commit_candidates_spec.
Qed.
End Commit.

(** ** [cleanup] *)

Section Cleanup.
Context `{Base}.

Lemma cleanup_candidates_run ps st :
  NoDup (map bp_blockhash ps) →
  (∀ p, p ∈ ps → cm_block_candidates st !! bp_blockhash p = Some p) →
  ∃ st', cleanup_candidates ps st = (st', Ok tt)
    ∧ cm_chainservice st' = cm_chainservice st
    ∧ cm_heights st' = cm_heights st
    ∧ (∀ p, p ∈ ps → number (cm_head st) >= bp_height p →
            cm_block_candidates st' !! bp_blockhash p = None)
    ∧ (∀ k, (∀ p, p ∈ ps → bp_blockhash p = k → ¬ number (cm_head st) >= bp_height p) →
            cm_block_candidates st' !! k = cm_block_candidates st !! k).
Proof.
  revert st. induction ps as [|p ps IH]; intros st Hnd Hin; simpl.
  { exists st. split_and!; try done. intros p Hp. by apply elem_of_nil in Hp. }
  apply NoDup_cons in Hnd as [Hp Hnd].
  assert (∀ q, q ∈ ps → bp_blockhash q ≠ bp_blockhash p) as Hne.
  { intros q Hq Heq. apply Hp. rewrite <- Heq. by apply list_elem_of_fmap_2. }
  unfold bind at 1, gets at 1. unfold bind at 1.
  case_bool_decide as Hcond.
  - unfold block_candidates_pop, bind, gets.
    rewrite (Hin p) by apply list_elem_of_here. unfold modify.
    destruct (IH (set_block_candidates (delete (bp_blockhash p)) st) Hnd)
      as (st' & Hrun & Hcs & Hh & Hdrop & Hkeep).
    { intros q Hq. simpl. rewrite lookup_delete_ne by (symmetry; by apply Hne).
      apply Hin. by apply list_elem_of_further. }
    exists st'. split_and!; try done.
    + intros q Hq Hqc. apply elem_of_cons in Hq as [->|Hq].
      * rewrite Hkeep; [simpl; apply lookup_delete_eq|].
        intros q Hq Heq. by destruct (Hne q Hq).
      * by apply Hdrop.
    + intros k Hk. rewrite Hkeep.
      * simpl. apply lookup_delete_ne. intros <-.
        by apply (Hk p); [apply list_elem_of_here|..].
      * intros q Hq. apply Hk. by apply list_elem_of_further.
  - unfold ret at 1.
    destruct (IH st Hnd) as (st' & Hrun & Hcs & Hh & Hdrop & Hkeep).
    { intros q Hq. apply Hin. by apply list_elem_of_further. }
    exists st'. split_and!; try done.
    + intros q Hq Hqc. apply elem_of_cons in Hq as [->|Hq]; [done|].
      by apply Hdrop.
    + intros k Hk. apply Hkeep. intros q Hq. apply Hk. by apply list_elem_of_further.
Qed.

Lemma cleanup_heights_run hs st :
  NoDup hs →
  (∀ h, h ∈ hs → is_Some (cm_heights st !! h)) →
  ∃ st', cleanup_heights hs st = (st', Ok tt)
    ∧ cm_chainservice st' = cm_chainservice st
    ∧ cm_block_candidates st' = cm_block_candidates st
    ∧ (∀ h hm, h ∈ hs → cm_heights st !! h = Some hm →
         cm_heights st' !! h
         = if bool_decide (hm_height hm < number (cm_head st)) then None else Some hm)
    ∧ (∀ h, h ∉ hs → cm_heights st' !! h = cm_heights st !! h).
Proof.
  revert st. induction hs as [|h hs IH]; intros st Hnd Hin; simpl.
  { exists st. split_and!; try done. intros h hm Hh. by apply elem_of_nil in Hh. }
  apply NoDup_cons in Hnd as [Hh Hnd].
  destruct (Hin h) as [hm Hhm]; [apply list_elem_of_here|].
  unfold bind at 1, heights_getitem at 1. rewrite Hhm.
  unfold bind at 1, gets at 1. unfold bind at 1.
  case_bool_decide as Hcond.
  - unfold modify.
    destruct (IH (set_heights (delete h) st) Hnd)
      as (st' & Hrun & Hcs & Hc & Hdrop & Hkeep).
    { intros k Hk. simpl. rewrite lookup_delete_ne by (by intros ->). apply Hin.
      by apply list_elem_of_further. }
    exists st'. split_and!; try done.
    + intros k hk Hk Hhk. apply elem_of_cons in Hk as [->|Hk].
      * rewrite Hkeep by done. simpl. rewrite lookup_delete_eq.
        assert (hk = hm) as -> by congruence. by rewrite bool_decide_eq_true_2.
      * rewrite (Hdrop k hk Hk); [done|]. simpl.
        rewrite lookup_delete_ne by (by intros ->). done.
    + intros k Hk. apply not_elem_of_cons in Hk as [Hne Hk].
      rewrite Hkeep by done. simpl. by rewrite lookup_delete_ne.
  - unfold ret at 1.
    destruct (IH st Hnd) as (st' & Hrun & Hcs & Hc & Hdrop & Hkeep).
    { intros k Hk. apply Hin. by apply list_elem_of_further. }
    exists st'. split_and!; try done.
    + intros k hk Hk Hhk. apply elem_of_cons in Hk as [->|Hk].
      * rewrite Hkeep by done. assert (hk = hm) as -> by congruence.
        by rewrite bool_decide_eq_false_2.
      * by apply Hdrop.
    + intros k Hk. apply not_elem_of_cons in Hk as [Hne Hk]. by apply Hkeep.
Qed.

Lemma cm_log_run st :
  ∃ st', cm_log st = (st', Ok tt) ∧ frame st st'
    ∧ (∀ h hm, cm_heights st !! h = Some hm →
         ∃ hm', cm_heights st' !! h = Some hm' ∧ hm_height hm' = hm_height hm).
Proof.
  unfold cm_log, bind, gets.
  destruct (heights_getitem_Ok (cm_height st) st) as (s1 & hm1 & E1). rewrite E1.
  destruct (rounds_getitem (cm_height st) (hm_round hm1) s1) as [s2 r2] eqn:E2.
  pose proof (heights_getitem_frame _ _ _ _ E1) as F1.
  pose proof (rounds_getitem_frame _ _ _ _ _ E2) as F2.
  assert (∃ rm, r2 = Ok rm ∧ ∀ h hm, cm_heights s1 !! h = Some hm →
            ∃ hm', cm_heights s2 !! h = Some hm' ∧ hm_height hm' = hm_height hm)
    as (rm & -> & Hs2).
  { unfold rounds_getitem, bind in E2.
    destruct (heights_getitem (cm_height st) s1) as [s1'' r1''] eqn:E3.
    pose proof (heights_getitem_present _ _ _ _ E1) as Hp.
    unfold heights_getitem in E3. rewrite Hp in E3. injection E3 as <- <-.
    destruct (hm_rounds hm1 !! hm_round hm1) as [rm|].
    - injection E2 as <- <-. eauto.
    - unfold gets, modify, ret in E2. injection E2 as <- <-. eexists. split; [done|].
      intros h hm Hh. simpl. destruct (decide (cm_height st = h)) as [<-|Hne].
      + rewrite lookup_alter_eq, Hh. simpl. eauto.
      + rewrite lookup_alter_ne by done. eauto. }
  exists s2. split_and!; [done|by etransitivity|].
  intros h hm Hh. unfold heights_getitem in E1.
  destruct (cm_heights st !! cm_height st) eqn:E; injection E1 as <- <-.
  - by apply Hs2.
  - apply (Hs2 h hm). simpl. rewrite lookup_insert_ne; [done|]. intros <-. congruence.
Qed.

(** C10, as amended.  When every block candidate is kept under its own block
    hash, [cleanup] returns; afterwards every block candidate whose height is
    at most the number of the head is gone and the others are kept; every
    height manager whose height is below the number of the head is gone, and
    every height manager whose height is the number of the head or more is
    still there. *)
Theorem cleanup_retires st :
  (∀ k p, cm_block_candidates st !! k = Some p → bp_blockhash p = k) →
  ∃ st', cm_cleanup st = (st', Ok tt)
    ∧ cm_head st' = cm_head st
    ∧ (∀ k p, cm_block_candidates st' !! k = Some p →
         cm_block_candidates st !! k = Some p ∧ number (cm_head st) < bp_height p)
    ∧ (∀ k p, cm_block_candidates st !! k = Some p →
         number (cm_head st) < bp_height p → cm_block_candidates st' !! k = Some p)
    ∧ (∀ h hm, cm_heights st' !! h = Some hm → number (cm_head st) ≤ hm_height hm)
    ∧ (∀ h hm, cm_heights st !! h = Some hm → number (cm_head st) ≤ hm_height hm →
         is_Some (cm_heights st' !! h)).
Proof.
  intros Hkeys. unfold cm_cleanup.
  destruct (cm_log_run st) as (s1 & Hlog & F1 & Hh1).
  rewrite (bind_Ok _ _ _ _ _ Hlog). unfold bind at 1, gets at 1.
  pose proof (frame_candidates _ _ F1) as Hc1.
  pose proof (frame_chainservice _ _ F1) as Hcs1.
  assert (cm_head s1 = cm_head st) as Hhead1 by (unfold cm_head; by rewrite Hcs1).
  destruct (cleanup_candidates_run (map snd (map_to_list (cm_block_candidates s1))) s1)
    as (s2 & Hrun2 & Hcs2 & Hh2 & Hdrop2 & Hkeep2).
  { rewrite Hc1.
    replace (map bp_blockhash (map snd (map_to_list (cm_block_candidates st))))
      with (map fst (map_to_list (cm_block_candidates st))).
    - apply NoDup_fst_map_to_list.
    - rewrite map_map. apply map_ext_in. intros [k p] Hkp. simpl. symmetry.
      apply Hkeys. apply elem_of_map_to_list. by apply list_elem_of_In. }
  { rewrite Hc1. intros p Hp. apply list_elem_of_fmap in Hp as ([k q] & -> & Hin).
    apply elem_of_map_to_list in Hin. simpl. by rewrite (Hkeys _ _ Hin). }
  rewrite (bind_Ok _ _ _ _ _ Hrun2). unfold bind at 1, gets at 1.
  destruct (cleanup_heights_run (map fst (map_to_list (cm_heights s2))) s2)
    as (s3 & Hrun3 & Hcs3 & Hc3 & Hdrop3 & Hkeep3).
  { apply NoDup_fst_map_to_list. }
  { intros h Hh. apply list_elem_of_fmap in Hh as ([k hm] & -> & Hin).
    apply elem_of_map_to_list in Hin. by eexists. }
  assert (cm_head s2 = cm_head st) as Hhead2 by (unfold cm_head; by rewrite Hcs2, Hcs1).
  exists s3. split_and!; [done|unfold cm_head; by rewrite Hcs3, Hcs2, Hcs1|..].
  - intros k p Hk. rewrite Hc3 in Hk.
    destruct (cm_block_candidates st !! k) as [q|] eqn:Hq.
    + pose proof (Hkeys _ _ Hq) as <-.
      destruct (decide (number (cm_head st) >= bp_height q)) as [Hge|Hlt].
      * rewrite Hdrop2 in Hk; [done| |by rewrite Hhead1].
        apply list_elem_of_fmap. exists (bp_blockhash q, q). split; [done|].
        apply elem_of_map_to_list. by rewrite Hc1.
      * rewrite Hkeep2, Hc1, Hq in Hk.
        -- injection Hk as <-. split; [done|lia].
        -- intros p' Hp' Heq. apply list_elem_of_fmap in Hp' as ([k' q'] & -> & Hin).
           apply elem_of_map_to_list in Hin. rewrite Hc1 in Hin. simpl in *.
           rewrite (Hkeys _ _ Hin) in Heq. subst k'.
           assert (q' = q) as -> by congruence. by rewrite Hhead1.
    + rewrite Hkeep2, Hc1, Hq in Hk; [done|].
      intros p' Hp' Heq. apply list_elem_of_fmap in Hp' as ([k' q'] & -> & Hin).
      apply elem_of_map_to_list in Hin. rewrite Hc1 in Hin. simpl in *.
      rewrite (Hkeys _ _ Hin) in Heq. congruence.
  - intros k p Hk Hlt. rewrite Hc3, Hkeep2, Hc1; [done|].
    intros p' Hp' Heq. apply list_elem_of_fmap in Hp' as ([k' q'] & -> & Hin).
    apply elem_of_map_to_list in Hin. rewrite Hc1 in Hin. simpl in *.
    rewrite (Hkeys _ _ Hin) in Heq. subst k'.
    assert (p = q') as <- by congruence. rewrite Hhead1. lia.
  - intros h hm Hh.
    destruct (cm_heights s2 !! h) as [hm2|] eqn:Hh2'.
    + rewrite (Hdrop3 h hm2) in Hh; [| |done].
      * rewrite Hhead2 in Hh. case_bool_decide; [done|]. injection Hh as <-. lia.
      * apply list_elem_of_fmap. exists (h, hm2). split; [done|].
        by apply elem_of_map_to_list.
    + rewrite Hkeep3 in Hh; [congruence|].
      intros Hin. apply list_elem_of_fmap in Hin as ([k' q'] & -> & Hin).
      apply elem_of_map_to_list in Hin. simpl in *. congruence.
  - intros h hm Hh Hle. destruct (Hh1 _ _ Hh) as (hm1 & Hhm1 & Heq).
    rewrite <- Hh2 in Hhm1. rewrite (Hdrop3 h hm1); [| |done].
    + rewrite Hhead2, bool_decide_eq_false_2 by lia. by eexists.
    + apply list_elem_of_fmap. exists (h, hm1). split; [done|].
      by apply elem_of_map_to_list.
Qed.
End Cleanup.

Section CleanupExamples.
Import SpecBase Scenario.

(** C1 at work: the node that holds the candidate for block 3 and a quorum of
    votes for it commits that block, by one call of [commit_block]. *)
Example commit_commits_block3 :
  map (λ c, bp_blockhash c.2) (cm_commit 5 voted).1 = ["x"]
  ∧ (cm_commit 5 voted).2.2 = Ok tt
  ∧ cm_head committed = mkBlock true 3 "x" "h2".
Proof. by vm_compute. Qed.

(** C10 as stated fails: after [cleanup] with the head at number 3, the
    height manager of height 3 is still in [heights]. *)
Lemma cleanup_keeps_head_height :
  number (cm_head committed) = 3
  ∧ (cm_cleanup committed).2 = Ok tt
  ∧ ∃ hm, cm_heights (cm_cleanup committed).1 !! 3 = Some hm
          ∧ hm_height hm ≤ number (cm_head (cm_cleanup committed).1).
Proof.
  split; [by vm_compute|]. split; [by vm_compute|].
  eexists. split; [by vm_compute|]. by vm_compute.
Qed.

(** [cleanup_retires] on the node that has committed block 3. *)
Lemma cleanup_retires_witness :
  ∃ st', cm_cleanup committed = (st', Ok tt)
    ∧ cm_head st' = cm_head committed
    ∧ (∀ k p, cm_block_candidates st' !! k = Some p →
         cm_block_candidates committed !! k = Some p
         ∧ number (cm_head committed) < bp_height p)
    ∧ (∀ k p, cm_block_candidates committed !! k = Some p →
         number (cm_head committed) < bp_height p →
         cm_block_candidates st' !! k = Some p)
    ∧ (∀ h hm, cm_heights st' !! h = Some hm →
         number (cm_head committed) ≤ hm_height hm)
    ∧ (∀ h hm, cm_heights committed !! h = Some hm →
         number (cm_head committed) ≤ hm_height hm →
         is_Some (cm_heights st' !! h)).
Proof.
  apply (cleanup_retires committed).
  intros k p Hk.
  assert (cm_block_candidates committed
          = {[ "x" := mkBlockProposal "C" 3 0 (mkBlock true 3 "x" "h2") signing2 None ]})
    as Hc by (by vm_compute).
  rewrite Hc in Hk. apply lookup_singleton_Some in Hk as [<- <-]. done.
Defined.
End CleanupExamples.

(** ** Three defects, at concrete inputs *)

Section Defects.
Import SpecBase Scenario.

(** C3.  The node accepts the proposal of block 3 and then six votes, each
    from a validator and none of them double: three for [x] at round 0 and
    three for [x] at round 1.  Both lock-sets of height 3 are then valid and
    have a quorum, the consistency assertion of [last_quorum_lockset] fails,
    and with it [commit]. *)
Theorem two_quorums_at_one_height :
  (add_votes six_votes proposed).2 = Ok tt
  ∧ (∃ hm rm0 rm1,
        cm_heights two_quorums !! 3 = Some hm
        ∧ hm_rounds hm !! 0 = Some rm0 ∧ hm_rounds hm !! 1 = Some rm1
        ∧ ls_is_valid (rm_lockset rm0) = true
        ∧ ls_has_quorum (rm_lockset rm0) = Some "x"
        ∧ ls_is_valid (rm_lockset rm1) = true
        ∧ ls_has_quorum (rm_lockset rm1) = Some "x"
        ∧ hm_last_quorum_lockset hm = Raise AssertionError)
  ∧ cm_commit 5 two_quorums = ([], ((cm_log two_quorums).1, Raise AssertionError)).
Proof.
  split; [by vm_compute|]. split; [|by vm_compute].
  do 3 eexists. split_and!; by vm_compute.
Qed.


(** C8.  The height manager of height 3 is at round 0; a voting instruction
    of height 3 and round 1 with a valid lock-set makes [add_proposal]
    assign to the property [round], and the call raises [AttributeError]
    without a proposal being set. *)
Theorem add_proposal_higher_round_raises :
  p_height instruction31 = 3
  ∧ ls_is_valid (p_lockset instruction31) = true
  ∧ (∃ st hm, heights_getitem 3 node = (st, Ok hm) ∧ hm_round hm = 0)
  ∧ (hm_add_proposal 3 instruction31 node).2 = Raise AttributeError
  ∧ proposal_at (hm_add_proposal 3 instruction31 node).1 3 1 = None.
Proof.
  split_and!; try by vm_compute. do 2 eexists. split; by vm_compute.
Qed.
End Defects.

(** ** [add_proposal]: validation *)

Section Validation.
Context `{Base}.

Lemma bind_gets {A B} (f : ConsensusManager → A) (k : A → M B) st :
  bind (gets f) k st = k (f st) st.
Proof. done. Qed.

Lemma bind_ret {A B} (a : A) (k : A → M B) st : bind (ret a) k st = k a st.
Proof. done. Qed.

Lemma bind_lift_Ok {A B} (a : A) (k : A → M B) st : bind (lift (Ok a)) k st = k a st.
Proof. done. Qed.

Lemma bind_check_true {B} p (k : unit → M B) st : bind (check p true) k st = k tt st.
Proof. done. Qed.

Lemma bind_check_false {B} p (k : unit → M B) st :
  bind (check p false) k st = (track (InvalidProposalEvidence p) st, Raise InvalidProposalError).
Proof. done. Qed.

Lemma proposer_Ok c h r : validators c ≠ [] → ∃ a, proposer c h r = Ok a.
Proof.
  intros Hne. unfold proposer. case_decide as Hz.
  { destruct (validators c); [done|simpl in Hz; lia]. }
  destruct (validators c !! _) as [a|] eqn:E; [eauto|].
  apply lookup_ge_None in E.
  pose proof (Z.mod_pos_bound (Z.abs (pyhash h r)) (Z.of_nat (length (validators c)))).
  lia.
Qed.

Lemma isvalidator_Ok c a :
  validators c ≠ [] → isvalidator c a = Ok (bool_decide (a ∈ validators c)).
Proof.
  intros Hne. unfold isvalidator. case_decide as Hz; [|done].
  by destruct (validators c).
Qed.

(** The log leaves everything but the lazily created managers as it is. *)
Lemma cm_log_same st :
  cm_log st = ((cm_log st).1, Ok tt)
  ∧ cm_chainservice (cm_log st).1 = cm_chainservice st
  ∧ cm_contract (cm_log st).1 = cm_contract st
  ∧ cm_block_candidates (cm_log st).1 = cm_block_candidates st
  ∧ cm_tracked_protocol_failures (cm_log st).1 = cm_tracked_protocol_failures st.
Proof.
  unfold cm_log, bind, gets, rounds_getitem, bind, heights_getitem, gets, modify, ret.
  destruct (cm_heights st !! cm_height st) as [hm|] eqn:E; simpl.
  - rewrite E. destruct (hm_rounds hm !! hm_round hm); simpl; done.
  - rewrite lookup_insert_eq. simpl. rewrite lookup_empty. done.
Qed.

Lemma cm_log_height st : cm_height (cm_log st).1 = cm_height st.
Proof.
  unfold cm_height, cm_head. by rewrite (proj1 (proj2 (cm_log_same st))).
Qed.

(** The entry of [add_proposal], up to the ingestion of the votes, when the
    proposal is not of the past. *)
Lemma cm_add_proposal_entry st p :
  validators (cm_contract st) ≠ [] → cm_height st ≤ p_height p →
  cm_add_proposal p st
  = if entry_checks (cm_contract st) p then
      bind (add_votes (votes (p_lockset p)))
        (λ _, match p with
              | PBlock bp =>
                  run! check p (bool_decide (number (bp_block bp) = bp_height bp)) in
                  run! check p (ls_has_noquorum (bp_lockset bp)
                                || bool_decide (bp_round bp = 0)) in
                  let! height' := gets cm_height in
                  if bool_decide (bp_height bp > height') then
                    run! cm_log in ret None
                  else
                    let! cs := gets cm_chainservice in
                    let blk := link_block cs (bp_block bp) in
                    run! check p (bool_decide (is_Some blk)) in
                    match blk with
                    | None => ret None
                    | Some blk =>
                        let bp' := mkBlockProposal (bp_sender bp) (bp_height bp)
                                     (bp_round bp) blk (bp_signing_lockset bp)
                                     (bp_round_lockset bp) in
                        run! cm_add_block_proposal bp' in
                        let! _ := heights_getitem (bp_height bp') in
                        let! is_valid := hm_add_proposal (bp_height bp') (PBlock bp') in
                        ret (Some is_valid)
                    end
              | PInstr vi =>
                  run! check p (bool_decide
                                  (is_Some (ls_has_quorum_possible (vi_lockset vi)))) in
                  let! _ := heights_getitem (vi_height vi) in
                  let! is_valid := hm_add_proposal (vi_height vi) p in
                  ret (Some is_valid)
              end) (cm_log st).1
    else (track (InvalidProposalEvidence p) (cm_log st).1, Raise InvalidProposalError).
Proof.
  intros Hne Hle. unfold cm_add_proposal, entry_checks.
  destruct (cm_log_same st) as (Hlog & Hcs & Hc & _).
  rewrite (bind_Ok _ _ _ _ _ Hlog), bind_gets, cm_log_height.
  rewrite bool_decide_eq_false_2 by lia.
  rewrite bind_gets, Hc, isvalidator_Ok by done. rewrite bind_lift_Ok.
  unfold isproposer. destruct (proposer_Ok (cm_contract st) (p_height p) (p_round p) Hne)
    as [a ->].
  destruct (bool_decide (p_sender p ∈ validators (cm_contract st))); [|reflexivity].
  destruct (bool_decide (p_sender p = a)); [|reflexivity].
  destruct (ls_is_valid (p_lockset p)); [|reflexivity].
  destruct (_ || _); [|reflexivity].
  destruct (_ || _); reflexivity.
Qed.

End Validation.

Section Future.
Context `{Base}.

(** C7, as amended.  A block proposal of a future height that passes the
    checks made before the test of its height, and whose lock-set votes go
    through [add_vote], is dropped: [add_proposal] returns nothing and raises
    nothing, appends no [InvalidProposalEvidence], and leaves the block
    candidates and the proposals of all rounds as they were.  The manager is
    then the one in which [add_vote] has taken each vote of the lock-set. *)
Theorem future_proposal_dropped st bp :
  validators (cm_contract st) ≠ [] →
  bp_height bp > cm_height st →
  entry_checks (cm_contract st) (PBlock bp) = true →
  block_checks bp = true →
  ∀ st1, add_votes (votes (bp_lockset bp)) (cm_log st).1 = (st1, Ok tt) →
    cm_add_proposal (PBlock bp) st = ((cm_log st1).1, Ok None)
    ∧ frame st (cm_log st1).1.
Proof.
  intros Hne Hfut Hentry Hblock st1 Hvotes.
  pose proof (add_votes_frame _ _ _ _ Hvotes) as F1.
  destruct (cm_log_same st) as (Hlog & Hcs & _).
  destruct (cm_log_same st1) as (Hlog1 & _).
  assert (frame st (cm_log st1).1) as F.
  { transitivity (cm_log st).1; [by eapply cm_log_frame|].
    transitivity st1; [done|by eapply cm_log_frame]. }
  split; [|done].
  rewrite cm_add_proposal_entry, Hentry by (simpl; done || lia).
  rewrite (bind_Ok _ _ _ _ _ Hvotes). unfold block_checks in Hblock.
  apply andb_true_iff in Hblock as [-> ->].
  rewrite !bind_check_true, bind_gets.
  assert (cm_height st1 = cm_height st) as ->.
  { unfold cm_height, cm_head. by rewrite (frame_chainservice _ _ F1), Hcs. }
  rewrite bool_decide_eq_true_2 by done.
  by rewrite (bind_Ok _ _ _ _ _ Hlog1).
Qed.
End Future.

Section RejectedExamples.
Import SpecBase Scenario.



(** C7 as stated fails twice over.  A block proposal two heights ahead that
    a validator other than the proposer sent is rejected with evidence and
    an exception; and one that is in order leaves its votes in the lock-set
    of their round, which did not exist before. *)
Lemma future_proposal_changes_state :
  (p_height forged5 > cm_height node
   ∧ (cm_add_proposal forged5 node).2 = Raise InvalidProposalError
   ∧ cm_tracked_protocol_failures (cm_add_proposal forged5 node).1
     = [InvalidProposalEvidence forged5])
  ∧ (p_height future5 > cm_height node
     ∧ the_round 4 0 node = None
     ∧ rm_lockset <$> the_round 4 0 (cm_add_proposal future5 node).1
       = Some signing4
     ∧ cm_heights (cm_add_proposal future5 node).1 ≠ cm_heights node).
Proof. split_and!; by vm_compute. Qed.

(** [future_proposal_dropped] on the proposal of block 5 in order. *)
Lemma future_proposal_dropped_witness :
  (cm_add_proposal future5 node).2 = Ok None
  ∧ frame node (cm_add_proposal future5 node).1.
Proof.
  destruct (future_proposal_dropped node
              (mkBlockProposal "C" 5 0 (mkBlock false 5 "z" "h4") signing4 None))
    with (st1 := (add_votes (votes signing4) (cm_log node).1).1) as [Hrun F];
    [by vm_compute..|].
  fold future5 in Hrun. rewrite Hrun. done.
Defined.
End RejectedExamples.

(** ** A round manager that comes into being

    [sorted(self.rounds)] with one more round is the sorted list with that
    round at its place, so that the scans of the height manager skip a new
    round that has no lock and no valid lock-set. *)

Section NewRound.
Context `{Base}.

Lemma find_app_skip {A} (P : A → bool) (l1 l2 : list A) x :
  P x = false → find P (l1 ++ x :: l2) = find P (l1 ++ l2).
Proof.
  intros Hx. induction l1 as [|y l1 IH]; simpl; [by rewrite Hx|].
  destruct (P y); [done|apply IH].
Qed.

Lemma omap_ext_elem_of {A B} (f g : A → option B) (l : list A) :
  (∀ x, x ∈ l → f x = g x) → omap f l = omap g l.
Proof.
  intros Hfg. apply list_omap_ext, Forall_Forall2_diag, Forall_forall. exact Hfg.
Qed.

Lemma sorted_keys_insert (m : gmap Z RoundManager) r rm :
  m !! r = None →
  ∃ l1 l2,
    merge_sort Z.le (map fst (map_to_list m)) = l1 ++ l2
    ∧ merge_sort Z.le (map fst (map_to_list (<[r := rm]> m))) = l1 ++ r :: l2
    ∧ (r ∉ l1) ∧ (r ∉ l2).
Proof.
  intros Hr.
  set (S := merge_sort Z.le (map fst (map_to_list m))).
  set (S' := merge_sort Z.le (map fst (map_to_list (<[r := rm]> m)))).
  assert (S' ≡ₚ r :: S) as Hperm.
  { unfold S, S'. rewrite !merge_sort_Permutation.
    rewrite (map_to_list_insert m r rm Hr). done. }
  assert (NoDup S') as Hnd.
  { unfold S'. rewrite merge_sort_Permutation. apply NoDup_fst_map_to_list. }
  assert (r ∈ S') as Hin by (rewrite Hperm; apply list_elem_of_here).
  apply list_elem_of_split in Hin as (l1 & l2 & HS').
  exists l1, l2. rewrite HS' in Hperm, Hnd.
  assert (StronglySorted Z.le S') as Hsorted
    by (apply StronglySorted_merge_sort; apply _).
  assert (StronglySorted Z.le S) as HsortedS
    by (apply StronglySorted_merge_sort; apply _).
  rewrite HS' in Hsorted.
  apply NoDup_app in Hnd as (Hnd1 & Hdisj & Hnd2).
  apply NoDup_cons in Hnd2 as [Hr2 Hnd2].
  split_and!; [|done|..].
  - apply (Sorted_unique Z.le); [by apply StronglySorted_Sorted| |].
    + apply StronglySorted_Sorted.
      apply StronglySorted_app in Hsorted as (Hle & Hs1 & Hs2).
      apply StronglySorted_app. split_and!; [|done|by inversion Hs2].
      intros x1 x2 Hx1 Hx2. apply Hle; [done|by apply list_elem_of_further].
    + rewrite <- Permutation_middle in Hperm. by apply Permutation_cons_inv in Hperm.
  - intros Hin. apply (Hdisj r Hin). apply list_elem_of_here.
  - done.
Qed.

Lemma sorted_rounds_new_round hm r rm :
  hm_rounds hm !! r = None →
  ∃ l1 l2, sorted_rounds hm = l1 ++ l2
    ∧ sorted_rounds (set_rounds <[r := rm]> hm) = l1 ++ rm :: l2.
Proof.
  intros Hr. unfold sorted_rounds. simpl.
  destruct (sorted_keys_insert (hm_rounds hm) r rm Hr) as (k1 & k2 & -> & -> & Hk1 & Hk2).
  exists (omap (λ k, hm_rounds hm !! k) k1), (omap (λ k, hm_rounds hm !! k) k2).
  rewrite !omap_app. simpl. rewrite lookup_insert_eq. split; [done|].
  f_equal; [|f_equal]; apply omap_ext_elem_of; intros k Hk;
    rewrite lookup_insert_ne; congruence.
Qed.

Lemma hm_last_lock_new_round hm r rm :
  hm_rounds hm !! r = None → rm_lock rm = None →
  hm_last_lock (set_rounds <[r := rm]> hm) = hm_last_lock hm.
Proof.
  intros Hr Hlock. unfold hm_last_lock.
  destruct (sorted_rounds_new_round hm r rm Hr) as (l1 & l2 & -> & ->).
  rewrite !reverse_app, reverse_cons, <- app_assoc. simpl.
  rewrite find_app_skip; [done|]. by rewrite Hlock.
Qed.

Lemma hm_last_valid_lockset_new_round hm r rm :
  hm_rounds hm !! r = None → ls_is_valid (rm_lockset rm) = false →
  hm_last_valid_lockset (set_rounds <[r := rm]> hm) = hm_last_valid_lockset hm.
Proof.
  intros Hr Hvalid. unfold hm_last_valid_lockset.
  destruct (sorted_rounds_new_round hm r rm Hr) as (l1 & l2 & -> & ->).
  rewrite !reverse_app, reverse_cons, <- app_assoc. simpl.
  by rewrite find_app_skip.
Qed.
End NewRound.

(** ** [vote] *)

Section Vote.
Context `{Base}.

Lemma rounds_getitem_exists h r st self :
  the_round h r st = Some self → rounds_getitem h r st = (st, Ok self).
Proof.
  unfold the_round, rounds_getitem, bind, heights_getitem. intros Hself.
  destruct (cm_heights st !! h) as [hm|]; [|done]. simpl in Hself. by rewrite Hself.
Qed.

Lemma heights_getitem_exists h st hm :
  cm_heights st !! h = Some hm → heights_getitem h st = (st, Ok hm).
Proof. unfold heights_getitem. by intros ->. Qed.


End Vote.

Section VoteExamples.
Import SpecBase Scenario.


End VoteExamples.

(** ** [propose] *)

Section Lazy.
Context `{Base}.

#[global] Instance lazily_extends_preorder : PreOrder lazily_extends.
Proof.
  split.
  - intros st. by split.
  - intros s1 s2 s3 [C1 K1 V1 R1 O1 H1 L1] [C2 K2 V2 R2 O2 H2 L2].
    assert (cm_height s2 = cm_height s1) as Hh
      by (unfold cm_height, cm_head; by rewrite C1).
    rewrite Hh in *. split; try congruence.
    + intros h r rm Hr. by apply R2, R1.
    + intros k Hk. rewrite O2, O1; done.
Qed.

Lemma height_manager_at_new st k k' :
  cm_heights st !! k = None →
  height_manager_at (set_heights <[k := mkHeightManager k ∅]> st) k'
  = height_manager_at st k'.
Proof.
  intros Hk. unfold height_manager_at. simpl.
  destruct (decide (k = k')) as [<-|Hne].
  - by rewrite lookup_insert_eq, Hk.
  - by rewrite lookup_insert_ne.
Qed.

Lemma the_round_new_height st k hm h r rm :
  cm_heights st !! k = None →
  the_round h r st = Some rm → the_round h r (set_heights <[k := hm]> st) = Some rm.
Proof.
  intros Hk. unfold the_round. simpl.
  destruct (decide (k = h)) as [<-|Hne]; [by rewrite Hk|by rewrite lookup_insert_ne].
Qed.

Lemma heights_getitem_value k st st' hm :
  heights_getitem k st = (st', Ok hm) →
  hm = height_manager_at st k ∧ cm_heights st' !! k = Some hm.
Proof.
  unfold heights_getitem, height_manager_at.
  destruct (cm_heights st !! k) eqn:E; intros [= <- <-]; simpl; [done|].
  by rewrite lookup_insert_eq.
Qed.

Lemma heights_getitem_extends k : preserves lazily_extends (heights_getitem k).
Proof.
  intros st st' r. unfold heights_getitem.
  destruct (cm_heights st !! k) eqn:E; intros [= <- _]; [reflexivity|].
  split; try done.
  - intros h r' rm. by apply the_round_new_height.
  - intros k' _. by apply height_manager_at_new.
  - by rewrite height_manager_at_new.
  - by rewrite height_manager_at_new.
Qed.

(** A new round of the current height, with a lock-set that is not valid. *)
Lemma new_round_extends st hm r rm :
  cm_heights st !! cm_height st = Some hm → hm_rounds hm !! r = None →
  ls_is_valid (rm_lockset rm) = false →
  lazily_extends st (set_heights (alter (set_rounds <[r := rm]>) (cm_height st)) st).
Proof.
  intros Hh Hr Hvalid. split; try done.
  - intros h r' rm'. unfold the_round. simpl.
    destruct (decide (cm_height st = h)) as [<-|Hne].
    + rewrite lookup_alter_eq, Hh. simpl. intros Hr'.
      rewrite lookup_insert_ne; [done|congruence].
    + by rewrite lookup_alter_ne.
  - intros k Hk. unfold height_manager_at. simpl. by rewrite lookup_alter_ne.
  - unfold height_manager_at. simpl. by rewrite lookup_alter_eq, Hh.
  - unfold height_manager_at. simpl. rewrite lookup_alter_eq, Hh. simpl.
    by apply hm_last_valid_lockset_new_round.
Qed.

Lemma cm_log_extends st :
  fresh_lockset_not_valid st → lazily_extends st (cm_log st).1.
Proof.
  intros Hfresh. unfold cm_log, bind, gets.
  destruct (heights_getitem (cm_height st) st) as [s1 r1] eqn:E1.
  destruct (heights_getitem_Ok (cm_height st) st) as (s1' & hm & E1').
  rewrite E1 in E1'. injection E1' as <- ->.
  pose proof (heights_getitem_extends _ _ _ _ E1) as X1.
  destruct (heights_getitem_value _ _ _ _ E1) as [Hhm Hs1].
  assert (cm_height s1 = cm_height st) as Hh
    by (unfold cm_height, cm_head; by rewrite (ext_chainservice _ _ X1)).
  unfold rounds_getitem, bind. rewrite (heights_getitem_exists _ _ _ Hs1).
  destruct (hm_rounds hm !! hm_round hm) eqn:Er; simpl; [done|].
  etransitivity; [exact X1|]. rewrite <- Hh.
  apply (new_round_extends s1 hm); [by rewrite Hh|done|].
  simpl. unfold fresh_lockset_not_valid in Hfresh. rewrite <- Hhm in Hfresh.
  unfold cm_mk_lockset in *. by rewrite (ext_contract _ _ X1).
Qed.

Lemma fresh_lockset_extends st st' :
  lazily_extends st st' → fresh_lockset_not_valid st → fresh_lockset_not_valid st'.
Proof.
  intros X. unfold fresh_lockset_not_valid, cm_mk_lockset, cm_height, cm_head.
  rewrite (ext_chainservice _ _ X), (ext_contract _ _ X).
  pose proof (ext_height _ _ X) as Hh. unfold cm_height, cm_head in Hh. by rewrite Hh.
Qed.

Lemma last_committing_lockset_extends st st' :
  lazily_extends st st' → last_committing_lockset st' = last_committing_lockset st.
Proof.
  intros X. unfold last_committing_lockset, cm_height, cm_head.
  rewrite (ext_chainservice _ _ X).
  rewrite (ext_other _ _ X); [done|]. unfold cm_height, cm_head. lia.
Qed.

Lemma last_valid_lockset_extends st st' :
  lazily_extends st st' → last_valid_lockset st' = last_valid_lockset st.
Proof.
  intros X. unfold last_valid_lockset.
  rewrite (last_committing_lockset_extends _ _ X).
  pose proof (ext_valid _ _ X) as Hv.
  unfold cm_height, cm_head in *. rewrite (ext_chainservice _ _ X). by rewrite Hv.
Qed.

Lemma cm_last_committing_lockset_run st :
  ∃ st', cm_last_committing_lockset st = (st', last_committing_lockset st)
    ∧ lazily_extends st st'.
Proof.
  unfold cm_last_committing_lockset. rewrite bind_gets.
  destruct (heights_getitem_Ok (cm_height st - 1) st) as (s1 & hm & E1).
  rewrite (bind_Ok _ _ _ _ _ E1).
  destruct (heights_getitem_value _ _ _ _ E1) as [-> _].
  exists s1. split; [done|]. by eapply heights_getitem_extends.
Qed.

Lemma cm_last_valid_lockset_run st :
  ∃ st', cm_last_valid_lockset st = (st', last_valid_lockset st)
    ∧ lazily_extends st st'.
Proof.
  unfold cm_last_valid_lockset, last_valid_lockset. rewrite bind_gets.
  destruct (heights_getitem_Ok (cm_height st) st) as (s1 & hm & E1).
  rewrite (bind_Ok _ _ _ _ _ E1).
  destruct (heights_getitem_value _ _ _ _ E1) as [-> _].
  pose proof (heights_getitem_extends _ _ _ _ E1) as X1.
  destruct (cm_last_committing_lockset_run s1) as (s2 & E2 & X2).
  rewrite (last_committing_lockset_extends _ _ X1) in E2.
  destruct (hm_last_valid_lockset _) as [ls|].
  - destruct (ls_bool ls); [by exists s1|].
    exists s2. split; [done|by etransitivity].
  - exists s2. split; [done|by etransitivity].
Qed.

Lemma quorum_scan_found found rms ls :
  quorum_scan found rms = Ok (Some ls) →
  found = Some ls
  ∨ ls_is_valid ls = true ∧ is_Some (ls_has_quorum ls).
Proof.
  revert found. induction rms as [|rm rms IH]; intros found; simpl.
  { intros [= ->]. by left. }
  destruct (ls_is_valid (rm_lockset rm)) eqn:Ev; simpl; [|apply IH].
  case_bool_decide as Hq; [|apply IH].
  destruct found; [done|]. intros Hscan.
  destruct (IH _ Hscan) as [[= <-]|?]; [|by right]. by right.
Qed.

Lemma last_committing_lockset_has_quorum st ls :
  last_committing_lockset st = Ok (Some ls) → is_Some (ls_has_quorum ls).
Proof.
  unfold last_committing_lockset, hm_last_quorum_lockset. intros Hscan.
  by destruct (quorum_scan_found _ _ _ Hscan) as [?|[_ ?]].
Qed.
End Lazy.

Lemma bind_assert {B} b (k : unit → M B) st :
  bind (assert_ b) k st = if b then k tt st else (st, Raise AssertionError).
Proof. by destruct b. Qed.

Lemma bind_not_None {A B} (x : option A) (k : A → M B) st :
  bind (not_None x) k st
  = match x with Some a => k a st | None => (st, Raise AttributeError) end.
Proof. by destruct x. Qed.

Lemma bind_assoc {A B C} (m : M A) (f : A → M B) (k : B → M C) st :
  bind (bind m f) k st = bind m (λ x, bind (f x) k) st.
Proof. unfold bind. by destruct (m st) as [s [a|e]]. Qed.

(** Steps of a computation whose outcome is known. *)
Ltac msimpl :=
  repeat (first [rewrite bind_ret | rewrite bind_gets | rewrite bind_lift_Ok
                | rewrite bind_assert | rewrite bind_not_None];
          cbv beta iota).

Section Propose.
Context `{Base}.

Lemma proposal_at_set_proposal st h r rm p :
  the_round h r st = Some rm →
  proposal_at (update_round h r (set_proposal p) st) h r = p.
Proof.
  unfold proposal_at, the_round, update_round. simpl. intros Hr.
  rewrite lookup_alter_eq. destruct (cm_heights st !! h) as [hm|]; [|done].
  simpl in *. rewrite lookup_alter_eq, Hr. done.
Qed.

(** What [mk_proposal] returns, from the two lock-sets it reads. *)
Lemma rm_mk_proposal_run st h r self :
  the_round h r st = Some self →
  ∃ st', lazily_extends st st'
    ∧ rm_mk_proposal h r st
      = (st',
         match last_committing_lockset st with
         | Raise e => Raise e
         | Ok None => Raise AttributeError
         | Ok (Some lcl) =>
             if bool_decide (rm_round self > 0) then
               match last_valid_lockset st with
               | Raise e => Raise e
               | Ok None => Raise AttributeError
               | Ok (Some lvl) =>
                   if ls_has_noquorum lvl then
                     Ok (mkBlockProposal (privtoaddr (cm_privkey st)) (rm_height self)
                           (rm_round self) (head_candidate (cm_chainservice st))
                           (copy lcl) (Some (copy lvl)))
                   else Raise AssertionError
               end
             else
               Ok (mkBlockProposal (privtoaddr (cm_privkey st)) (rm_height self)
                     (rm_round self) (head_candidate (cm_chainservice st))
                     (copy lcl) None)
         end).
Proof.
  intros Hself. unfold rm_mk_proposal.
  rewrite (bind_Ok _ _ _ _ _ (rounds_getitem_exists _ _ _ _ Hself)).
  destruct (cm_last_committing_lockset_run st) as (s1 & E1 & X1).
  destruct (last_committing_lockset st) as [[lcl|]|e] eqn:Elcl;
    [|rewrite (bind_Ok _ _ _ _ _ E1); by exists s1
     |rewrite (bind_Raise _ _ _ _ _ E1); by exists s1].
  rewrite (bind_Ok _ _ _ _ _ E1). msimpl.
  pose proof (last_committing_lockset_has_quorum _ _ Elcl) as Hq.
  case_bool_decide as Hround; cbv beta iota.
  - destruct (cm_last_valid_lockset_run s1) as (s2 & E2 & X2).
    rewrite (last_valid_lockset_extends _ _ X1) in E2.
    assert (lazily_extends st s2) as X by (by etransitivity).
    unfold bind at 1. unfold bind at 1.
    destruct (last_valid_lockset st) as [[lvl|]|e] eqn:Elvl; rewrite E2;
      [|by exists s2..].
    msimpl. unfold copy at 1.
    destruct (ls_has_noquorum lvl); cbv beta iota; [|by exists s2].
    exists s2. split; [done|]. unfold copy at 1.
    rewrite (bool_decide_eq_true_2 _ Hq).
    unfold bind, ret, gets, assert_, sign_bp. simpl.
    by rewrite (ext_privkey _ _ X), (ext_chainservice _ _ X).
  - exists s1. split; [done|]. unfold copy at 1.
    rewrite (bool_decide_eq_true_2 _ Hq).
    unfold bind, ret, gets, assert_, sign_bp. simpl.
    by rewrite (ext_privkey _ _ X1), (ext_chainservice _ _ X1).
Qed.

(** What [propose] returns, and the proposal it leaves in the round. *)
Lemma rm_propose_run st h r self :
  the_round h r st = Some self →
  fresh_lockset_not_valid st →
  ∃ st' res, rm_propose h r st = (st', res)
    ∧ (∀ p, res = Ok (Some p) → proposal_at st' h r = Some p)
    ∧ res =
       match proposer (cm_contract st) (rm_height self) (rm_round self) with
       | Raise e => Raise e
       | Ok a =>
           if negb (bool_decide (a = cm_coinbase st)) then Ok None
           else match rm_proposal self with
           | Some q =>
               if bool_decide (p_sender q = cm_coinbase st)
               then if bool_decide (is_Some (rm_lock self))
                    then Ok None else Raise AssertionError
               else Raise AssertionError
           | None =>
               match last_valid_lockset st with
               | Raise e => Raise e
               | Ok lvl =>
                   let block_proposal :=
                     match last_committing_lockset st with
                     | Raise e => Raise e
                     | Ok None => Raise AttributeError
                     | Ok (Some lcl) =>
                         if bool_decide (rm_round self > 0) then
                           match lvl with
                           | None => Raise AttributeError
                           | Some lvl =>
                               if ls_has_noquorum lvl
                               then Ok (Some (block_proposal_of st self lcl lvl))
                               else Raise AssertionError
                           end
                         else Ok (Some (block_proposal_of st self lcl lcl))
                     end in
                   if bool_decide (rm_round self = 0) then block_proposal
                   else match lvl with
                   | None => Raise AttributeError
                   | Some lvl =>
                       if ls_has_noquorum lvl then block_proposal
                       else if bool_decide (is_Some (ls_has_quorum_possible lvl))
                       then Ok (Some (voting_instruction_of st self lvl))
                       else Raise InvalidRoundLockset
                   end
               end
           end
       end.
Proof.
  intros Hself Hfresh. unfold rm_propose.
  rewrite (bind_Ok _ _ _ _ _ (rounds_getitem_exists _ _ _ _ Hself)). msimpl.
  destruct (proposer _ _ _) as [a|e]; [|by eexists _, _]. msimpl.
  destruct (cm_log_same st) as (Hlog & _).
  pose proof (cm_log_extends st Hfresh) as X1.
  rewrite (bind_Ok _ _ _ _ _ Hlog). msimpl.
  replace (cm_coinbase (cm_log st).1) with (cm_coinbase st)
    by (unfold cm_coinbase; by rewrite (ext_chainservice _ _ X1)).
  destruct (negb _); [by eexists _, _|].
  destruct (rm_proposal self) as [q|].
  { msimpl. destruct (bool_decide (p_sender q = _)); [|by eexists _, _].
    msimpl. destruct (bool_decide (is_Some _)); by eexists _, _. }
  destruct (cm_last_valid_lockset_run (cm_log st).1) as (s2 & E2 & X2).
  rewrite (last_valid_lockset_extends _ _ X1) in E2.
  assert (lazily_extends st s2) as X02 by (by etransitivity).
  destruct (last_valid_lockset st) as [lvl|e] eqn:Elvl;
    [|rewrite (bind_Raise _ _ _ _ _ E2); by eexists _, _].
  rewrite (bind_Ok _ _ _ _ _ E2).
  destruct (cm_log_same s2) as (Hlog2 & _).
  pose proof (cm_log_extends s2 (fresh_lockset_extends _ _ X02 Hfresh)) as X3.
  rewrite (bind_Ok _ _ _ _ _ Hlog2).
  set (s3 := (cm_log s2).1) in *.
  assert (lazily_extends st s3) as X03 by (by etransitivity).
  pose proof (ext_rounds _ _ X03 _ _ _ Hself) as Hself3.
  destruct (rm_mk_proposal_run s3 h r self Hself3) as (s4 & X4 & Emk).
  rewrite (last_committing_lockset_extends _ _ X03),
    (last_valid_lockset_extends _ _ X03), Elvl in Emk.
  rewrite (ext_privkey _ _ X03), (ext_chainservice _ _ X03) in Emk.
  assert (lazily_extends st s4) as X04 by (by etransitivity).
  (* the last steps: log, then the proposal is set *)
  assert (∀ s p, lazily_extends st s →
            ∃ st', (run! cm_log in
                    run! modify (update_round h r (set_proposal (Some p))) in
                    ret (Some p)) s = (st', Ok (Some p))
                   ∧ proposal_at st' h r = Some p) as Hlast.
  { intros s p Xs. destruct (cm_log_same s) as (Hl & _).
    rewrite (bind_Ok _ _ _ _ _ Hl). eexists. split; [reflexivity|].
    pose proof (cm_log_extends s (fresh_lockset_extends _ _ Xs Hfresh)) as Xl.
    eapply proposal_at_set_proposal.
    apply (ext_rounds _ _ Xl), (ext_rounds _ _ Xs), Hself. }
  set (mkres := match last_committing_lockset st with
                | Ok (Some _) => _ | Ok None => _ | Raise _ => _ end) in Emk.
  assert (∃ st' res,
            (let! proposal := (let! bp := rm_mk_proposal h r in ret (PBlock bp)) in
             run! cm_log in
             run! modify (update_round h r (set_proposal (Some proposal))) in
             ret (Some proposal)) s3 = (st', res)
            ∧ (∀ p, res = Ok (Some p) → proposal_at st' h r = Some p)
            ∧ res = match mkres with
                    | Ok bp => Ok (Some (PBlock bp))
                    | Raise e => Raise e
                    end) as (st' & res & Hrun & Hat & Hres).
  { unfold bind at 1. unfold bind at 1. rewrite Emk. destruct mkres as [bp|e].
    - unfold ret at 1. destruct (Hlast s4 (PBlock bp) X04) as (st' & Erun & Hp).
      rewrite Erun. exists st', (Ok (Some (PBlock bp))). split_and!; [done| |done].
      by intros p [= <-].
    - by exists s4, (Raise e). }
  subst mkres.
  destruct (decide (rm_round self = 0)) as [Hr0|Hr0];
    [rewrite !(bool_decide_eq_true_2 _ Hr0)|rewrite !(bool_decide_eq_false_2 _ Hr0)];
    cbv beta iota.
  - msimpl. exists st', res. split_and!; [done..|].
    rewrite Hres, bool_decide_eq_false_2 by lia.
    destruct (last_committing_lockset st) as [[lcl|]|e]; [|done..].
    unfold block_proposal_of. by rewrite bool_decide_eq_false_2 by lia.
  - rewrite bind_assoc. destruct lvl as [lvl|]; msimpl; [|by eexists _, _].
    destruct (ls_has_noquorum lvl) eqn:Enq; cbv beta iota.
    + exists st', res. split_and!; [done..|]. rewrite Hres.
      destruct (last_committing_lockset st) as [[lcl|]|e]; [|done..].
      unfold block_proposal_of. by case_bool_decide.
    + rewrite bind_assoc. msimpl.
      destruct (bool_decide (is_Some (ls_has_quorum_possible lvl)));
        cbv beta iota; [|by eexists _, _].
      rewrite bind_assoc. msimpl.
      destruct (Hlast s3 (PInstr (sign_vi s3 (mkVotingInstruction no_sender (rm_height self)
                  (rm_round self) (copy lvl)))) X03) as (st'' & Erun & Hp).
      rewrite Erun. eexists _, _. split_and!; [done| |].
      * by intros p [= <-].
      * unfold voting_instruction_of, sign_vi. simpl.
        by rewrite (ext_privkey _ _ X03).
Qed.
End Propose.

Section ProposeStatement.
Context `{Base}.

Lemma block_proposal_of_round0 st self lcl lvl lvl' :
  ¬ rm_round self > 0 →
  block_proposal_of st self lcl lvl = block_proposal_of st self lcl lvl'.
Proof. intros Hr. unfold block_proposal_of. by rewrite !bool_decide_eq_false_2. Qed.

(** C6.  In a manager whose new lock-sets are not valid, [propose] on the
    round manager at (h, r) returns a proposal only when the contract elects
    this validator for the round and the round has no proposal yet, and the
    proposal is then the one of the round.  It is a [BlockProposal] on the
    head candidate, with a copy of the last committing lock-set as signing
    lock-set and, for a round above 0, a copy of the last valid lock-set as
    round lock-set, when the round is 0 or the last valid lock-set has no
    quorum; otherwise it is a [VotingInstruction] with a copy of the last
    valid lock-set, which then has a possible quorum.  Conversely [propose]
    does return these proposals in these cases. *)
Theorem propose_produces st h r self :
  the_round h r st = Some self →
  fresh_lockset_not_valid st →
  (∀ st' p, rm_propose h r st = (st', Ok (Some p)) →
     proposer (cm_contract st) (rm_height self) (rm_round self) = Ok (cm_coinbase st)
     ∧ rm_proposal self = None
     ∧ proposal_at st' h r = Some p
     ∧ ∃ lvl, last_valid_lockset st = Ok (Some lvl)
         ∧ ((rm_round self = 0 ∨ ls_has_noquorum lvl = true)
            ∧ (∃ lcl, last_committing_lockset st = Ok (Some lcl)
                 ∧ p = block_proposal_of st self lcl lvl)
            ∨ rm_round self ≠ 0 ∧ ls_has_noquorum lvl = false
              ∧ is_Some (ls_has_quorum_possible lvl)
              ∧ p = voting_instruction_of st self lvl))
  ∧ (proposer (cm_contract st) (rm_height self) (rm_round self) = Ok (cm_coinbase st) →
     rm_proposal self = None →
     ∀ lvl, last_valid_lockset st = Ok (Some lvl) →
       (rm_round self = 0 ∨ ls_has_noquorum lvl = true →
        ∀ lcl, last_committing_lockset st = Ok (Some lcl) →
          ∃ st', rm_propose h r st
                 = (st', Ok (Some (block_proposal_of st self lcl lvl))))
       ∧ (rm_round self ≠ 0 → ls_has_noquorum lvl = false →
          is_Some (ls_has_quorum_possible lvl) →
          ∃ st', rm_propose h r st
                 = (st', Ok (Some (voting_instruction_of st self lvl))))).
Proof.
  intros Hself Hfresh.
  destruct (rm_propose_run st h r self Hself Hfresh) as (st0 & res & Hrun & Hat & Hres).
  split.
  - intros st' p Hp. rewrite Hrun in Hp. injection Hp as -> ->.
    destruct (proposer _ _ _) as [a|e]; [|done].
    destruct (bool_decide (a = cm_coinbase st)) eqn:Ea; simpl in Hres; [|done].
    apply bool_decide_eq_true in Ea as ->. split; [done|].
    destruct (rm_proposal self) as [q|].
    { by repeat destruct (bool_decide _). }
    split; [done|]. split; [by apply Hat|].
    assert (∀ lcl lvl, last_committing_lockset st = Ok (Some lcl) →
              last_valid_lockset st = Ok lvl → is_Some lvl) as Hsome.
    { intros lcl lvl Hlcl. unfold last_valid_lockset. rewrite Hlcl.
      destruct (hm_last_valid_lockset _) as [ls|]; [destruct (ls_bool ls)|];
        by intros [= <-]. }
    destruct (last_valid_lockset st) as [lvl|e] eqn:Elvl; [|done].
    cbv zeta in Hres.
    destruct (decide (rm_round self = 0)) as [Hr0|Hr0].
    + rewrite (bool_decide_eq_true_2 _ Hr0) in Hres.
      destruct (last_committing_lockset st) as [[lcl|]|e] eqn:Elcl; [|done..].
      destruct (Hsome lcl lvl eq_refl eq_refl) as [lvl' ->].
      rewrite bool_decide_eq_false_2 in Hres by lia. injection Hres as ->.
      exists lvl'. split; [done|]. left. split; [by left|].
      exists lcl. split; [done|]. apply block_proposal_of_round0. lia.
    + rewrite (bool_decide_eq_false_2 _ Hr0) in Hres.
      destruct lvl as [lvl|]; [|done]. exists lvl. split; [done|].
      destruct (ls_has_noquorum lvl) eqn:Enq.
      * left. split; [by right|].
        destruct (last_committing_lockset st) as [[lcl|]|e] eqn:Elcl; [|done..].
        exists lcl. split; [done|]. case_bool_decide; injection Hres as ->; [done|].
        by apply block_proposal_of_round0.
      * right. case_bool_decide; [|done]. injection Hres as ->. done.
  - intros Hprop Hnone lvl Hlvl. rewrite Hprop, Hnone, Hlvl in Hres.
    rewrite bool_decide_eq_true_2 in Hres by done. simpl in Hres.
    split.
    + intros Hcase lcl Hlcl. rewrite Hlcl in Hres. exists st0. rewrite Hrun.
      do 2 f_equal. rewrite Hres.
      destruct (decide (rm_round self = 0)) as [Hr0|Hr0].
      * rewrite (bool_decide_eq_true_2 _ Hr0), bool_decide_eq_false_2 by lia.
        do 2 f_equal. apply block_proposal_of_round0. lia.
      * rewrite (bool_decide_eq_false_2 _ Hr0).
        destruct Hcase as [Hc|Hc]; [done|]. rewrite Hc.
        destruct (decide (rm_round self > 0)) as [Hpos|Hpos].
        -- by rewrite (bool_decide_eq_true_2 _ Hpos).
        -- rewrite (bool_decide_eq_false_2 _ Hpos). do 2 f_equal.
           by apply block_proposal_of_round0.
    + intros Hr0 Hnq Hqp. exists st0. rewrite Hrun. do 2 f_equal. rewrite Hres.
      rewrite (bool_decide_eq_false_2 _ Hr0), Hnq.
      by rewrite bool_decide_eq_true_2.
Qed.
End ProposeStatement.

Section ProposeExamples.
Import SpecBase Scenario.

(** [propose_produces] at work: a block proposal at (4, 0) once block 3 is
    committed, and a voting instruction at (3, 2) after round 1 ended with a
    possible quorum. *)
Lemma propose_produces_witness :
  (∃ st', rm_propose 4 0 committed
          = (st', Ok (Some (block_proposal_of committed (round_of committed 4 0)
                              quorum30 quorum30))))
  ∧ (∃ st', rm_propose 3 2 round1_over
            = (st', Ok (Some (voting_instruction_of round1_over
                                (round_of round1_over 3 2) lockset31)))).
Proof.
  split.
  - destruct (propose_produces committed 4 0 (round_of committed 4 0))
      as [_ Hprod]; [by vm_compute..|].
    destruct (Hprod ltac:(by vm_compute) ltac:(by vm_compute) quorum30
                ltac:(by vm_compute)) as [Hblock _].
    apply Hblock; [left|]; by vm_compute.
  - destruct (propose_produces round1_over 3 2 (round_of round1_over 3 2))
      as [_ Hprod]; [by vm_compute..|].
    destruct (Hprod ltac:(by vm_compute) ltac:(by vm_compute) lockset31
                ltac:(by vm_compute)) as [_ Hinstr].
    apply Hinstr; [by vm_compute|by vm_compute|vm_compute; by eexists].
Defined.
End ProposeExamples.

(** ** [add_proposal], twice *)

Section Twice.
Context `{Base}.

Lemma proposal_at_update_round_other st f h r h' r' :
  (h, r) ≠ (h', r') →
  proposal_at (update_round h r f st) h' r' = proposal_at st h' r'.
Proof.
  intros Hne. unfold proposal_at, the_round, update_round. simpl.
  destruct (decide (h = h')) as [<-|Hh]; [|by rewrite lookup_alter_ne].
  rewrite lookup_alter_eq. destruct (cm_heights st !! h) as [hm|]; [|done]. simpl.
  rewrite lookup_alter_ne; [done|]. congruence.
Qed.

(** Setting the proposal that a round already has changes no proposal. *)
Lemma frame_set_same_proposal st h r p :
  proposal_at st h r = Some p →
  frame st (update_round h r (set_proposal (Some p)) st).
Proof.
  intros Hp. split; try done.
  - intros h' r'. destruct (decide ((h, r) = (h', r'))) as [[= <- <-]|Hne].
    + rewrite Hp. unfold proposal_at in Hp.
      destruct (the_round h r st) as [rm|] eqn:Er; [|done].
      by erewrite proposal_at_set_proposal.
    + by apply proposal_at_update_round_other.
  - exists []. by rewrite app_nil_r.
Qed.

Lemma rounds_getitem_present h r st st' rm :
  rounds_getitem h r st = (st', Ok rm) → the_round h r st' = Some rm.
Proof.
  unfold rounds_getitem. intros Hrun.
  apply bind_Ok_inv in Hrun as (hm & s & Hget & Hrun).
  apply heights_getitem_present in Hget. unfold the_round.
  destruct (hm_rounds hm !! r) as [x|] eqn:Er.
  - injection Hrun as <- <-. by rewrite Hget.
  - unfold bind, gets, modify, ret in Hrun. injection Hrun as <- <-. simpl.
    rewrite lookup_alter_eq, Hget. simpl. by rewrite lookup_insert_eq.
Qed.

Lemma frame_same_outside st st' :
  frame st st' →
  cm_chainservice st' = cm_chainservice st ∧ cm_contract st' = cm_contract st
  ∧ cm_block_candidates st' = cm_block_candidates st.
Proof. by intros [? ? ? ? _ _]. Qed.

(** [RoundManager.add_proposal]: what a call that returns leaves, and what a
    call on a round that has the proposal already leaves. *)
Lemma rm_add_proposal_post h r p st st' b :
  rm_add_proposal h r p st = (st', Ok b) →
  proposal_at st' h r = Some p
  ∧ cm_chainservice st' = cm_chainservice st ∧ cm_contract st' = cm_contract st
  ∧ cm_block_candidates st' = cm_block_candidates st.
Proof.
  unfold rm_add_proposal. intros Hrun.
  apply bind_Ok_inv in Hrun as ([] & s1 & Hlog & Hrun).
  apply bind_Ok_inv in Hrun as (self & s2 & Hself & Hrun).
  apply bind_Ok_inv in Hrun as ([] & s3 & Ha1 & Hrun).
  apply bind_Ok_inv in Hrun as ([] & s4 & Ha2 & Hrun).
  assert (s3 = s2) as -> by (destruct (match p with PInstr _ => _ | _ => _ end);
                             by injection Ha1).
  assert (s4 = s2) as -> by (destruct (match rm_proposal self with Some _ => _ | _ => _ end);
                             by injection Ha2).
  unfold bind, modify, ret in Hrun. injection Hrun as <- _.
  pose proof (cm_log_frame _ _ _ Hlog) as F1.
  pose proof (rounds_getitem_frame _ _ _ _ _ Hself) as F2.
  apply rounds_getitem_present in Hself.
  split; [by eapply proposal_at_set_proposal|]. simpl.
  destruct (frame_same_outside _ _ F2) as (-> & -> & ->).
  by destruct (frame_same_outside _ _ F1) as (-> & -> & ->).
Qed.


(** The same for [HeightManager.add_proposal]. *)
Lemma hm_add_proposal_post h p st st' b :
  hm_add_proposal h p st = (st', Ok b) →
  proposal_at st' h (p_round p) = Some p
  ∧ cm_chainservice st' = cm_chainservice st ∧ cm_contract st' = cm_contract st
  ∧ cm_block_candidates st' = cm_block_candidates st.
Proof.
  unfold hm_add_proposal. intros Hrun.
  apply bind_Ok_inv in Hrun as (self & s1 & Hget & Hrun).
  pose proof (heights_getitem_frame _ _ _ _ Hget) as F1.
  rewrite !bind_assert in Hrun.
  destruct (bool_decide (p_height p = hm_height self)); [|done].
  destruct (ls_is_valid (p_lockset p)); [|done].
  destruct (bool_decide (p_round p > hm_round self)); [done|].
  rewrite bind_ret in Hrun.
  apply bind_Ok_inv in Hrun as (rm & s2 & Hrm & Hrun).
  pose proof (rounds_getitem_frame _ _ _ _ _ Hrm) as F2.
  apply rm_add_proposal_post in Hrun as (Hp & -> & -> & ->).
  split; [done|].
  destruct (frame_same_outside _ _ F2) as (-> & -> & ->).
  by destruct (frame_same_outside _ _ F1) as (-> & -> & ->).
Qed.

End Twice.

Section TwiceStatement.
Context `{Base}.

(** [add_block_proposal]: a call that returns has found the proposal stored
    or has made it a candidate; a call on a proposal that is stored or is a
    candidate already changes neither candidates nor proposals. *)
Lemma cm_add_block_proposal_post bp st st' :
  cm_add_block_proposal bp st = (st', Ok tt) →
  cm_chainservice st' = cm_chainservice st ∧ cm_contract st' = cm_contract st
  ∧ (cm_has_blockproposal st (bp_blockhash bp) = true
     ∨ cm_block_candidates st' !! bp_blockhash bp = Some bp).
Proof.
  unfold cm_add_block_proposal. rewrite bind_gets. intros Hrun.
  destruct (cm_has_blockproposal st (bp_blockhash bp)) eqn:Ek.
  - pose proof (cm_log_frame _ _ _ Hrun) as F.
    destruct (frame_same_outside _ _ F) as (-> & -> & _). auto.
  - rewrite !bind_assert in Hrun.
    destruct (bool_decide (is_Some _)); [|done].
    destruct (bool_decide (ls_height _ = _)); [|done].
    apply bind_Ok_inv in Hrun as ([] & s1 & Hvotes & Hrun).
    injection Hrun as <-. simpl.
    destruct (frame_same_outside _ _ (add_votes_frame _ _ _ _ Hvotes)) as (-> & -> & _).
    split_and!; [done..|]. right. apply lookup_insert_eq.
Qed.



Lemma has_blockproposal_same st st' k :
  cm_chainservice st' = cm_chainservice st →
  cm_has_blockproposal st' k = cm_has_blockproposal st k.
Proof. unfold cm_has_blockproposal. by intros ->. Qed.

End TwiceStatement.

Section TwiceExamples.
Import SpecBase Scenario.


End TwiceExamples.

(** ** The three defects, for every lock-set algebra *)

Section DefectsInGeneral.
Context `{Base}.

Lemma quorum_scan_after_found ls rms rm :
  rm ∈ rms → quorate rm = true →
  quorum_scan (Some ls) rms = Raise AssertionError.
Proof.
  intros Hin Hq. induction rms as [|x rms IH]; [by apply elem_of_nil in Hin|].
  simpl. apply elem_of_cons in Hin as [<-|Hin].
  - unfold quorate in Hq. by rewrite Hq.
  - destruct (_ && _); [done|by apply IH].
Qed.

Lemma quorum_scan_two found l1 rm1 l2 rm2 :
  quorate rm1 = true → rm2 ∈ l2 → quorate rm2 = true →
  quorum_scan found (l1 ++ rm1 :: l2) = Raise AssertionError.
Proof.
  intros Hq1 Hin Hq2. revert found. induction l1 as [|x l1 IH]; intros found; simpl.
  - unfold quorate in Hq1. rewrite Hq1.
    destruct found; [done|]. by eapply quorum_scan_after_found.
  - destruct (_ && _); [destruct found; [done|]|]; apply IH.
Qed.

(** Two rounds of a height whose lock-sets are valid and have a quorum make
    [last_quorum_lockset] fail its assertion. *)
Lemma last_quorum_lockset_two_quorums hm r1 r2 rm1 rm2 :
  r1 ≠ r2 →
  hm_rounds hm !! r1 = Some rm1 → hm_rounds hm !! r2 = Some rm2 →
  quorate rm1 = true → quorate rm2 = true →
  hm_last_quorum_lockset hm = Raise AssertionError.
Proof.
  intros Hne Hr1 Hr2 Hq1 Hq2. unfold hm_last_quorum_lockset, sorted_rounds.
  set (keys := merge_sort Z.le (map fst (map_to_list (hm_rounds hm)))).
  assert (∀ r rm, hm_rounds hm !! r = Some rm → r ∈ keys) as Hkeys.
  { intros r rm Hr. unfold keys. rewrite merge_sort_Permutation.
    apply list_elem_of_fmap. exists (r, rm). split; [done|].
    by apply elem_of_map_to_list. }
  destruct (list_elem_of_split _ _ (Hkeys _ _ Hr1)) as (a & b & Hsplit).
  pose proof (Hkeys _ _ Hr2) as Hin2. rewrite Hsplit in Hin2 |- *.
  apply elem_of_app in Hin2 as [Hin2|Hin2].
  - apply list_elem_of_split in Hin2 as (a1 & a2 & ->).
    rewrite <- app_assoc. simpl. rewrite omap_app. simpl. rewrite Hr2.
    apply quorum_scan_two with (rm2 := rm1); [done| |done].
    apply list_elem_of_omap. exists r1. split; [|done].
    apply elem_of_app. right. apply list_elem_of_here.
  - apply elem_of_cons in Hin2 as [?|Hin2]; [congruence|].
    rewrite omap_app. simpl. rewrite Hr1.
    apply quorum_scan_two with (rm2 := rm2); [done| |done].
    apply list_elem_of_omap. by exists r2.
Qed.

(** When the lock-set of the round raises [DoubleVotingError], [add_vote]
    raises [UnboundLocalError]. *)
Lemma cm_add_vote_double_voting v st st' :
  isvalidator (cm_contract st) (v_sender v) = Ok true →
  (let! _ := heights_getitem (v_height v) in
   hm_add_vote (v_height v) v (bool_decide (v_sender v = cm_coinbase st))) st
  = (st', Raise DoubleVotingError) →
  ∃ st'', cm_add_vote v st = (st'', Raise UnboundLocalError)
    ∧ ∃ ref, cm_tracked_protocol_failures st''
             = cm_tracked_protocol_failures st' ++ [DoubleVotingEvidence v ref].
Proof.
  intros Hval Hdouble. unfold cm_add_vote. rewrite bind_gets, Hval. msimpl.
  unfold bind at 1, try_ at 1. rewrite Hdouble.
  destruct (rounds_getitem (v_height v) (v_round v) st') as [s r] eqn:Er.
  pose proof (rounds_getitem_frame _ _ _ _ _ Er) as F.
  assert (∃ rm, r = Ok rm ∧ cm_tracked_protocol_failures s
                             = cm_tracked_protocol_failures st') as (rm & -> & Hev).
  { unfold rounds_getitem, bind, heights_getitem, gets, modify, ret in Er.
    destruct (cm_heights st' !! v_height v) as [hm|]; simpl in Er.
    - destruct (hm_rounds hm !! v_round v); injection Er as <- <-; eauto.
    - rewrite lookup_empty in Er. injection Er as <- <-. eauto. }
  rewrite (bind_Ok _ _ _ _ _ Er). eexists. split; [done|]. simpl.
  rewrite Hev. eauto.
Qed.

(** A proposal of a round above the round of its height manager makes
    [add_proposal] raise [AttributeError]. *)
Lemma hm_add_proposal_higher_round st h p hm :
  cm_heights st !! h = Some hm →
  p_height p = hm_height hm → ls_is_valid (p_lockset p) = true →
  p_round p > hm_round hm →
  hm_add_proposal h p st = (st, Raise AttributeError).
Proof.
  intros Hh Hheight Hvalid Hround. unfold hm_add_proposal.
  rewrite (bind_Ok _ _ _ _ _ (heights_getitem_exists _ _ _ Hh)). msimpl.
  rewrite !bool_decide_eq_true_2, Hvalid by done. done.
Qed.
End DefectsInGeneral.

(** ** The scans of a height manager *)

Section Scans.
Context `{Base}.

Lemma find_reverse_Some {A} (P : A → bool) (l : list A) x :
  find P (reverse l) = Some x
  ↔ ∃ l1 l2, l = l1 ++ x :: l2 ∧ P x = true ∧ Forall (λ y, P y = false) l2.
Proof.
  induction l as [|y l IH] using rev_ind.
  { split; [done|]. intros (l1 & l2 & Hl & _). by destruct l1. }
  rewrite reverse_app. simpl. destruct (P y) eqn:Hy.
  - split.
    + intros [= <-]. exists l, []. by split_and!.
    + intros (l1 & l2 & Hl & Hx & Hl2).
      destruct l2 as [|z l2 _] using rev_ind.
      * apply app_inj_tail in Hl as [_ ->]. done.
      * rewrite app_comm_cons, app_assoc in Hl. apply app_inj_tail in Hl as [_ <-].
        apply Forall_app in Hl2 as [_ Hz]. rewrite Forall_singleton in Hz. congruence.
  - rewrite IH. split.
    + intros (l1 & l2 & -> & Hx & Hl2). exists l1, (l2 ++ [y]).
      rewrite <- app_assoc. split_and!; [done..|].
      apply Forall_app. split; [done|by apply Forall_singleton].
    + intros (l1 & l2 & Hl & Hx & Hl2).
      destruct l2 as [|z l2 _] using rev_ind.
      * apply app_inj_tail in Hl as [_ ->]. congruence.
      * rewrite app_comm_cons, app_assoc in Hl. apply app_inj_tail in Hl as [-> _].
        apply Forall_app in Hl2 as [Hl2 _]. by exists l1, l2.
Qed.

Lemma find_reverse_None {A} (P : A → bool) (l : list A) :
  find P (reverse l) = None ↔ Forall (λ y, P y = false) l.
Proof.
  induction l as [|y l IH] using rev_ind; [by split|].
  rewrite reverse_app. simpl. rewrite Forall_app, Forall_singleton.
  destruct (P y).
  - split; [done|]. by intros [_ ?].
  - rewrite IH. split; [by intros ?|by intros [? _]].
Qed.

(** The keys of the rounds in ascending order. *)
Lemma sorted_round_keys (hm : HeightManager) :
  let keys := merge_sort Z.le (map fst (map_to_list (hm_rounds hm))) in
  StronglySorted Z.le keys ∧ NoDup keys
  ∧ ∀ r, r ∈ keys ↔ is_Some (hm_rounds hm !! r).
Proof.
  intros keys. split_and!.
  - apply StronglySorted_merge_sort; apply _.
  - unfold keys. rewrite merge_sort_Permutation. apply NoDup_fst_map_to_list.
  - intros r. unfold keys. rewrite merge_sort_Permutation, list_elem_of_fmap. split.
    + intros ([k rm] & -> & Hin). apply elem_of_map_to_list in Hin. by eexists.
    + intros [rm Hr]. exists (r, rm). split; [done|]. by apply elem_of_map_to_list.
Qed.

Lemma omap_lookup_split (m : gmap Z RoundManager) keys l1 rm l2 :
  (∀ k, k ∈ keys → is_Some (m !! k)) →
  omap (λ k, m !! k) keys = l1 ++ rm :: l2 →
  ∃ k1 r k2, keys = k1 ++ r :: k2 ∧ m !! r = Some rm
    ∧ omap (λ k, m !! k) k1 = l1 ∧ omap (λ k, m !! k) k2 = l2.
Proof.
  revert l1. induction keys as [|k keys IH]; intros l1 Hdom Hsplit.
  { by destruct l1. }
  destruct (Hdom k) as [v Hv]; [apply list_elem_of_here|].
  simpl in Hsplit. rewrite Hv in Hsplit. destruct l1 as [|x l1].
  - injection Hsplit as <- Hl2. by exists [], k, keys.
  - injection Hsplit as <- Hrest.
    destruct (IH l1) as (k1 & r & k2 & -> & Hr & Hk1 & Hk2); [|done|].
    { intros k' Hk'. apply Hdom. by apply list_elem_of_further. }
    exists (k :: k1), r, k2. split_and!; [done..| |done].
    simpl. rewrite Hv. simpl. f_equal. exact Hk1.
Qed.

Lemma sorted_split_order (k1 k2 : list Z) r :
  StronglySorted Z.le (k1 ++ r :: k2) → NoDup (k1 ++ r :: k2) →
  (∀ r', r' ∈ k1 → r' < r) ∧ (∀ r', r' ∈ k2 → r < r').
Proof.
  intros Hsorted Hnd. apply NoDup_app in Hnd as (_ & Hdisj & Hnd).
  apply NoDup_cons in Hnd as [Hr _].
  apply StronglySorted_app in Hsorted as (Hle & _ & Hs2).
  inversion Hs2 as [|? ? _ Hall]; subst. rewrite Forall_forall in Hall. split.
  - intros r' Hin. assert (r' ≠ r).
    { intros ->. apply (Hdisj r Hin). apply list_elem_of_here. }
    specialize (Hle r' r Hin ltac:(apply list_elem_of_here)). lia.
  - intros r' Hin. assert (r' ≠ r) by (by intros ->).
    specialize (Hall r' Hin). lia.
Qed.

(** A scan [for r in reversed(sorted(self.rounds))] that returns at the first
    round that passes a test finds the highest round that passes it. *)
Lemma scan_highest (P : RoundManager → bool) hm rm :
  find P (reverse (sorted_rounds hm)) = Some rm
  ↔ ∃ r, hm_rounds hm !! r = Some rm ∧ P rm = true
      ∧ ∀ r' rm', r < r' → hm_rounds hm !! r' = Some rm' → P rm' = false.
Proof.
  destruct (sorted_round_keys hm) as (Hsorted & Hnd & Hdom). simpl in *.
  rewrite find_reverse_Some. unfold sorted_rounds. split.
  - intros (l1 & l2 & Hsplit & Hrm & Hl2).
    apply omap_lookup_split in Hsplit as (k1 & r & k2 & Hkeys & Hr & <- & <-);
      [|intros k Hk; by apply Hdom].
    rewrite Hkeys in Hsorted, Hnd, Hdom.
    destruct (sorted_split_order _ _ _ Hsorted Hnd) as [Hlow Hhigh].
    exists r. split_and!; [done..|]. intros r' rm' Hlt Hr'.
    assert (r' ∈ k2) as Hin.
    { assert (r' ∈ k1 ++ r :: k2) as Hin by (apply Hdom; by eexists).
      apply elem_of_app in Hin as [Hin|Hin]; [specialize (Hlow _ Hin); lia|].
      apply elem_of_cons in Hin as [->|Hin]; [lia|done]. }
    rewrite Forall_forall in Hl2. apply Hl2, list_elem_of_omap. by exists r'.
  - intros (r & Hr & Hrm & Hhigher).
    assert (r ∈ merge_sort Z.le (map fst (map_to_list (hm_rounds hm)))) as Hin
      by (apply Hdom; by eexists).
    apply list_elem_of_split in Hin as (k1 & k2 & Hkeys).
    rewrite Hkeys in Hsorted, Hnd |- *.
    destruct (sorted_split_order _ _ _ Hsorted Hnd) as [Hlow Hhigh].
    exists (omap (λ k, hm_rounds hm !! k) k1), (omap (λ k, hm_rounds hm !! k) k2).
    rewrite omap_app. simpl. rewrite Hr. split_and!; [done..|].
    apply Forall_forall. intros rm' Hin.
    apply list_elem_of_omap in Hin as (r' & Hin & Hr'). eauto.
Qed.

Lemma scan_nothing (P : RoundManager → bool) hm :
  find P (reverse (sorted_rounds hm)) = None
  ↔ ∀ r rm, hm_rounds hm !! r = Some rm → P rm = false.
Proof.
  destruct (sorted_round_keys hm) as (_ & _ & Hdom). simpl in *.
  rewrite find_reverse_None, Forall_forall. unfold sorted_rounds. split.
  - intros Hall r rm Hr. apply Hall, list_elem_of_omap. exists r. split; [|done].
    apply Hdom. by eexists.
  - intros Hall rm Hin. apply list_elem_of_omap in Hin as (r & _ & Hr). eauto.
Qed.
End Scans.

(** ** The contract and the scans, as statements *)

Section ContractFacts.
Context `{Base}.

(** X1.  With at least one validator, [proposer] returns, and the address it
    returns is one of the validators, whatever the height, the round and the
    value of Python's [hash]. *)
Theorem proposer_elects_validator c h r :
  validators c ≠ [] → ∃ a, proposer c h r = Ok a ∧ a ∈ validators c.
Proof.
  intros Hne. destruct (proposer_Ok c h r Hne) as [a Ha]. exists a. split; [done|].
  unfold proposer in Ha. case_decide; [done|].
  destruct (validators c !! _) as [b|] eqn:E; [|done].
  injection Ha as <-. by eapply list_elem_of_lookup_2.
Qed.

(** X2.  A proposal that [isproposer] accepts comes from a validator:
    [isvalidator] returns [True] for its sender. *)
Theorem isproposer_implies_isvalidator c p :
  isproposer c p = Ok true → isvalidator c (p_sender p) = Ok true.
Proof.
  unfold isproposer, proposer, isvalidator. case_decide as Hz; [done|].
  destruct (validators c !! _) as [a|] eqn:E; [|done].
  intros [= Hs]. apply bool_decide_eq_true in Hs. subst a.
  case_decide as Hlen; [lia|]. f_equal. apply bool_decide_eq_true.
  by eapply list_elem_of_lookup_2.
Qed.
End ContractFacts.

Section ScanStatements.
Context `{Base}.

(** X3.  [HeightManager.last_lock] is the lock of the highest round that has
    one, and [None] exactly when no round of the height has a lock. *)
Theorem last_lock_is_highest_lock hm :
  (∀ v, hm_last_lock hm = Some v
        ↔ ∃ r rm, hm_rounds hm !! r = Some rm ∧ rm_lock rm = Some v
            ∧ ∀ r' rm', r < r' → hm_rounds hm !! r' = Some rm' → rm_lock rm' = None)
  ∧ (hm_last_lock hm = None
     ↔ ∀ r rm, hm_rounds hm !! r = Some rm → rm_lock rm = None).
Proof.
  unfold hm_last_lock.
  set (P := λ rm : RoundManager, bool_decide (is_Some (rm_lock rm))).
  assert (∀ rm, P rm = false ↔ rm_lock rm = None) as HP.
  { intros rm. unfold P. rewrite bool_decide_eq_false, <- eq_None_not_Some. done. }
  split.
  - intros v. split.
    + destruct (find P _) as [rm|] eqn:E; [|done]. simpl. intros Hv.
      apply scan_highest in E as (r & Hr & _ & Hhigher).
      exists r, rm. split_and!; [done..|]. intros r' rm' Hlt Hr'.
      apply HP. eauto.
    + intros (r & rm & Hr & Hv & Hhigher).
      assert (find P (reverse (sorted_rounds hm)) = Some rm) as ->; [|done].
      apply scan_highest. exists r. split_and!; [done| |].
      * unfold P. apply bool_decide_eq_true. by eexists.
      * intros r' rm' Hlt Hr'. apply HP. eauto.
  - split.
    + destruct (find P _) as [rm|] eqn:E.
      * simpl. intros Hnone. apply scan_highest in E as (r & _ & Hrm & _).
        apply HP in Hnone. congruence.
      * intros _ r rm Hr. apply HP. by eapply scan_nothing.
    + intros Hall.
      assert (find P (reverse (sorted_rounds hm)) = None) as ->; [|done].
      apply scan_nothing. intros r rm Hr. apply HP. eauto.
Qed.

(** X4.  [HeightManager.last_valid_lockset] is the lock-set of the highest
    round whose lock-set is valid, and [None] exactly when no round of the
    height has a valid lock-set, in which case [HeightManager.round] is 0. *)
Theorem last_valid_lockset_is_highest hm :
  (∀ ls, hm_last_valid_lockset hm = Some ls
         ↔ ∃ r rm, hm_rounds hm !! r = Some rm ∧ rm_lockset rm = ls
             ∧ ls_is_valid ls = true
             ∧ ∀ r' rm', r < r' → hm_rounds hm !! r' = Some rm' →
                 ls_is_valid (rm_lockset rm') = false)
  ∧ (hm_last_valid_lockset hm = None
     ↔ ∀ r rm, hm_rounds hm !! r = Some rm → ls_is_valid (rm_lockset rm) = false)
  ∧ ((∀ r rm, hm_rounds hm !! r = Some rm → ls_is_valid (rm_lockset rm) = false)
     → hm_round hm = 0).
Proof.
  unfold hm_round, hm_last_valid_lockset.
  set (P := λ rm : RoundManager, ls_is_valid (rm_lockset rm)).
  assert ((find P (reverse (sorted_rounds hm)) ≫= λ rm, Some (rm_lockset rm)) = None
          ↔ ∀ r rm, hm_rounds hm !! r = Some rm → ls_is_valid (rm_lockset rm) = false)
    as Hnone.
  { etransitivity; [|apply (scan_nothing P hm)]. by destruct (find P _). }
  split_and!.
  - intros ls. split.
    + destruct (find P _) as [rm|] eqn:E; [|done]. simpl. intros [= <-].
      apply scan_highest in E as (r & Hr & Hrm & Hhigher). by exists r, rm.
    + intros (r & rm & Hr & <- & Hv & Hhigher).
      assert (find P (reverse (sorted_rounds hm)) = Some rm) as ->; [|done].
      apply scan_highest. by exists r.
  - done.
  - intros Hall. apply Hnone in Hall. by rewrite Hall.
Qed.

Lemma filter_cons_split {A} (P : A → bool) (l : list A) a rest :
  filter (λ x, P x = true) l = a :: rest →
  ∃ l1 l2, l = l1 ++ a :: l2 ∧ Forall (λ x, P x = false) l1 ∧ P a = true
    ∧ filter (λ x, P x = true) l2 = rest.
Proof.
  induction l as [|x l IH]; [done|]. rewrite filter_cons.
  destruct (decide (P x = true)) as [Hx|Hx].
  - intros [= <- <-]. by exists [], l.
  - intros Hf. destruct (IH Hf) as (l1 & l2 & -> & Hl1 & Ha & Hl2).
    exists (x :: l1), l2. split_and!; [done| |done..].
    constructor; [by destruct (P x)|done].
Qed.

Lemma filter_nothing {A} (P : A → bool) (l : list A) :
  filter (λ x, P x = true) l = [] ↔ Forall (λ x, P x = false) l.
Proof.
  induction l as [|x l IH]; [done|]. rewrite filter_cons, Forall_cons.
  destruct (decide (P x = true)) as [Hx|Hx].
  - split; [done|]. intros [? _]. congruence.
  - rewrite IH. split; [|by intros [_ ?]]. intros ?. split; [by destruct (P x)|done].
Qed.

(** The loop of [last_quorum_lockset] in terms of the rounds that pass its
    test. *)
Lemma quorum_scan_filter found rms :
  quorum_scan found rms
  = match filter (λ rm, quorate rm = true) rms with
    | [] => Ok found
    | rm :: rest =>
        match found, rest with
        | None, [] => Ok (Some (rm_lockset rm))
        | _, _ => Raise AssertionError
        end
    end.
Proof.
  revert found. induction rms as [|rm rms IH]; intros found; [done|].
  simpl. rewrite filter_cons. fold (quorate rm).
  destruct (decide (quorate rm = true)) as [Hq|Hq].
  - rewrite Hq. destruct found; [done|]. rewrite IH. by destruct (filter _ rms).
  - destruct (quorate rm); [done|]. apply IH.
Qed.

Lemma sorted_rounds_elem hm rm :
  rm ∈ sorted_rounds hm ↔ ∃ r, hm_rounds hm !! r = Some rm.
Proof.
  destruct (sorted_round_keys hm) as (_ & _ & Hdom). simpl in Hdom.
  unfold sorted_rounds. rewrite list_elem_of_omap. split.
  - intros (r & _ & Hr). eauto.
  - intros (r & Hr). exists r. split; [|done]. apply Hdom. by eexists.
Qed.

(** Two positions of the sorted rounds are two rounds. *)
Lemma sorted_rounds_two hm l1 rm1 l2 rm2 :
  sorted_rounds hm = l1 ++ rm1 :: l2 → rm2 ∈ l2 →
  ∃ r1 r2, r1 ≠ r2 ∧ hm_rounds hm !! r1 = Some rm1 ∧ hm_rounds hm !! r2 = Some rm2.
Proof.
  destruct (sorted_round_keys hm) as (Hsorted & Hnd & Hdom). simpl in *.
  unfold sorted_rounds. intros Hsplit Hin.
  apply omap_lookup_split in Hsplit as (k1 & r1 & k2 & Hkeys & Hr1 & _ & <-);
    [|intros k Hk; by apply Hdom].
  apply list_elem_of_omap in Hin as (r2 & Hin & Hr2).
  rewrite Hkeys in Hsorted, Hnd.
  destruct (sorted_split_order _ _ _ Hsorted Hnd) as [_ Hhigh].
  exists r1, r2. split_and!; [|done..]. specialize (Hhigh _ Hin). lia.
Qed.

(** X5.  [HeightManager.last_quorum_lockset] has three outcomes: [None] when
    no round of the height has a valid lock-set with a quorum, that lock-set
    when exactly one round has, and an [AssertionError] when two rounds
    have. *)
Theorem last_quorum_lockset_cases hm :
  (hm_last_quorum_lockset hm = Ok None
   ↔ ∀ r rm, hm_rounds hm !! r = Some rm → quorate rm = false)
  ∧ (∀ ls, hm_last_quorum_lockset hm = Ok (Some ls)
           ↔ ∃ r rm, hm_rounds hm !! r = Some rm ∧ quorate rm = true
               ∧ rm_lockset rm = ls
               ∧ ∀ r' rm', r' ≠ r → hm_rounds hm !! r' = Some rm' →
                   quorate rm' = false)
  ∧ (∀ e, hm_last_quorum_lockset hm = Raise e
          ↔ e = AssertionError
            ∧ ∃ r1 r2 rm1 rm2, r1 ≠ r2
                ∧ hm_rounds hm !! r1 = Some rm1 ∧ hm_rounds hm !! r2 = Some rm2
                ∧ quorate rm1 = true ∧ quorate rm2 = true).
Proof.
  pose proof (quorum_scan_filter None (sorted_rounds hm)) as Hscan.
  fold (hm_last_quorum_lockset hm) in Hscan.
  destruct (filter _ (sorted_rounds hm)) as [|rm [|rm' rest]] eqn:Hf.
  - (* no round passes the test *)
    apply filter_nothing in Hf. rewrite Forall_forall in Hf.
    assert (∀ r rm, hm_rounds hm !! r = Some rm → quorate rm = false) as Hnone.
    { intros r rm Hr. apply Hf, sorted_rounds_elem. eauto. }
    rewrite Hscan. split_and!.
    + done.
    + intros ls. split; [done|]. intros (r & rm & Hr & Hq & _).
      rewrite (Hnone _ _ Hr) in Hq. done.
    + intros e. split; [done|]. intros (_ & r1 & _ & rm1 & _ & _ & Hr1 & _ & Hq & _).
      rewrite (Hnone _ _ Hr1) in Hq. done.
  - (* one round passes it *)
    apply filter_cons_split in Hf as (l1 & l2 & Hsplit & Hl1 & Hq & Hl2).
    assert (rm ∈ sorted_rounds hm) as Hin.
    { rewrite Hsplit. apply elem_of_app. right. apply list_elem_of_here. }
    apply sorted_rounds_elem in Hin as [r Hr].
    assert (∀ r1 r2 rm1 rm2, r1 ≠ r2 →
              hm_rounds hm !! r1 = Some rm1 → hm_rounds hm !! r2 = Some rm2 →
              quorate rm1 = true → quorate rm2 = true → False) as Hone.
    { intros r1 r2 rm1 rm2 Hne Hr1 Hr2 Hq1 Hq2.
      pose proof (last_quorum_lockset_two_quorums hm r1 r2 rm1 rm2
                    Hne Hr1 Hr2 Hq1 Hq2) as Hraise.
      rewrite Hscan in Hraise. done. }
    rewrite Hscan. split_and!.
    + split; [done|]. intros Hnone. rewrite (Hnone _ _ Hr) in Hq. done.
    + intros ls. split.
      * intros [= <-]. exists r, rm. split_and!; [done..|].
        intros r' rm' Hne Hr'. destruct (quorate rm') eqn:Hq'; [|done].
        destruct (Hone r' r rm' rm Hne Hr' Hr Hq' Hq).
      * intros (r' & rm' & Hr' & Hq' & <- & _).
        destruct (decide (r' = r)) as [->|Hne]; [congruence|].
        destruct (Hone r' r rm' rm Hne Hr' Hr Hq' Hq).
    + intros e. split; [done|].
      intros (_ & r1 & r2 & rm1 & rm2 & Hne & Hr1 & Hr2 & Hq1 & Hq2).
      destruct (Hone r1 r2 rm1 rm2 Hne Hr1 Hr2 Hq1 Hq2).
  - (* two rounds pass it *)
    apply filter_cons_split in Hf as (l1 & l2 & Hsplit & Hl1 & Hq & Hl2).
    assert (rm' ∈ l2 ∧ quorate rm' = true) as [Hin' Hq'].
    { assert (rm' ∈ filter (λ rm, quorate rm = true) l2) as Hin'
        by (rewrite Hl2; apply list_elem_of_here).
      by apply list_elem_of_filter in Hin' as [? ?]. }
    destruct (sorted_rounds_two hm l1 rm l2 rm' Hsplit Hin')
      as (r1 & r2 & Hne & Hr1 & Hr2).
    rewrite Hscan. split_and!.
    + split; [done|]. intros Hnone. rewrite (Hnone _ _ Hr1) in Hq. done.
    + intros ls. split; [done|]. intros (r & rm0 & Hr & Hq0 & _ & Hothers).
      destruct (decide (r1 = r)) as [->|Hne1].
      * rewrite (Hothers r2 rm') in Hq'; [done|congruence|done].
      * rewrite (Hothers r1 rm) in Hq; done.
    + intros e. split; [|by intros [-> _]]. intros [= <-]. split; [done|].
      by exists r1, r2, rm, rm'.
Qed.
End ScanStatements.

Section ScanExamples.
Import SpecBase Scenario.

(** [proposer_elects_validator] at work: the proposer of (3, 0) among the
    four validators of the node. *)
Lemma proposer_elects_validator_witness :
  ∃ a, proposer (cm_contract node) 3 0 = Ok a ∧ a ∈ validators (cm_contract node).
Proof. apply (proposer_elects_validator (cm_contract node) 3 0). by vm_compute. Defined.

(** [isproposer_implies_isvalidator] at work: the sender of the proposal of
    block 3. *)
Lemma isproposer_implies_isvalidator_witness :
  isvalidator (cm_contract node) (p_sender proposal3) = Ok true.
Proof.
  apply (isproposer_implies_isvalidator (cm_contract node) proposal3). by vm_compute.
Defined.

(** [last_lock_is_highest_lock] at work: the node that voted at round 0 of
    height 3 and then received the instruction of round 1 has its vote of
    round 0 as last lock, and no lock in a higher round. *)
Lemma last_lock_is_highest_lock_witness :
  ∃ r rm, hm_rounds (height_manager_at instructed_y 3) !! r = Some rm
    ∧ rm_lock rm = Some (vote_block "A" 3 0 "x")
    ∧ ∀ r' rm', r < r' → hm_rounds (height_manager_at instructed_y 3) !! r' = Some rm' →
        rm_lock rm' = None.
Proof.
  apply (last_lock_is_highest_lock (height_manager_at instructed_y 3)). by vm_compute.
Defined.

(** [last_valid_lockset_is_highest] at work: after the votes of round 1. *)
Lemma last_valid_lockset_is_highest_witness :
  ∃ r rm, hm_rounds (height_manager_at round1_over 3) !! r = Some rm
    ∧ rm_lockset rm = lockset31
    ∧ ls_is_valid lockset31 = true
    ∧ ∀ r' rm', r < r' → hm_rounds (height_manager_at round1_over 3) !! r' = Some rm' →
        ls_is_valid (rm_lockset rm') = false.
Proof.
  apply (last_valid_lockset_is_highest (height_manager_at round1_over 3)).
  by vm_compute.
Defined.

(** [last_quorum_lockset_cases] at work: the one quorum of height 3 once
    three validators voted for [x], and the two of [two_quorums]. *)
Lemma last_quorum_lockset_cases_witness :
  (∃ r rm, hm_rounds (height_manager_at voted 3) !! r = Some rm
     ∧ quorate rm = true ∧ rm_lockset rm = quorum30
     ∧ ∀ r' rm', r' ≠ r → hm_rounds (height_manager_at voted 3) !! r' = Some rm' →
         quorate rm' = false)
  ∧ (∃ r1 r2 rm1 rm2, r1 ≠ r2
       ∧ hm_rounds (height_manager_at two_quorums 3) !! r1 = Some rm1
       ∧ hm_rounds (height_manager_at two_quorums 3) !! r2 = Some rm2
       ∧ quorate rm1 = true ∧ quorate rm2 = true).
Proof.
  split.
  - apply (last_quorum_lockset_cases (height_manager_at voted 3)). by vm_compute.
  - apply (last_quorum_lockset_cases (height_manager_at two_quorums 3)) with (e := AssertionError).
    by vm_compute.
Defined.
End ScanExamples.

(** ** Lazy creation and logging only add managers *)

Section OnlyCreates.
Context `{Base}.

#[global] Instance only_creates_preorder : PreOrder only_creates.
Proof.
  split.
  - intros st. split; try done. intros h r rm Hr Hnone. congruence.
  - intros s1 s2 s3 [C1 K1 V1 B1 E1 R1 N1 L1] [C2 K2 V2 B2 E2 R2 N2 L2].
    split; try congruence.
    + intros h r rm Hr. by apply R2, R1.
    + intros h r rm Hr3 Hr1. destruct (the_round h r s2) as [rm2|] eqn:Hr2.
      * rewrite (R2 _ _ _ Hr2) in Hr3. injection Hr3 as <-. by eapply N1.
      * by eapply N2.
Qed.

#[global] Instance keeps_other_rounds_preorder h r : PreOrder (keeps_other_rounds h r).
Proof.
  split.
  - by intros st h' r' rm.
  - intros s1 s2 s3 K1 K2 h' r' rm Hne Hr. by apply K2, K1.
Qed.

Lemma only_creates_keeps h r st st' :
  only_creates st st' → keeps_other_rounds h r st st'.
Proof. intros X h' r' rm _. apply (oc_rounds _ _ X). Qed.

Lemma only_creates_frame st st' : only_creates st st' → frame st st'.
Proof.
  intros [C K V B E R N L]. split; try done.
  - intros h r. unfold proposal_at. destruct (the_round h r st) as [rm|] eqn:Hr.
    + by rewrite (R _ _ _ Hr).
    + destruct (the_round h r st') as [rm|] eqn:Hr'; [|done].
      simpl. by destruct (N _ _ _ Hr' Hr) as [-> _].
  - exists []. by rewrite app_nil_r.
Qed.

Lemma only_creates_height st st' : only_creates st st' → cm_height st' = cm_height st.
Proof. intros X. unfold cm_height, cm_head. by rewrite (oc_chainservice _ _ X). Qed.

Lemma heights_getitem_creates k : preserves only_creates (heights_getitem k).
Proof.
  intros st st' r. unfold heights_getitem.
  destruct (cm_heights st !! k) eqn:E; intros [= <- _]; [reflexivity|].
  split; try done.
  - intros h r' rm. by apply the_round_new_height.
  - intros h r' rm. unfold the_round. simpl.
    destruct (decide (k = h)) as [<-|Hne].
    + by rewrite lookup_insert_eq.
    + rewrite lookup_insert_ne by done. congruence.
  - intros h. by rewrite height_manager_at_new.
Qed.

(** A new round manager at (h, r), without proposal, lock or votes. *)
Lemma new_round_creates st h hm r rm :
  cm_heights st !! h = Some hm → hm_rounds hm !! r = None →
  rm_proposal rm = None → rm_lock rm = None → votes (rm_lockset rm) = [] →
  only_creates st (set_heights (alter (set_rounds <[r := rm]>) h) st).
Proof.
  intros Hh Hr Hp Hl Hv. split; try done.
  - intros h' r' rm'. unfold the_round. simpl.
    destruct (decide (h = h')) as [<-|Hne].
    + rewrite lookup_alter_eq, Hh. simpl. intros Hr'.
      rewrite lookup_insert_ne; [done|congruence].
    + by rewrite lookup_alter_ne.
  - intros h' r' rm'. unfold the_round. simpl.
    destruct (decide (h = h')) as [<-|Hne].
    + rewrite lookup_alter_eq, Hh. simpl.
      destruct (decide (r = r')) as [<-|Hner].
      * rewrite lookup_insert_eq. by intros [= <-].
      * rewrite lookup_insert_ne by done. congruence.
    + rewrite lookup_alter_ne by done. congruence.
  - intros h'. unfold height_manager_at. simpl.
    destruct (decide (h = h')) as [<-|Hne].
    + rewrite lookup_alter_eq, Hh. simpl. by apply hm_last_lock_new_round.
    + by rewrite lookup_alter_ne.
Qed.

Lemma rounds_getitem_creates h r : preserves only_creates (rounds_getitem h r).
Proof.
  intros st st' res. unfold rounds_getitem, bind.
  destruct (heights_getitem h st) as [s1 r1] eqn:E1.
  destruct (heights_getitem_Ok h st) as (s1' & hm & E1').
  rewrite E1 in E1'. injection E1' as <- ->.
  pose proof (heights_getitem_creates _ _ _ _ E1) as X1.
  apply heights_getitem_present in E1.
  destruct (hm_rounds hm !! r) eqn:Er; simpl.
  - by intros [= <- _].
  - intros [= <- _]. etransitivity; [exact X1|].
    by apply (new_round_creates s1 h hm).
Qed.

Lemma cm_log_creates : preserves only_creates cm_log.
Proof.
  unfold cm_log.
  apply preserves_bind; [apply _|apply preserves_gets; apply _|intros height].
  apply preserves_bind; [apply _|apply heights_getitem_creates|intros hm].
  apply preserves_bind; [apply _|apply rounds_getitem_creates|intros rm].
  apply preserves_ret; apply _.
Qed.

Lemma cm_log_only_creates st :
  cm_log st = ((cm_log st).1, Ok tt) ∧ only_creates st (cm_log st).1.
Proof.
  destruct (cm_log_same st) as [Hlog _]. split; [done|].
  by eapply cm_log_creates.
Qed.

Lemma the_round_heights h r st rm :
  the_round h r st = Some rm →
  ∃ hm, cm_heights st !! h = Some hm ∧ hm_rounds hm !! r = Some rm.
Proof.
  unfold the_round. destruct (cm_heights st !! h) as [hm|]; [|done]. simpl. eauto.
Qed.

Lemma the_round_update_round h r f st h' r' :
  the_round h' r' (update_round h r f st)
  = if decide ((h', r') = (h, r)) then f <$> the_round h r st else the_round h' r' st.
Proof.
  unfold the_round, update_round. simpl. case_decide as Heq.
  - injection Heq as -> ->. rewrite lookup_alter_eq.
    destruct (cm_heights st !! h) as [hm|]; [|done]. simpl.
    by rewrite lookup_alter_eq.
  - destruct (decide (h = h')) as [<-|Hne].
    + rewrite lookup_alter_eq. destruct (cm_heights st !! h) as [hm|]; [|done]. simpl.
      rewrite lookup_alter_ne; [done|congruence].
    + by rewrite lookup_alter_ne.
Qed.

Lemma update_round_keeps h r f st : keeps_other_rounds h r st (update_round h r f st).
Proof.
  intros h' r' rm Hne Hr. rewrite the_round_update_round.
  by rewrite decide_False.
Qed.

Lemma track_keeps h r e st : keeps_other_rounds h r st (track e st).
Proof. by intros h' r' rm _. Qed.
End OnlyCreates.

(** ** [add_vote] *)

Section AddVote.
Context `{Base}.

Lemma preserves_weaken {A} (R R' : relation ConsensusManager) (m : M A) :
  (∀ st st', R st st' → R' st st') → preserves R m → preserves R' m.
Proof. intros HR Hm st st' r Hrun. apply HR. by eapply Hm. Qed.

Lemma rounds_getitem_keeps h r h' r' :
  preserves (keeps_other_rounds h r) (rounds_getitem h' r').
Proof.
  eapply preserves_weaken; [apply only_creates_keeps|apply rounds_getitem_creates].
Qed.

Lemma heights_getitem_keeps h r k :
  preserves (keeps_other_rounds h r) (heights_getitem k).
Proof.
  eapply preserves_weaken; [apply only_creates_keeps|apply heights_getitem_creates].
Qed.

Lemma cm_log_keeps h r : preserves (keeps_other_rounds h r) cm_log.
Proof. eapply preserves_weaken; [apply only_creates_keeps|apply cm_log_creates]. Qed.

Lemma rm_add_vote_keeps h r v force :
  preserves (keeps_other_rounds h r) (rm_add_vote h r v force).
Proof.
  pose proof (cm_log_keeps h r). pose proof (rounds_getitem_keeps h r h r).
  unfold rm_add_vote. repeat preserves_step;
    solve [done | apply track_keeps | apply update_round_keeps].
Qed.

Lemma cm_add_vote_keeps v :
  preserves (keeps_other_rounds (v_height v) (v_round v)) (cm_add_vote v).
Proof.
  pose proof (rounds_getitem_keeps (v_height v) (v_round v) (v_height v) (v_round v)).
  pose proof (heights_getitem_keeps (v_height v) (v_round v) (v_height v)).
  pose proof (rm_add_vote_keeps (v_height v) (v_round v) v).
  unfold cm_add_vote, hm_add_vote. repeat preserves_step;
    solve [done | apply track_keeps].
Qed.

(** The outcome of [RoundManager.add_vote] on a round manager that exists. *)
Lemma rm_add_vote_run h r v force st self :
  the_round h r st = Some self →
  ∃ s1, only_creates st s1 ∧ the_round h r s1 = Some self
    ∧ match ls_add (rm_lockset self) v force with
      | Raise e =>
          rm_add_vote h r v force st
          = match e with
            | InvalidVoteError => (track (InvalidVoteEvidence v) s1, Ok None)
            | _ => (s1, Raise e)
            end
      | Ok (ls, success) =>
          ∃ s3, only_creates (update_round h r (set_lockset ls) s1) s3
            ∧ rm_add_vote h r v force st
              = (if ls_is_valid ls && negb (bool_decide (is_Some (rm_proposal self)))
                    && ls_has_noquorum ls
                 then track (FailedToProposeEvidence (rm_height self, rm_round self)) s3
                 else s3, Ok (Some success))
      end.
Proof.
  intros Hself. destruct (cm_log_only_creates st) as [Hlog X1].
  exists (cm_log st).1. split; [done|].
  pose proof (oc_rounds _ _ X1 _ _ _ Hself) as Hself1. split; [done|].
  unfold rm_add_vote. rewrite (bind_Ok _ _ _ _ _ Hlog).
  rewrite (bind_Ok _ _ _ _ _ (rounds_getitem_exists _ _ _ _ Hself1)).
  destruct (ls_add (rm_lockset self) v force) as [[ls success]|e].
  - set (s2 := update_round h r (set_lockset ls) (cm_log st).1).
    destruct (cm_log_only_creates s2) as [Hlog2 X2].
    destruct (ls_is_valid ls); simpl.
    + exists (cm_log s2).1. split; [done|].
      unfold bind at 1. unfold modify at 1. fold s2.
      rewrite bind_assoc, (bind_Ok _ _ _ _ _ Hlog2).
      by destruct (negb _ && _).
    + exists s2. split; [reflexivity|done].
  - by destruct e.
Qed.

(** X6.  [add_vote] refuses the vote of a sender that is not a validator with
    an [AssertionError], and leaves the manager as it is: no manager is
    created and no evidence is recorded. *)
Theorem add_vote_rejects_nonvalidator v st :
  isvalidator (cm_contract st) (v_sender v) ≠ Ok true →
  cm_add_vote v st = (st, Raise AssertionError).
Proof.
  intros Hnv. unfold cm_add_vote. rewrite bind_gets.
  unfold isvalidator in *. case_decide; [done|].
  rewrite bind_lift_Ok, bind_assert. by destruct (bool_decide _).
Qed.

(** X7.  A vote that the lock-set of the round refuses with [InvalidVoteError]
    makes [RoundManager.add_vote] return [None]: the round manager stays as
    it is, and one [InvalidVoteEvidence] of the vote is appended. *)
Theorem invalid_vote_is_recorded h r v force st self :
  the_round h r st = Some self →
  ls_add (rm_lockset self) v force = Raise InvalidVoteError →
  ∃ st', rm_add_vote h r v force st = (st', Ok None)
    ∧ the_round h r st' = Some self
    ∧ cm_tracked_protocol_failures st'
      = cm_tracked_protocol_failures st ++ [InvalidVoteEvidence v].
Proof.
  intros Hself Hadd.
  destruct (rm_add_vote_run h r v force st self Hself) as (s1 & X1 & Hself1 & Hrun).
  rewrite Hadd in Hrun. eexists. split; [exact Hrun|]. split; [done|].
  simpl. by rewrite (oc_evidence _ _ X1).
Qed.

(** X8.  A vote that the lock-set of the round accepts: [RoundManager.add_vote]
    returns what [LockSet.add] returned, the lock-set of the round becomes
    the one with the vote, the other round managers stay as they are, and a
    [FailedToProposeEvidence] of the round is appended exactly when the new
    lock-set is valid and has no quorum while the round has no proposal. *)
Theorem accepted_vote_joins_lockset h r v force st self ls success :
  the_round h r st = Some self →
  ls_add (rm_lockset self) v force = Ok (ls, success) →
  ∃ st', rm_add_vote h r v force st = (st', Ok (Some success))
    ∧ the_round h r st' = Some (set_lockset ls self)
    ∧ keeps_other_rounds h r st st'
    ∧ cm_tracked_protocol_failures st'
      = cm_tracked_protocol_failures st
        ++ (if ls_is_valid ls && negb (bool_decide (is_Some (rm_proposal self)))
               && ls_has_noquorum ls
            then [FailedToProposeEvidence (rm_height self, rm_round self)]
            else []).
Proof.
  intros Hself Hadd.
  destruct (rm_add_vote_run h r v force st self Hself) as (s1 & X1 & Hself1 & Hrun).
  rewrite Hadd in Hrun. destruct Hrun as (s3 & X3 & Hrun).
  eexists. split; [exact Hrun|].
  assert (the_round h r s3 = Some (set_lockset ls self)) as Hself3.
  { apply (oc_rounds _ _ X3). rewrite the_round_update_round, decide_True by done.
    by rewrite Hself1. }
  assert (keeps_other_rounds h r st s3) as K3.
  { etransitivity; [by apply only_creates_keeps|].
    etransitivity; [apply update_round_keeps|by apply only_creates_keeps]. }
  assert (cm_tracked_protocol_failures s3 = cm_tracked_protocol_failures st) as E3
    by (rewrite (oc_evidence _ _ X3); simpl; apply (oc_evidence _ _ X1)).
  destruct (_ && _); simpl.
  - split_and!; [done|done|by rewrite E3].
  - split_and!; [done|done|by rewrite E3, app_nil_r].
Qed.

(** X9.  [ConsensusManager.add_vote], whatever its outcome, touches nothing
    but the round manager of the (height, round) of the vote and the
    evidence list: the chain service, the contract, the key, the block
    candidates, the proposals of all rounds and the other round managers stay
    as they are, and the evidence list grows, never by an
    [InvalidProposalEvidence]. *)
Theorem add_vote_touches_its_round_only v st st' res :
  cm_add_vote v st = (st', res) →
  frame st st' ∧ keeps_other_rounds (v_height v) (v_round v) st st'.
Proof.
  intros Hrun. split.
  - by eapply cm_add_vote_frame.
  - by eapply cm_add_vote_keeps.
Qed.
End AddVote.

Section AddVoteExamples.
Import SpecBase Scenario.

(** [add_vote_rejects_nonvalidator] at work: [E] is not one of the four
    validators. *)
Lemma add_vote_rejects_nonvalidator_witness :
  cm_add_vote (vote_block "E" 3 0 "x") node = (node, Raise AssertionError).
Proof. apply add_vote_rejects_nonvalidator. by vm_compute. Defined.

(** [invalid_vote_is_recorded] at work: a vote of round 1 handed to the
    round manager of round 0, which holds three votes of round 0. *)
Lemma invalid_vote_is_recorded_witness :
  ∃ st', rm_add_vote 3 0 (vote_block "B" 3 1 "x") false voted = (st', Ok None)
    ∧ the_round 3 0 st' = Some (round_of voted 3 0)
    ∧ cm_tracked_protocol_failures st'
      = cm_tracked_protocol_failures voted
        ++ [InvalidVoteEvidence (vote_block "B" 3 1 "x")].
Proof.
  apply (invalid_vote_is_recorded 3 0 (vote_block "B" 3 1 "x") false voted
           (round_of voted 3 0)); by vm_compute.
Defined.

(** [accepted_vote_joins_lockset] at work: the first vote of round 0 of
    height 3; one vote of four does not make the lock-set valid, and no
    evidence is recorded. *)
Lemma accepted_vote_joins_lockset_witness :
  ∃ st', rm_add_vote 3 0 (vote_block "B" 3 0 "x") false proposed = (st', Ok (Some true))
    ∧ the_round 3 0 st'
      = Some (set_lockset (mkLockSet 4 [vote_block "B" 3 0 "x"]) (round_of proposed 3 0))
    ∧ keeps_other_rounds 3 0 proposed st'
    ∧ cm_tracked_protocol_failures st' = cm_tracked_protocol_failures proposed ++ [].
Proof.
  destruct (accepted_vote_joins_lockset 3 0 (vote_block "B" 3 0 "x") false proposed
              (round_of proposed 3 0) (mkLockSet 4 [vote_block "B" 3 0 "x"]) true)
    as (st' & Hrun & Hround & Hothers & Hevidence); [by vm_compute..|].
  exists st'. split_and!; [done..|]. exact Hevidence.
Defined.

(** [add_vote_touches_its_round_only] at work: the vote of [B] at (5, 2). *)
Lemma add_vote_touches_its_round_only_witness :
  frame node b_voted_x ∧ keeps_other_rounds 5 2 node b_voted_x.
Proof.
  apply (add_vote_touches_its_round_only (vote_block "B" 5 2 "x") node b_voted_x
           (cm_add_vote (vote_block "B" 5 2 "x") node).2).
  apply surjective_pairing.
Defined.
End AddVoteExamples.

(** ** [vote] *)

Section VoteRun.
Context `{Base}.

(** A change of the round managers that the test of a scan does not see
    leaves the outcome of the scan as it is, up to what the change keeps. *)
Lemma scan_alter {B} (P : RoundManager → bool) (f : RoundManager → RoundManager)
    (g : RoundManager → B) r hm :
  (∀ rm, P (f rm) = P rm) → (∀ rm, g (f rm) = g rm) →
  g <$> find P (reverse (sorted_rounds (set_rounds (alter f r) hm)))
  = g <$> find P (reverse (sorted_rounds hm)).
Proof.
  intros HP Hg.
  assert (∀ r' rm', hm_rounds (set_rounds (alter f r) hm) !! r' = Some rm' →
            ∃ rm, hm_rounds hm !! r' = Some rm ∧ P rm' = P rm) as Hback.
  { intros r' rm'. simpl. destruct (decide (r = r')) as [<-|Hne].
    - rewrite lookup_alter_eq. destruct (hm_rounds hm !! r) as [rm|]; [|done].
      simpl. intros [= <-]. eauto.
    - rewrite lookup_alter_ne by done. eauto. }
  destruct (find P (reverse (sorted_rounds hm))) as [rm|] eqn:E.
  - apply scan_highest in E as (r0 & Hr0 & Hrm & Hhigher).
    assert (find P (reverse (sorted_rounds (set_rounds (alter f r) hm)))
            = Some (if decide (r = r0) then f rm else rm)) as ->.
    { apply scan_highest. exists r0. simpl. split_and!.
      - case_decide as Heq.
        + subst r0. by rewrite lookup_alter_eq, Hr0.
        + by rewrite lookup_alter_ne.
      - case_decide; [by rewrite HP|done].
      - intros r' rm' Hlt Hr'. destruct (Hback _ _ Hr') as (rm0 & Hrm0 & ->). eauto. }
    simpl. case_decide; [by rewrite Hg|done].
  - assert (find P (reverse (sorted_rounds (set_rounds (alter f r) hm))) = None) as ->;
      [|done].
    apply scan_nothing. intros r' rm' Hr'. destruct (Hback _ _ Hr') as (rm0 & Hrm0 & ->).
    by eapply scan_nothing.
Qed.

Lemma hm_last_lock_alter f r hm :
  (∀ rm, rm_lock (f rm) = rm_lock rm) →
  hm_last_lock (set_rounds (alter f r) hm) = hm_last_lock hm.
Proof.
  intros Hf. unfold hm_last_lock.
  assert (∀ rm, bool_decide (is_Some (rm_lock (f rm)))
                = bool_decide (is_Some (rm_lock rm))) as HP
    by (intros rm; by rewrite Hf).
  pose proof (scan_alter (λ rm, bool_decide (is_Some (rm_lock rm))) f rm_lock r hm
                HP Hf) as Hscan.
  destruct (find _ (reverse (sorted_rounds (set_rounds _ hm))));
    destruct (find _ (reverse (sorted_rounds hm))); simpl in *; congruence.
Qed.

Lemma last_lock_update_round h r f st h' :
  (∀ rm, rm_lock (f rm) = rm_lock rm) →
  hm_last_lock (height_manager_at (update_round h r f st) h')
  = hm_last_lock (height_manager_at st h').
Proof.
  intros Hf. unfold height_manager_at, update_round. simpl.
  destruct (decide (h = h')) as [<-|Hne].
  - rewrite lookup_alter_eq. destruct (cm_heights st !! h); simpl; [|done].
    by apply hm_last_lock_alter.
  - by rewrite lookup_alter_ne.
Qed.

Lemma height_manager_at_Some st h hm :
  cm_heights st !! h = Some hm → height_manager_at st h = hm.
Proof. unfold height_manager_at. by intros ->. Qed.

Lemma heights_getitem_of_round h r st rm :
  the_round h r st = Some rm →
  heights_getitem h st = (st, Ok (height_manager_at st h)).
Proof.
  intros Hr. apply the_round_heights in Hr as (hm & Hh & _).
  rewrite (height_manager_at_Some _ _ _ Hh). by apply heights_getitem_exists.
Qed.

(** The outcome of [RoundManager.vote] on a round manager without a lock. *)
Lemma rm_vote_run h r st self :
  the_round h r st = Some self → rm_lock self = None →
  ∃ s1, only_creates st s1 ∧
    match vote_choice st self (hm_last_lock (height_manager_at st h)) with
    | Raise e => rm_vote h r st = (s1, Raise e)
    | Ok None => rm_vote h r st = (s1, Ok None)
    | Ok (Some kind) =>
        let v := mkVote (privtoaddr (cm_privkey st)) (rm_height self) (rm_round self)
                   kind in
        let s2 := update_round h r (set_lock (Some v)) s1 in
        rm_vote h r st
        = if bool_decide (hm_last_lock (height_manager_at s2 h) = Some v) then
            match ls_add (rm_lockset self) v false with
            | Ok added => (update_round h r (set_lockset added.1) s2, Ok (Some v))
            | Raise e => (s2, Raise e)
            end
          else (s2, Raise AssertionError)
    end.
Proof.
  intros Hself Hlock. unfold rm_vote.
  rewrite (bind_Ok _ _ _ _ _ (rounds_getitem_exists _ _ _ _ Hself)).
  rewrite Hlock, bool_decide_eq_false_2 by (by intros [? ?]).
  destruct (cm_log_only_creates st) as [Hlog X1]. set (s1 := (cm_log st).1) in *.
  rewrite (bind_Ok _ _ _ _ _ Hlog).
  pose proof (oc_rounds _ _ X1 _ _ _ Hself) as Hself1.
  rewrite (bind_Ok _ _ _ _ _ (heights_getitem_of_round _ _ _ _ Hself1)).
  rewrite bind_gets. cbv beta. rewrite (oc_last_lock _ _ X1).
  set (ll := hm_last_lock (height_manager_at st h)).
  assert (timed_out s1 self = timed_out st self) as ->
    by (unfold timed_out; by rewrite (oc_chainservice _ _ X1)).
  destruct (cm_log_only_creates s1) as [Hlog1 X2]. set (sA := (cm_log s1).1) in *.
  assert (only_creates st sA) as XA by (by etransitivity).
  (* the rest of the method, once a vote is chosen *)
  assert (∀ s kind, only_creates st s →
    ∃ s3, only_creates st s3 ∧
      let v := mkVote (privtoaddr (cm_privkey st)) (rm_height self) (rm_round self)
                 kind in
      let s2 := update_round h r (set_lock (Some v)) s3 in
      (let! v := gets (λ st, sign_vote st
                   (mkVote no_sender (rm_height self) (rm_round self) kind)) in
       run! cm_log in
       run! modify (update_round h r (set_lock (Some v))) in
       let! hm := heights_getitem h in
       run! assert_ (bool_decide (hm_last_lock hm = Some v)) in
       let! self := rounds_getitem h r in
       let! added := lift (ls_add (rm_lockset self) v false) in
       run! modify (update_round h r (set_lockset added.1)) in
       ret (Some v)) s
      = if bool_decide (hm_last_lock (height_manager_at s2 h) = Some v) then
          match ls_add (rm_lockset self) v false with
          | Ok added => (update_round h r (set_lockset added.1) s2, Ok (Some v))
          | Raise e => (s2, Raise e)
          end
        else (s2, Raise AssertionError)) as Hrest.
  { intros s kind Xs. destruct (cm_log_only_creates s) as [Hlogs X3].
    exists (cm_log s).1. split; [by etransitivity|]. intros v s2.
    rewrite bind_gets. unfold sign_vote. simpl. rewrite (oc_privkey _ _ Xs). fold v.
    rewrite (bind_Ok _ _ _ _ _ Hlogs).
    unfold bind at 1. unfold modify at 1. fold s2.
    assert (the_round h r s2 = Some (set_lock (Some v) self)) as Hself2.
    { unfold s2. rewrite the_round_update_round, decide_True by done.
      rewrite (oc_rounds _ _ X3 h r self); [done|]. by apply (oc_rounds _ _ Xs). }
    rewrite (bind_Ok _ _ _ _ _ (heights_getitem_of_round _ _ _ _ Hself2)).
    rewrite bind_assert. destruct (bool_decide _); [|done].
    rewrite (bind_Ok _ _ _ _ _ (rounds_getitem_exists _ _ _ _ Hself2)). simpl.
    by destruct (ls_add (rm_lockset self) v false). }
  unfold vote_choice. destruct (rm_proposal self) as [[bp|vi]|].
  - destruct (isinstance_VoteBlock ll) as [blockhash|].
    + rewrite bind_assoc, (bind_Ok _ _ _ _ _ Hlog1), bind_ret.
      apply (Hrest sA (VoteBlock blockhash) XA).
    + rewrite !bind_assoc, bind_assert. destruct (blk_linked (bp_block bp)); simpl;
        [|by exists s1].
      rewrite !bind_assoc, bind_assert.
      destruct (ls_has_noquorum (bp_lockset bp) || bool_decide (rm_round self = 0));
        simpl; [|by exists s1].
      rewrite !bind_assoc, bind_gets. cbv beta. rewrite !bind_assoc, bind_assert.
      assert (cm_head s1 = cm_head st) as ->
        by (unfold cm_head; by rewrite (oc_chainservice _ _ X1)).
      destruct (bool_decide (prevhash (bp_block bp) = hash (cm_head st)));
        [|by exists s1].
      rewrite !bind_assoc, (bind_Ok _ _ _ _ _ Hlog1), bind_ret.
      apply (Hrest sA (VoteBlock (bp_blockhash bp)) XA).
  - rewrite !bind_assoc, bind_assert. unfold vi_blockhash.
    destruct (ls_has_quorum_possible (vi_lockset vi)) as [blockhash|] eqn:Eq.
    + rewrite bool_decide_eq_true_2 by (by eexists).
      rewrite !bind_assoc, (bind_Ok _ _ _ _ _ Hlog1).
      rewrite !bind_assoc, bind_not_None, bind_ret.
      apply (Hrest sA (VoteBlock blockhash) XA).
    + rewrite bool_decide_eq_false_2 by (by intros [? ?]). by exists s1.
  - destruct (timed_out st self); [|by exists s1].
    destruct (isinstance_VoteBlock ll) as [blockhash|].
    + rewrite bind_assoc, (bind_Ok _ _ _ _ _ Hlog1), bind_ret.
      apply (Hrest sA (VoteBlock blockhash) XA).
    + rewrite bind_assoc, (bind_Ok _ _ _ _ _ Hlog1), bind_ret.
      apply (Hrest sA VoteNil XA).
Qed.
End VoteRun.

Section VoteStatements.
Context `{Base}.

Lemma rm_vote_locked h r st self :
  the_round h r st = Some self → is_Some (rm_lock self) →
  rm_vote h r st = (st, Ok None).
Proof.
  intros Hself Hlock. unfold rm_vote.
  rewrite (bind_Ok _ _ _ _ _ (rounds_getitem_exists _ _ _ _ Hself)).
  by rewrite bool_decide_eq_true_2.
Qed.

(** What a vote that [vote] returns tells. *)
Lemma rm_vote_inv h r st self st' v :
  the_round h r st = Some self →
  rm_vote h r st = (st', Ok (Some v)) →
  rm_lock self = None
  ∧ v = mkVote (privtoaddr (cm_privkey st)) (rm_height self) (rm_round self) (v_kind v)
  ∧ vote_choice st self (hm_last_lock (height_manager_at st h)) = Ok (Some (v_kind v))
  ∧ ∃ s1 ls success, only_creates st s1
      ∧ hm_last_lock (height_manager_at (update_round h r (set_lock (Some v)) s1) h)
        = Some v
      ∧ ls_add (rm_lockset self) v false = Ok (ls, success)
      ∧ st' = update_round h r (set_lockset ls)
                (update_round h r (set_lock (Some v)) s1).
Proof.
  intros Hself Hrun. destruct (rm_lock self) as [w|] eqn:Hlock.
  { rewrite (rm_vote_locked h r st self) in Hrun; [done..|]. by rewrite Hlock. }
  split; [done|].
  destruct (rm_vote_run h r st self Hself Hlock) as (s1 & X1 & Hcases).
  destruct (vote_choice _ _ _) as [[kind|]|e]; [|congruence..].
  simpl in Hcases. rewrite Hcases in Hrun. clear Hcases.
  case_bool_decide as Hlast; [|done].
  destruct (ls_add _ _ false) as [[ls success]|e] eqn:Hadd; [|done].
  injection Hrun as <- <-. simpl. split_and!; [done..|].
  by exists s1, ls, success.
Qed.

(** X10.  [vote] votes at most once in a round: on a round manager that has
    a lock it returns [None] and leaves the manager as it is. *)
Theorem vote_at_most_once h r st self :
  the_round h r st = Some self → is_Some (rm_lock self) →
  rm_vote h r st = (st, Ok None).
Proof. apply rm_vote_locked. Qed.

(** X11.  A vote that [vote] returns is the vote of the round, signed with
    the key of the node; the round had no lock, and now the vote is its lock,
    is in its lock-set and is the last lock of the height; the other round
    managers stay as they are; and a second call of [vote] returns
    [None]. *)
Theorem vote_locks_the_round h r st self st' v :
  the_round h r st = Some self →
  rm_vote h r st = (st', Ok (Some v)) →
  rm_lock self = None
  ∧ v = mkVote (privtoaddr (cm_privkey st)) (rm_height self) (rm_round self) (v_kind v)
  ∧ (∃ ls success, ls_add (rm_lockset self) v false = Ok (ls, success)
       ∧ the_round h r st' = Some (set_lockset ls (set_lock (Some v) self)))
  ∧ keeps_other_rounds h r st st'
  ∧ hm_last_lock (height_manager_at st' h) = Some v
  ∧ rm_vote h r st' = (st', Ok None).
Proof.
  intros Hself Hrun.
  destruct (rm_vote_inv h r st self st' v Hself Hrun)
    as (Hlock & Hv & _ & s1 & ls & success & X1 & Hlast & Hadd & ->).
  assert (the_round h r (update_round h r (set_lockset ls)
                           (update_round h r (set_lock (Some v)) s1))
          = Some (set_lockset ls (set_lock (Some v) self))) as Hself'.
  { rewrite !the_round_update_round, !decide_True by done.
    by rewrite (oc_rounds _ _ X1 _ _ _ Hself). }
  split_and!; [done|done| | | |].
  - by exists ls, success.
  - etransitivity; [by apply only_creates_keeps|].
    etransitivity; apply update_round_keeps.
  - by rewrite last_lock_update_round.
  - eapply rm_vote_locked; [exact Hself'|]. by eexists.
Qed.


(** X13.  Without a proposal and before the timeout of the round, [vote]
    returns [None] and the round stays without a lock: nothing changes but
    the managers that logging creates. *)
Theorem vote_waits_for_timeout h r st self :
  the_round h r st = Some self → rm_lock self = None →
  rm_proposal self = None → timed_out st self = false →
  ∃ st', rm_vote h r st = (st', Ok None) ∧ only_creates st st'
    ∧ the_round h r st' = Some self.
Proof.
  intros Hself Hlock Hprop Htime.
  destruct (rm_vote_run h r st self Hself Hlock) as (s1 & X1 & Hcases).
  unfold vote_choice in Hcases. rewrite Hprop, Htime in Hcases.
  exists s1. split_and!; [done..|]. by apply (oc_rounds _ _ X1).
Qed.

End VoteStatements.

Section VoteStatementExamples.
Import SpecBase Scenario.

(** [vote_at_most_once] at work: the node that voted at (3, 0). *)
Lemma vote_at_most_once_witness : rm_vote 3 0 locked_x = (locked_x, Ok None).
Proof.
  apply (vote_at_most_once 3 0 locked_x (round_of locked_x 3 0)); [by vm_compute|].
  vm_compute. by eexists.
Defined.

(** [vote_locks_the_round] at work: the vote of the node for block [x]. *)
Lemma vote_locks_the_round_witness :
  hm_last_lock (height_manager_at locked_x 3) = Some (vote_block "A" 3 0 "x")
  ∧ rm_vote 3 0 locked_x = (locked_x, Ok None).
Proof.
  destruct (vote_locks_the_round 3 0 proposed (round_of proposed 3 0) locked_x
              (vote_block "A" 3 0 "x")) as (_ & _ & _ & _ & Hlast & Hagain);
    [by vm_compute..|].
  by split.
Defined.


(** [vote_waits_for_timeout] at work: no proposal and no alarm yet. *)
Lemma vote_waits_for_timeout_witness :
  ∃ st', rm_vote 3 0 waiting = (st', Ok None) ∧ only_creates waiting st'
    ∧ the_round 3 0 st' = Some (round_of waiting 3 0).
Proof.
  apply (vote_waits_for_timeout 3 0 waiting (round_of waiting 3 0)); by vm_compute.
Defined.

End VoteStatementExamples.

(** ** [propose] and the proposals that are added *)

Section ProposalStatements.
Context `{Base}.

(** X15.  [propose] on a round of which this node is not the proposer
    returns [None], and changes nothing but the managers that logging
    creates: the round keeps the proposal it has, or none. *)
Theorem propose_only_by_proposer h r st self a :
  the_round h r st = Some self →
  proposer (cm_contract st) (rm_height self) (rm_round self) = Ok a →
  a ≠ cm_coinbase st →
  ∃ st', rm_propose h r st = (st', Ok None) ∧ only_creates st st'
    ∧ the_round h r st' = Some self.
Proof.
  intros Hself Hprop Hne. unfold rm_propose.
  rewrite (bind_Ok _ _ _ _ _ (rounds_getitem_exists _ _ _ _ Hself)).
  rewrite bind_gets, Hprop, bind_lift_Ok.
  destruct (cm_log_only_creates st) as [Hlog X1].
  rewrite (bind_Ok _ _ _ _ _ Hlog), bind_gets.
  assert (cm_coinbase (cm_log st).1 = cm_coinbase st) as ->
    by (unfold cm_coinbase; by rewrite (oc_chainservice _ _ X1)).
  rewrite bool_decide_eq_false_2 by done. simpl.
  eexists. split_and!; [done..|]. by apply (oc_rounds _ _ X1).
Qed.

(** X16.  [propose] never replaces a proposal: on a round that has one, the
    proposer returns [None] when the proposal is its own and the round has a
    lock, and raises an [AssertionError] otherwise; the round manager stays
    as it is. *)
Theorem propose_keeps_its_proposal h r st self q :
  the_round h r st = Some self →
  proposer (cm_contract st) (rm_height self) (rm_round self) = Ok (cm_coinbase st) →
  rm_proposal self = Some q →
  ∃ st', only_creates st st' ∧ the_round h r st' = Some self
    ∧ rm_propose h r st
      = (st', if bool_decide (p_sender q = cm_coinbase st)
                 && bool_decide (is_Some (rm_lock self))
              then Ok None else Raise AssertionError).
Proof.
  intros Hself Hprop Hq. unfold rm_propose.
  rewrite (bind_Ok _ _ _ _ _ (rounds_getitem_exists _ _ _ _ Hself)).
  rewrite bind_gets, Hprop, bind_lift_Ok.
  destruct (cm_log_only_creates st) as [Hlog X1].
  rewrite (bind_Ok _ _ _ _ _ Hlog), bind_gets.
  assert (cm_coinbase (cm_log st).1 = cm_coinbase st) as ->
    by (unfold cm_coinbase; by rewrite (oc_chainservice _ _ X1)).
  rewrite bool_decide_eq_true_2 by done. simpl. rewrite Hq.
  exists (cm_log st).1. split_and!; [done|by apply (oc_rounds _ _ X1)|].
  rewrite bind_assert. destruct (bool_decide (p_sender q = cm_coinbase st)); [|done].
  rewrite bind_assert. by destruct (bool_decide (is_Some (rm_lock self))).
Qed.

(** X17.  The first proposal of a round wins: [RoundManager.add_proposal]
    with a proposal other than the one the round has raises an
    [AssertionError], and the round manager stays as it is. *)
Theorem add_proposal_first_seen_wins h r st self q p :
  the_round h r st = Some self → rm_proposal self = Some q → q ≠ p →
  ∃ st', rm_add_proposal h r p st = (st', Raise AssertionError)
    ∧ only_creates st st' ∧ the_round h r st' = Some self.
Proof.
  intros Hself Hq Hne. unfold rm_add_proposal.
  destruct (cm_log_only_creates st) as [Hlog X1].
  rewrite (bind_Ok _ _ _ _ _ Hlog).
  pose proof (oc_rounds _ _ X1 _ _ _ Hself) as Hself1.
  rewrite (bind_Ok _ _ _ _ _ (rounds_getitem_exists _ _ _ _ Hself1)).
  exists (cm_log st).1. split_and!; [|done..].
  rewrite bind_assert. destruct (match p with PBlock _ => _ | PInstr _ => _ end); [|done].
  rewrite bind_assert, Hq. by rewrite bool_decide_eq_false_2.
Qed.

Lemma rm_add_proposal_true h r p st st' b :
  rm_add_proposal h r p st = (st', Ok b) → b = true.
Proof.
  unfold rm_add_proposal. intros Hrun.
  repeat (apply bind_Ok_inv in Hrun as (? & ? & _ & Hrun)). by injection Hrun as _ <-.
Qed.

Lemma hm_add_proposal_true h p st st' b :
  hm_add_proposal h p st = (st', Ok b) → b = true.
Proof.
  unfold hm_add_proposal. intros Hrun.
  do 5 (apply bind_Ok_inv in Hrun as (? & ? & _ & Hrun)).
  by eapply rm_add_proposal_true.
Qed.

(** X18.  A proposal that [add_proposal] accepts has passed every check, and
    is then the proposal of its round: the answer is [True]; the proposal is
    of the current height or, for a voting instruction, above; a block
    proposal is of the current height, the chain service linked its block,
    and the proposal with the linked block is the proposal of the round and
    is stored already or is a block candidate under its block hash. *)
Theorem accepted_proposal_is_stored st p st' b :
  cm_add_proposal p st = (st', Ok (Some b)) →
  b = true
  ∧ cm_height st ≤ p_height p
  ∧ entry_checks (cm_contract st) p = true
  ∧ late_checks st p = true
  ∧ cm_chainservice st' = cm_chainservice st
  ∧ match p with
    | PInstr vi => proposal_at st' (vi_height vi) (vi_round vi) = Some p
    | PBlock bp =>
        bp_height bp = cm_height st
        ∧ ∃ blk, link_block (cm_chainservice st) (bp_block bp) = Some blk
            ∧ let bp' := mkBlockProposal (bp_sender bp) (bp_height bp) (bp_round bp)
                           blk (bp_signing_lockset bp) (bp_round_lockset bp) in
              proposal_at st' (bp_height bp) (bp_round bp) = Some (PBlock bp')
              ∧ (cm_has_blockproposal st (bp_blockhash bp') = true
                 ∨ cm_block_candidates st' !! bp_blockhash bp' = Some bp')
    end.
Proof.
  intros Hfirst.
  destruct (decide (p_height p < cm_height st)) as [Hpast|Hpast].
  { unfold cm_add_proposal in Hfirst.
    destruct (cm_log_same st) as (Hlog & _).
    rewrite (bind_Ok _ _ _ _ _ Hlog), bind_gets, cm_log_height in Hfirst.
    rewrite bool_decide_eq_true_2 in Hfirst by done.
    destruct (cm_log_same (cm_log st).1) as (Hlog' & _).
    by rewrite (bind_Ok _ _ _ _ _ Hlog') in Hfirst. }
  destruct (decide (validators (cm_contract st) = [])) as [Hnil|Hne].
  { unfold cm_add_proposal in Hfirst.
    destruct (cm_log_same st) as (Hlog & _ & Hc & _).
    rewrite (bind_Ok _ _ _ _ _ Hlog), bind_gets, cm_log_height in Hfirst.
    rewrite bool_decide_eq_false_2 in Hfirst by done.
    rewrite bind_gets, Hc in Hfirst. unfold isvalidator in Hfirst.
    by rewrite Hnil in Hfirst. }
  rewrite cm_add_proposal_entry in Hfirst by (done || lia).
  destruct (entry_checks (cm_contract st) p) eqn:Hentry; [|done].
  apply bind_Ok_inv in Hfirst as ([] & sA & Hvotes & Hfirst).
  pose proof (cm_log_frame _ _ _ (proj1 (cm_log_same st))) as F0.
  pose proof (add_votes_frame _ _ _ _ Hvotes) as FA.
  assert (frame st sA) as FsA by (by etransitivity).
  destruct p as [bp|vi]; simpl.
  - unfold check at 1 in Hfirst.
    destruct (bool_decide (number (bp_block bp) = bp_height bp)) eqn:E1; [|done].
    rewrite bind_ret in Hfirst. unfold check at 1 in Hfirst.
    destruct (ls_has_noquorum (bp_lockset bp) || bool_decide (bp_round bp = 0)) eqn:E2;
      [|done].
    rewrite bind_ret, bind_gets in Hfirst.
    assert (cm_height sA = cm_height st) as HhA
      by (unfold cm_height, cm_head; by rewrite (frame_chainservice _ _ FsA)).
    rewrite HhA in Hfirst. case_bool_decide as Hfut.
    { destruct (cm_log_same sA) as (Hl & _).
      by rewrite (bind_Ok _ _ _ _ _ Hl) in Hfirst. }
    rewrite bind_gets in Hfirst. cbv beta zeta in Hfirst.
    rewrite (frame_chainservice _ _ FsA) in Hfirst.
    destruct (link_block (cm_chainservice st) (bp_block bp)) as [blk|] eqn:Elink;
      [|done].
    rewrite bool_decide_eq_true_2, bind_check_true in Hfirst by done.
    apply bind_Ok_inv in Hfirst as ([] & sB & Hadd & Hfirst).
    apply bind_Ok_inv in Hfirst as (hm & sC & Hget & Hfirst).
    apply bind_Ok_inv in Hfirst as (b' & sD & Hhm & Hfirst).
    injection Hfirst as <- <-.
    apply cm_add_block_proposal_post in Hadd as (HcsB & HcB & Hknown).
    destruct (frame_same_outside _ _ (heights_getitem_frame _ _ _ _ Hget))
      as (HcsC & HcC & HcandC).
    pose proof (hm_add_proposal_true _ _ _ _ _ Hhm) as ->.
    apply hm_add_proposal_post in Hhm as (Hat & HcsD & HcD & HcandD).
    rewrite (frame_chainservice _ _ FsA) in HcsB. simpl in *.
    split_and!; [done|lia|done| |congruence|lia|].
    + unfold block_checks. rewrite E1, E2. simpl. by rewrite ?orb_true_r.
    + exists blk. split_and!; [done|done|].
      destruct Hknown as [Hk|Hk].
      * left. by rewrite <- (has_blockproposal_same st sA) by (by destruct FsA).
      * right. by rewrite HcandD, HcandC.
  - unfold check at 1 in Hfirst.
    destruct (bool_decide (is_Some _)) eqn:E1; [|done].
    rewrite bind_ret in Hfirst.
    apply bind_Ok_inv in Hfirst as (hm & sC & Hget & Hfirst).
    apply bind_Ok_inv in Hfirst as (b' & sD & Hhm & Hfirst).
    injection Hfirst as <- <-.
    destruct (frame_same_outside _ _ (heights_getitem_frame _ _ _ _ Hget))
      as (HcsC & HcC & HcandC).
    pose proof (hm_add_proposal_true _ _ _ _ _ Hhm) as ->.
    apply hm_add_proposal_post in Hhm as (Hat & HcsD & HcD & HcandD).
    simpl in *. split_and!; [done|lia|done|done| |done].
    rewrite HcsD, HcsC. apply (frame_chainservice _ _ FsA).
Qed.

(** X19.  [add_block_proposal]: a proposal whose block hash is stored already
    is left aside, and nothing changes but the managers that logging
    creates; one that is not stored becomes the block candidate of its block
    hash, the other candidates staying as they are, and only if its signing
    lock-set has a quorum and is of the height before; when that fails, the
    call raises an [AssertionError] and the manager is as before. *)
Theorem add_block_proposal_registers bp st :
  (cm_has_blockproposal st (bp_blockhash bp) = true →
   ∃ st', cm_add_block_proposal bp st = (st', Ok tt) ∧ only_creates st st')
  ∧ (cm_has_blockproposal st (bp_blockhash bp) = false →
     ∀ st', cm_add_block_proposal bp st = (st', Ok tt) →
       is_Some (ls_has_quorum (bp_signing_lockset bp))
       ∧ ls_height (bp_signing_lockset bp) = bp_height bp - 1
       ∧ cm_block_candidates st' = <[bp_blockhash bp := bp]> (cm_block_candidates st))
  ∧ (cm_has_blockproposal st (bp_blockhash bp) = false →
     ls_has_quorum (bp_signing_lockset bp) = None
     ∨ ls_height (bp_signing_lockset bp) ≠ bp_height bp - 1 →
     cm_add_block_proposal bp st = (st, Raise AssertionError)).
Proof.
  unfold cm_add_block_proposal. rewrite bind_gets. split_and!.
  - intros ->. destruct (cm_log_only_creates st) as [Hlog X1]. eauto.
  - intros -> st'. rewrite !bind_assert.
    case_bool_decide as Hq; [|done]. case_bool_decide as Hh; [|done].
    intros Hrun. apply bind_Ok_inv in Hrun as ([] & s1 & Hvotes & Hrun).
    injection Hrun as <-. simpl.
    by rewrite (frame_candidates _ _ (add_votes_frame _ _ _ _ Hvotes)).
  - intros -> Hfails. rewrite bind_assert.
    case_bool_decide as Hq; [|done]. rewrite bind_assert.
    destruct Hfails as [Hnone|Hh]; [rewrite Hnone in Hq; by destruct Hq|].
    by rewrite bool_decide_eq_false_2.
Qed.
End ProposalStatements.

Section ProposalStatementExamples.
Import SpecBase Scenario.

(** [propose_only_by_proposer] at work: [C] is the proposer of (3, 0), not
    this node. *)
Lemma propose_only_by_proposer_witness :
  ∃ st', rm_propose 3 0 proposed = (st', Ok None) ∧ only_creates proposed st'
    ∧ the_round 3 0 st' = Some (round_of proposed 3 0).
Proof.
  apply (propose_only_by_proposer 3 0 proposed (round_of proposed 3 0) "C");
    by vm_compute.
Defined.

(** [propose_keeps_its_proposal] at work: the node proposed at (4, 0) and
    has not voted there; a second [propose] fails its assertion. *)
Lemma propose_keeps_its_proposal_witness :
  ∃ st', only_creates proposed4 st'
    ∧ the_round 4 0 st' = Some (round_of proposed4 4 0)
    ∧ rm_propose 4 0 proposed4 = (st', Raise AssertionError).
Proof.
  destruct (propose_keeps_its_proposal 4 0 proposed4 (round_of proposed4 4 0)
              (block_proposal_of committed (round_of committed 4 0) quorum30 quorum30))
    as (st' & Hcreates & Hround & Hrun); [by vm_compute..|].
  exists st'. split_and!; [done..|]. exact Hrun.
Defined.

(** [add_proposal_first_seen_wins] at work: round 0 of height 3 has the
    proposal of block [x], and is handed the proposal of [y]. *)
Lemma add_proposal_first_seen_wins_witness :
  ∃ st', rm_add_proposal 3 0 linked3y proposed = (st', Raise AssertionError)
    ∧ only_creates proposed st'
    ∧ the_round 3 0 st' = Some (round_of proposed 3 0).
Proof.
  apply (add_proposal_first_seen_wins 3 0 proposed (round_of proposed 3 0)
           (PBlock linked3) linked3y); by vm_compute.
Defined.

(** [accepted_proposal_is_stored] at work: the proposal of block 3. *)
Lemma accepted_proposal_is_stored_witness :
  entry_checks (cm_contract node) proposal3 = true
  ∧ late_checks node proposal3 = true
  ∧ proposal_at proposed 3 0 = Some (PBlock linked3)
  ∧ cm_block_candidates proposed !! "x" = Some linked3.
Proof.
  destruct (accepted_proposal_is_stored node proposal3 proposed true)
    as (_ & _ & Hentry & Hlate & _ & _ & blk & Hlink & Hat & Hknown); [by vm_compute|].
  assert (blk = mkBlock true 3 "x" "h2") as -> by (vm_compute in Hlink; congruence).
  split_and!; [done..|]. by destruct Hknown as [Hk|Hk]; [vm_compute in Hk|].
Defined.

(** [add_block_proposal_registers] at work: the proposal of block 3 becomes
    the candidate of [x]. *)
Lemma add_block_proposal_registers_witness :
  cm_block_candidates (after (cm_add_block_proposal linked3) node)
  = <["x" := linked3]> (cm_block_candidates node).
Proof.
  destruct (add_block_proposal_registers linked3 node) as (_ & Hnew & _).
  destruct (Hnew ltac:(by vm_compute) (after (cm_add_block_proposal linked3) node))
    as (_ & _ & Hcand); [by vm_compute|].
  exact Hcand.
Defined.
End ProposalStatementExamples.

(** ** [commit], beyond the quorum *)

Section CommitStatements.
Context `{Base}.



Lemma commit_loop_chained recurse ps st :
  (∀ s, chained (cm_head s) (recurse s).1) →
  chained (cm_head st) (commit_loop recurse ps st).1.
Proof.
  intros Hrec. revert st. induction ps as [|p ps IH]; intros st; simpl; [done|].
  destruct (cm_has_quorum_at (bp_height p) st) as [st1 [quorum|e]] eqn:Hq; [|done].
  apply cm_has_quorum_at_run in Hq as [F _].
  assert (cm_head st1 = cm_head st) as Hhead
    by (unfold cm_head; by rewrite (frame_chainservice _ _ F)).
  case_bool_decide; [|rewrite <- Hhead; apply IH].
  destruct (commit_block _ _) as [cs success] eqn:Hcommit. destruct success.
  - case_bool_decide as Hnew.
    + match goal with
      | |- context [recurse ?s] =>
          specialize (Hrec s); destruct (recurse s) as [calls out]
      end.
      simpl in *. split; [done|]. by rewrite <- Hnew.
    + simpl. done.
  - simpl. done.
Qed.

(** X21.  The blocks that one run of [commit] commits form a chain: the
    first call of [commit_block] is made with the head as it was, and every
    later one with the block of the call before as head. *)
Theorem commit_commits_a_chain depth st :
  chained (cm_head st) (cm_commit depth st).1.
Proof.
  revert st. induction depth as [|depth IH]; intros st; simpl; [done|].
  destruct (cm_log_only_creates st) as [_ X1].
  assert (cm_head st = cm_head (cm_log st).1) as ->
    by (unfold cm_head; by rewrite (oc_chainservice _ _ X1)).
  apply commit_loop_chained. exact IH.
Qed.

#[global] Instance keeps_heights_preorder : PreOrder keeps_heights.
Proof.
  split.
  - by intros st k hm.
  - intros s1 s2 s3 K1 K2 k hm Hk. by apply K2, K1.
Qed.

Lemma cm_has_quorum_at_keeps height st st' r :
  cm_has_quorum_at height st = (st', r) →
  keeps_heights st st' ∧ frame st st'
  ∧ ∃ hm, cm_heights st' !! height = Some hm ∧ r = hm_has_quorum hm.
Proof.
  intros Hrun. destruct (cm_has_quorum_at_run _ _ _ _ Hrun) as [F Hhm].
  split_and!; [|done..].
  unfold cm_has_quorum_at in Hrun.
  destruct (heights_getitem_Ok height st) as (s & hm & Hget).
  rewrite (bind_Ok _ _ _ _ _ Hget) in Hrun. injection Hrun as <- _.
  unfold heights_getitem in Hget. intros k hm' Hk.
  destruct (cm_heights st !! height) eqn:E; injection Hget as <- _; [done|].
  simpl. rewrite lookup_insert_ne; [done|]. congruence.
Qed.

(** A run of the loop that returns has either come to the end of the
    candidates without finding one with a quorum, or has returned what the
    call of [commit] after a committed block returned. *)
Lemma commit_loop_Ok recurse ps st calls st' :
  commit_loop recurse ps st = (calls, (st', Ok tt)) →
  (calls = [] ∧ keeps_heights st st' ∧ frame st st'
   ∧ Forall (λ p, ∃ hm quorum, cm_heights st' !! bp_height p = Some hm
                    ∧ hm_has_quorum hm = Ok quorum
                    ∧ quorum ≠ Some (bp_blockhash p)) ps)
  ∨ ∃ s calls', recurse s = (calls', (st', Ok tt)).
Proof.
  revert st. induction ps as [|p ps IH]; intros st; simpl.
  { intros [= <- <-]. left. split_and!; [done|reflexivity|reflexivity|constructor]. }
  destruct (cm_has_quorum_at (bp_height p) st) as [st1 [quorum|e]] eqn:Hq; [|done].
  apply cm_has_quorum_at_keeps in Hq as (K1 & F1 & hm & Hhm & Hquorum).
  case_bool_decide as Heq.
  - destruct (commit_block _ _) as [cs success]. destruct success; [|done].
    case_bool_decide; [|done].
    match goal with
    | |- context [recurse ?s] => destruct (recurse s) as [calls0 out] eqn:Hrec
    end.
    intros [= <- <-]. right. eauto.
  - intros Hrun. destruct (IH _ Hrun) as [(-> & K2 & F2 & Hps)|Hrec]; [|by right].
    left. split_and!; [done|by etransitivity|by etransitivity|].
    constructor; [|done]. exists hm, quorum. split_and!; [by apply K2|done..].
Qed.

(** X22.  [commit] stops only when nothing is left to commit: when it
    returns, no block candidate that follows the head has the quorum of its
    height. *)
Theorem commit_leaves_nothing_to_commit depth st calls st' :
  cm_commit depth st = (calls, (st', Ok tt)) → nothing_to_commit st'.
Proof.
  revert st calls. induction depth as [|depth IH]; intros st calls; simpl; [done|].
  intros Hrun. apply commit_loop_Ok in Hrun as [(_ & _ & F & Hps)|(s & calls' & Hrec)];
    [|by eapply IH].
  intros k p Hk Hprev. rewrite Forall_forall in Hps. apply Hps.
  unfold commit_candidates. apply list_elem_of_filter. split.
  - unfold cm_head in *. by rewrite <- (frame_chainservice _ _ F).
  - apply list_elem_of_fmap. exists (k, p). split; [done|].
    apply elem_of_map_to_list. by rewrite <- (frame_candidates _ _ F).
Qed.
End CommitStatements.

Section CommitStatementExamples.
Import SpecBase Scenario.

(** [commit_leaves_nothing_to_commit] at work: once block 3 is committed, its
    candidate no longer follows the head. *)
Lemma commit_leaves_nothing_to_commit_witness : nothing_to_commit committed.
Proof.
  apply (commit_leaves_nothing_to_commit 5 voted (cm_commit 5 voted).1 committed).
  by vm_compute.
Defined.
End CommitStatementExamples.

(** ** The lock-sets that the manager hands out *)

Section LockSetStatements.
Context `{Base}.

Lemma last_quorum_lockset_unique hm ls :
  hm_last_quorum_lockset hm = Ok (Some ls) →
  ∃ r rm, hm_rounds hm !! r = Some rm ∧ quorate rm = true ∧ rm_lockset rm = ls
    ∧ ∀ r' rm', r' ≠ r → hm_rounds hm !! r' = Some rm' → quorate rm' = false.
Proof.
  intros Hlast. pose proof (quorum_scan_filter None (sorted_rounds hm)) as Hscan.
  fold (hm_last_quorum_lockset hm) in Hscan. rewrite Hlast in Hscan.
  destruct (filter _ (sorted_rounds hm)) as [|rm [|rm' rest]] eqn:Hf; [done| |done].
  injection Hscan as ->.
  apply filter_cons_split in Hf as (l1 & l2 & Hsplit & _ & Hq & _).
  assert (rm ∈ sorted_rounds hm) as Hin.
  { rewrite Hsplit. apply elem_of_app. right. apply list_elem_of_here. }
  apply sorted_rounds_elem in Hin as [r Hr].
  exists r, rm. split_and!; [done..|]. intros r' rm' Hne Hr'.
  destruct (quorate rm') eqn:Hq'; [|done].
  pose proof (last_quorum_lockset_two_quorums hm r' r rm' rm Hne Hr' Hr Hq' Hq).
  congruence.
Qed.

(** X23.  [HeightManager.has_quorum] gives a block hash only when exactly one
    round of the height has a valid lock-set with a quorum, and the block
    hash is the one that lock-set has a quorum for. *)
Theorem has_quorum_is_the_quorum hm blockhash :
  hm_has_quorum hm = Ok (Some blockhash) →
  ∃ r rm, hm_rounds hm !! r = Some rm
    ∧ ls_is_valid (rm_lockset rm) = true
    ∧ ls_has_quorum (rm_lockset rm) = Some blockhash
    ∧ ∀ r' rm', r' ≠ r → hm_rounds hm !! r' = Some rm' → quorate rm' = false.
Proof.
  unfold hm_has_quorum. intros Hq.
  destruct (hm_last_quorum_lockset hm) as [[ls|]|e] eqn:Hlast; [|done..].
  destruct (last_quorum_lockset_unique hm ls Hlast) as (r & rm & Hr & Hrm & <- & Hone).
  exists r, rm. unfold quorate in Hrm. apply andb_true_iff in Hrm as [Hvalid _].
  split_and!; [done..| |done].
  destruct (ls_bool (rm_lockset rm)); congruence.
Qed.

Lemma height_manager_at_round st k r rm :
  hm_rounds (height_manager_at st k) !! r = Some rm → the_round k r st = Some rm.
Proof.
  unfold height_manager_at, the_round. by destruct (cm_heights st !! k).
Qed.

(** X24.  The lock-set that [last_committing_lockset] gives is the lock-set
    of a round of the height before the current one, valid and with a
    quorum; the lock-set that [last_valid_lockset] gives is valid, and is the
    lock-set of a round of the current height or of the height before. *)
Theorem last_locksets_are_valid st :
  (∀ st' ls, cm_last_committing_lockset st = (st', Ok (Some ls)) →
     ls_is_valid ls = true ∧ is_Some (ls_has_quorum ls)
     ∧ ∃ r rm, the_round (cm_height st - 1) r st = Some rm ∧ rm_lockset rm = ls)
  ∧ (∀ st' ls, cm_last_valid_lockset st = (st', Ok (Some ls)) →
       ls_is_valid ls = true
       ∧ ∃ h r rm, (h = cm_height st ∨ h = cm_height st - 1)
           ∧ the_round h r st = Some rm ∧ rm_lockset rm = ls).
Proof.
  assert (∀ ls, last_committing_lockset st = Ok (Some ls) →
            ls_is_valid ls = true ∧ is_Some (ls_has_quorum ls)
            ∧ ∃ r rm, the_round (cm_height st - 1) r st = Some rm ∧ rm_lockset rm = ls)
    as Hcommitting.
  { intros ls Hlast. unfold last_committing_lockset in Hlast.
    apply last_quorum_lockset_unique in Hlast as (r & rm & Hr & Hq & <- & _).
    unfold quorate in Hq. apply andb_true_iff in Hq as [Hvalid Hquorum].
    apply bool_decide_eq_true in Hquorum. split_and!; [done..|].
    exists r, rm. split; [|done]. by apply height_manager_at_round. }
  split.
  - intros st' ls Hrun.
    destruct (cm_last_committing_lockset_run st) as (s & Hrun' & _).
    rewrite Hrun in Hrun'. injection Hrun' as _ Hlast. by apply Hcommitting.
  - intros st' ls Hrun.
    destruct (cm_last_valid_lockset_run st) as (s & Hrun' & _).
    rewrite Hrun in Hrun'. injection Hrun' as _ Hlast. symmetry in Hlast.
    unfold last_valid_lockset in Hlast.
    assert (last_committing_lockset st = Ok (Some ls) →
            ls_is_valid ls = true
            ∧ ∃ h r rm, (h = cm_height st ∨ h = cm_height st - 1)
                ∧ the_round h r st = Some rm ∧ rm_lockset rm = ls) as Hfallback.
    { intros Hc. destruct (Hcommitting ls Hc) as (Hvalid & _ & r & rm & Hr & Hls).
      split; [done|]. exists (cm_height st - 1), r, rm. auto. }
    unfold hm_last_valid_lockset in Hlast.
    destruct (find _ _) as [rm|] eqn:Hfind; simpl in Hlast; [|by apply Hfallback].
    destruct (ls_bool (rm_lockset rm)); [|by apply Hfallback].
    injection Hlast as <-. apply scan_highest in Hfind as (r & Hr & Hvalid & _).
    split; [done|]. exists (cm_height st), r, rm. split_and!; [by left| |done].
    by apply height_manager_at_round.
Qed.
End LockSetStatements.

Section LockSetExamples.
Import SpecBase Scenario.

(** [has_quorum_is_the_quorum] at work: the quorum for [x] at height 3. *)
Lemma has_quorum_is_the_quorum_witness :
  ∃ r rm, hm_rounds (height_manager_at voted 3) !! r = Some rm
    ∧ ls_is_valid (rm_lockset rm) = true
    ∧ ls_has_quorum (rm_lockset rm) = Some "x"
    ∧ ∀ r' rm', r' ≠ r → hm_rounds (height_manager_at voted 3) !! r' = Some rm' →
        quorate rm' = false.
Proof.
  apply (has_quorum_is_the_quorum (height_manager_at voted 3) "x"). by vm_compute.
Defined.

(** [last_locksets_are_valid] at work: once block 3 is committed, the last
    committing lock-set is the quorum of round 0 of height 3. *)
Lemma last_locksets_are_valid_witness :
  ls_is_valid quorum30 = true ∧ is_Some (ls_has_quorum quorum30)
  ∧ ∃ r rm, the_round (cm_height committed - 1) r committed = Some rm
      ∧ rm_lockset rm = quorum30.
Proof.
  destruct (last_locksets_are_valid committed) as [Hcommitting _].
  apply (Hcommitting (cm_last_committing_lockset committed).1 quorum30).
  by vm_compute.
Defined.
End LockSetExamples.

(** ** What the entry points keep *)

Section Steady.
Context `{Base}.

#[global] Instance steady_preorder : PreOrder steady.
Proof.
  split.
  - intros st. split; try done; [|by left]. exists []. by rewrite app_nil_r.
  - intros s1 s2 s3 [C1 K1 V1 (e1 & E1) B1] [C2 K2 V2 (e2 & E2) B2].
    split; try congruence.
    + exists (e1 ++ e2). by rewrite E2, E1, app_assoc.
    + intros k p Hk. destruct (B2 _ _ Hk) as [Hk2|?]; [|by right]. by apply B1.
Qed.

Lemma frame_steady st st' : frame st st' → steady st st'.
Proof.
  intros [C K V B _ (ev & E & _)]. split; try done; [by exists ev|].
  intros k p Hk. left. by rewrite <- B.
Qed.

Lemma preserves_frame_steady {A} (m : M A) : preserves frame m → preserves steady m.
Proof. apply preserves_weaken, frame_steady. Qed.

Lemma steady_track st e : steady st (track e st).
Proof. split; try done; [by exists [e]|by left]. Qed.

Lemma steady_update_round st h r f : steady st (update_round h r f st).
Proof. split; try done; [|by left]. exists []. by rewrite app_nil_r. Qed.

Lemma steady_set_heights st f : steady st (set_heights f st).
Proof. split; try done; [|by left]. exists []. by rewrite app_nil_r. Qed.

Lemma steady_insert_candidate st bp :
  steady st (set_block_candidates <[bp_blockhash bp := bp]> st).
Proof.
  split; try done; [exists []; by rewrite app_nil_r|].
  intros k p. simpl. destruct (decide (bp_blockhash bp = k)) as [<-|Hne].
  - rewrite lookup_insert_eq. intros [= <-]. by right.
  - rewrite lookup_insert_ne by done. by left.
Qed.

Lemma steady_delete_candidate st k : steady st (set_block_candidates (delete k) st).
Proof.
  split; try done; [exists []; by rewrite app_nil_r|].
  intros k' p. simpl. intros Hk. apply lookup_delete_Some in Hk as [_ Hk]. by left.
Qed.

Hint Resolve steady_track steady_update_round steady_set_heights
  steady_insert_candidate steady_delete_candidate : frames.

Lemma heights_getitem_steady k : preserves steady (heights_getitem k).
Proof. apply preserves_frame_steady, heights_getitem_frame. Qed.
Lemma rounds_getitem_steady h r : preserves steady (rounds_getitem h r).
Proof. apply preserves_frame_steady, rounds_getitem_frame. Qed.
Lemma cm_log_steady : preserves steady cm_log.
Proof. apply preserves_frame_steady, cm_log_frame. Qed.
Lemma cm_add_vote_steady v : preserves steady (cm_add_vote v).
Proof. apply preserves_frame_steady, cm_add_vote_frame. Qed.
Lemma add_votes_steady vs : preserves steady (add_votes vs).
Proof. apply preserves_frame_steady, add_votes_frame. Qed.
Lemma cm_last_committing_lockset_steady : preserves steady cm_last_committing_lockset.
Proof. apply preserves_frame_steady, cm_last_committing_lockset_frame. Qed.
Lemma cm_last_valid_lockset_steady : preserves steady cm_last_valid_lockset.
Proof. apply preserves_frame_steady, cm_last_valid_lockset_frame. Qed.

Hint Resolve heights_getitem_steady rounds_getitem_steady cm_log_steady
  cm_add_vote_steady add_votes_steady cm_last_committing_lockset_steady
  cm_last_valid_lockset_steady : frames.

Lemma not_None_steady {A} (x : option A) : preserves steady (not_None x).
Proof. unfold not_None. repeat preserves_step. Qed.
Hint Resolve not_None_steady : frames.

Lemma check_steady p b : preserves steady (check p b).
Proof. unfold check. repeat preserves_step. eauto with frames. Qed.
Hint Resolve check_steady : frames.

Lemma cm_add_block_proposal_steady bp : preserves steady (cm_add_block_proposal bp).
Proof. unfold cm_add_block_proposal. repeat preserves_step; eauto with frames. Qed.
Hint Resolve cm_add_block_proposal_steady : frames.

Lemma rm_add_proposal_steady h r p : preserves steady (rm_add_proposal h r p).
Proof. unfold rm_add_proposal. repeat preserves_step; eauto with frames. Qed.
Hint Resolve rm_add_proposal_steady : frames.

Lemma hm_add_proposal_steady h p : preserves steady (hm_add_proposal h p).
Proof.
  unfold hm_add_proposal, hm_set_round. repeat preserves_step; eauto with frames.
Qed.
Hint Resolve hm_add_proposal_steady : frames.

Lemma cm_add_proposal_steady p : preserves steady (cm_add_proposal p).
Proof. unfold cm_add_proposal. repeat preserves_step; eauto with frames. Qed.

Lemma rm_mk_proposal_steady h r : preserves steady (rm_mk_proposal h r).
Proof. unfold rm_mk_proposal. repeat preserves_step; eauto with frames. Qed.
Hint Resolve rm_mk_proposal_steady : frames.

Lemma rm_propose_steady h r : preserves steady (rm_propose h r).
Proof. unfold rm_propose. repeat preserves_step; eauto with frames. Qed.

Lemma rm_vote_steady h r : preserves steady (rm_vote h r).
Proof. unfold rm_vote. repeat preserves_step; eauto with frames. Qed.

Lemma cleanup_candidates_steady ps : preserves steady (cleanup_candidates ps).
Proof.
  induction ps as [|p ps IH]; simpl; [repeat preserves_step|].
  unfold block_candidates_pop. repeat preserves_step; eauto with frames.
Qed.

Lemma cleanup_heights_steady hs : preserves steady (cleanup_heights hs).
Proof.
  induction hs as [|h hs IH]; simpl; repeat preserves_step; eauto with frames.
Qed.

Lemma cm_cleanup_steady : preserves steady cm_cleanup.
Proof.
  pose proof cleanup_candidates_steady. pose proof cleanup_heights_steady.
  unfold cm_cleanup. repeat preserves_step; eauto with frames.
Qed.

Lemma steady_keyed st st' : steady st st' → keyed_by_hash st → keyed_by_hash st'.
Proof.
  intros S Hkeyed k p Hk. destruct (steady_candidates _ _ S _ _ Hk); [|done].
  by apply Hkeyed.
Qed.

(** X25.  [add_vote], [add_proposal], [propose], [vote] and [cleanup],
    whatever their outcome, leave the chain service, the contract and the key
    as they are and only append to the evidence list; a block candidate that
    is there afterwards was there before or is kept under its own block hash,
    so that the block candidates stay keyed by their block hashes. *)
Theorem entry_points_are_steady st st' :
  (∃ v res, cm_add_vote v st = (st', res))
  ∨ (∃ p res, cm_add_proposal p st = (st', res))
  ∨ (∃ h r res, rm_propose h r st = (st', res))
  ∨ (∃ h r res, rm_vote h r st = (st', res))
  ∨ (∃ res, cm_cleanup st = (st', res)) →
  steady st st' ∧ (keyed_by_hash st → keyed_by_hash st').
Proof.
  intros Hrun. assert (steady st st') as S; [|split; [done|by apply steady_keyed]].
  destruct Hrun as [(v & res & Hrun)|[(p & res & Hrun)|[(h & r & res & Hrun)
    |[(h & r & res & Hrun)|(res & Hrun)]]]].
  - by eapply cm_add_vote_steady.
  - by eapply cm_add_proposal_steady.
  - by eapply rm_propose_steady.
  - by eapply rm_vote_steady.
  - by eapply cm_cleanup_steady.
Qed.

Lemma commit_keeps_refl st : commit_keeps st st.
Proof. by split_and!. Qed.

Lemma commit_keeps_trans s1 s2 s3 :
  commit_keeps s1 s2 → commit_keeps s2 s3 → commit_keeps s1 s3.
Proof.
  intros (C1 & V1 & B1 & E1 & R1) (C2 & V2 & B2 & E2 & R2).
  split_and!; try congruence. intros h r rm Hr. by apply R2, R1.
Qed.

Lemma only_creates_commit_keeps st st' : only_creates st st' → commit_keeps st st'.
Proof. intros [C K V B E R N L]. by split_and!. Qed.

Lemma commit_keeps_chainservice st f : commit_keeps st (set_chainservice f st).
Proof. by split_and!. Qed.

Lemma cm_has_quorum_at_creates height : preserves only_creates (cm_has_quorum_at height).
Proof.
  unfold cm_has_quorum_at.
  apply preserves_bind; [apply _|apply heights_getitem_creates|intros hm].
  apply preserves_lift; apply _.
Qed.

Lemma commit_loop_keeps recurse ps st :
  (∀ s, commit_keeps s (recurse s).2.1
        ∧ Forall (λ c, commit_keeps s c.1) (recurse s).1) →
  commit_keeps st (commit_loop recurse ps st).2.1
  ∧ Forall (λ c, commit_keeps st c.1) (commit_loop recurse ps st).1.
Proof.
  intros Hrec. revert st. induction ps as [|p ps IH]; intros st; simpl.
  { split; [apply commit_keeps_refl|constructor]. }
  destruct (cm_has_quorum_at (bp_height p) st) as [st1 [quorum|e]] eqn:Hq.
  2:{ split; [|constructor]. simpl.
      by eapply only_creates_commit_keeps, cm_has_quorum_at_creates. }
  pose proof (only_creates_commit_keeps _ _ (cm_has_quorum_at_creates _ _ _ _ Hq)) as K1.
  case_bool_decide.
  2:{ destruct (IH st1) as [IH1 IH2]. split.
      - by eapply commit_keeps_trans.
      - eapply Forall_impl; [exact IH2|]. intros c Hc. by eapply commit_keeps_trans. }
  set (st2 := (cm_store_proposal p st1).1).
  assert (commit_keeps st st2) as K2.
  { eapply commit_keeps_trans; [exact K1|]. apply commit_keeps_chainservice. }
  destruct (commit_block _ _) as [cs success]. destruct success.
  - set (st3 := set_chainservice (λ _, cs) st2).
    assert (commit_keeps st (cm_log st3).1) as K4.
    { eapply commit_keeps_trans; [exact K2|].
      eapply commit_keeps_trans; [apply commit_keeps_chainservice|].
      apply only_creates_commit_keeps. apply cm_log_only_creates. }
    case_bool_decide.
    + destruct (Hrec (cm_log st3).1) as [Hr1 Hr2].
      destruct (recurse _) as [calls out]. simpl in *. split.
      * by eapply commit_keeps_trans.
      * constructor; [done|].
        eapply Forall_impl; [exact Hr2|]. intros c Hc. by eapply commit_keeps_trans.
    + simpl. split; [done|]. by constructor.
  - simpl. split; [|by constructor].
    eapply commit_keeps_trans; [exact K2|]. apply commit_keeps_chainservice.
Qed.

(** X26.  [commit] changes the chain service and nothing else that is there:
    at every call of [commit_block] and at the end, whatever the outcome, the
    contract, the key, the block candidates, the evidence list and the round
    managers are those of the start; the candidate of a committed block is
    still a block candidate. *)
Theorem commit_keeps_the_manager depth st :
  commit_keeps st (cm_commit depth st).2.1
  ∧ Forall (λ c, commit_keeps st c.1) (cm_commit depth st).1.
Proof.
  revert st. induction depth as [|depth IH]; intros st; simpl.
  { split; [apply commit_keeps_refl|constructor]. }
  assert (commit_keeps st (cm_log st).1) as K0
    by (apply only_creates_commit_keeps, cm_log_only_creates).
  destruct (commit_loop_keeps (cm_commit depth) (commit_candidates (cm_log st).1)
              (cm_log st).1 IH) as [K1 K2].
  split.
  - by eapply commit_keeps_trans.
  - eapply Forall_impl; [exact K2|]. intros c Hc. by eapply commit_keeps_trans.
Qed.
End Steady.

Section SteadyExamples.
Import SpecBase Scenario.

(** [entry_points_are_steady] at work: the node accepts the proposal of
    block 3. *)
Lemma entry_points_are_steady_witness : steady node proposed ∧ keyed_by_hash proposed.
Proof.
  destruct (entry_points_are_steady node proposed) as [Hsteady Hkeyed].
  - right. left. exists proposal3, (Ok (Some true)). by vm_compute.
  - split; [done|]. apply Hkeyed. intros k p Hk. by vm_compute in Hk.
Defined.
End SteadyExamples.

(** ** Locks and proposals are written once *)

Section WriteOnce.
Context `{Base}.

#[global] Instance keeps_locks_preorder : PreOrder keeps_locks.
Proof.
  split.
  - by intros st h r.
  - intros s1 s2 s3 K1 K2 h r. by rewrite K2, K1.
Qed.

#[global] Instance keeps_proposals_preorder : PreOrder keeps_proposals.
Proof.
  split.
  - by intros st h r p.
  - intros s1 s2 s3 K1 K2 h r p Hp. by apply K2, K1.
Qed.

Lemma only_creates_keeps_locks st st' : only_creates st st' → keeps_locks st st'.
Proof.
  intros X h r. unfold lock_at. destruct (the_round h r st) as [rm|] eqn:Hr.
  - by rewrite (oc_rounds _ _ X _ _ _ Hr).
  - destruct (the_round h r st') as [rm|] eqn:Hr'; [|done].
    simpl. by destruct (oc_new _ _ X _ _ _ Hr' Hr) as (_ & -> & _).
Qed.

Lemma keeps_locks_update_round st h r f :
  (∀ rm, rm_lock (f rm) = rm_lock rm) → keeps_locks st (update_round h r f st).
Proof.
  intros Hf h' r'. unfold lock_at. rewrite the_round_update_round.
  case_decide as Heq; [|done]. injection Heq as -> ->.
  destruct (the_round h r st); simpl; [apply Hf|done].
Qed.

Lemma keeps_locks_track st e : keeps_locks st (track e st).
Proof. by intros h r. Qed.

Lemma keeps_locks_candidates st f : keeps_locks st (set_block_candidates f st).
Proof. by intros h r. Qed.

Lemma heights_getitem_locks k : preserves keeps_locks (heights_getitem k).
Proof.
  eapply preserves_weaken; [apply only_creates_keeps_locks|apply heights_getitem_creates].
Qed.
Lemma rounds_getitem_locks h r : preserves keeps_locks (rounds_getitem h r).
Proof.
  eapply preserves_weaken; [apply only_creates_keeps_locks|apply rounds_getitem_creates].
Qed.
Lemma cm_log_locks : preserves keeps_locks cm_log.
Proof.
  eapply preserves_weaken; [apply only_creates_keeps_locks|apply cm_log_creates].
Qed.

Hint Resolve heights_getitem_locks rounds_getitem_locks cm_log_locks
  keeps_locks_track keeps_locks_candidates : frames.

Ltac locks_step :=
  repeat preserves_step;
  solve [eauto with frames | by apply keeps_locks_update_round].

Lemma rm_add_vote_locks h r v force : preserves keeps_locks (rm_add_vote h r v force).
Proof. unfold rm_add_vote. locks_step. Qed.
Hint Resolve rm_add_vote_locks : frames.

Lemma cm_add_vote_locks v : preserves keeps_locks (cm_add_vote v).
Proof. unfold cm_add_vote, hm_add_vote. locks_step. Qed.
Hint Resolve cm_add_vote_locks : frames.

Lemma add_votes_locks vs : preserves keeps_locks (add_votes vs).
Proof. induction vs; simpl; locks_step. Qed.
Hint Resolve add_votes_locks : frames.

Lemma cm_add_proposal_locks p : preserves keeps_locks (cm_add_proposal p).
Proof.
  unfold cm_add_proposal, check, hm_add_proposal, hm_set_round, rm_add_proposal,
    cm_add_block_proposal.
  locks_step.
Qed.

Lemma cm_last_committing_lockset_locks : preserves keeps_locks cm_last_committing_lockset.
Proof. unfold cm_last_committing_lockset. locks_step. Qed.
Hint Resolve cm_last_committing_lockset_locks : frames.

Lemma cm_last_valid_lockset_locks : preserves keeps_locks cm_last_valid_lockset.
Proof. unfold cm_last_valid_lockset. locks_step. Qed.
Hint Resolve cm_last_valid_lockset_locks : frames.

Lemma rm_propose_locks h r : preserves keeps_locks (rm_propose h r).
Proof. unfold rm_propose, rm_mk_proposal, not_None. locks_step. Qed.

(** X27.  Only [vote] locks: [add_vote], [add_proposal] and [propose],
    whatever their outcome, leave the lock of every round as it is, and a
    round manager that they create has no lock. *)
Theorem only_vote_locks st st' :
  (∃ v res, cm_add_vote v st = (st', res))
  ∨ (∃ p res, cm_add_proposal p st = (st', res))
  ∨ (∃ h r res, rm_propose h r st = (st', res)) →
  ∀ h r, lock_at st' h r = lock_at st h r.
Proof.
  intros [(v & res & Hrun)|[(p & res & Hrun)|(h & r & res & Hrun)]].
  - by eapply cm_add_vote_locks.
  - by eapply cm_add_proposal_locks.
  - by eapply rm_propose_locks.
Qed.

Lemma frame_keeps_proposals st st' : frame st st' → keeps_proposals st st'.
Proof. intros F h r p. by rewrite (frame_proposals _ _ F). Qed.

Lemma steady_proposals_weaken {A} (m : M A) :
  preserves frame m → preserves keeps_proposals m.
Proof. apply preserves_weaken, frame_keeps_proposals. Qed.

Lemma sets_unset_bind {A B} h r (m : M A) (k : A → M B) :
  preserves frame m → (∀ a, sets_unset h r (k a)) → sets_unset h r (bind m k).
Proof.
  intros Hm Hk st st' res Hnone Hrun.
  apply bind_inv in Hrun as [(a & s & Hm1 & Hk1) | (e & Hm1 & _)].
  - pose proof (Hm _ _ _ Hm1) as F. etransitivity; [by apply frame_keeps_proposals|].
    eapply Hk; [|exact Hk1]. by rewrite (frame_proposals _ _ F).
  - by eapply frame_keeps_proposals, Hm.
Qed.

Lemma sets_unset_frame {A} h r (m : M A) : preserves frame m → sets_unset h r m.
Proof. intros Hm st st' res _ Hrun. by eapply frame_keeps_proposals, Hm. Qed.

Lemma keeps_proposals_set st h r p :
  proposal_at st h r = None →
  keeps_proposals st (update_round h r (set_proposal p) st).
Proof.
  intros Hnone h' r' q Hq. destruct (decide ((h, r) = (h', r'))) as [[= <- <-]|Hne].
  - congruence.
  - by rewrite proposal_at_update_round_other.
Qed.

Lemma sets_unset_set {A} h r p (a : A) :
  sets_unset h r (run! modify (update_round h r (set_proposal p)) in ret a).
Proof. intros st st' res Hnone [= <- _]. by apply keeps_proposals_set. Qed.

Lemma rm_mk_proposal_frame h r : preserves frame (rm_mk_proposal h r).
Proof. unfold rm_mk_proposal, not_None. repeat preserves_step. Qed.

Lemma rm_add_proposal_proposals h r p : preserves keeps_proposals (rm_add_proposal h r p).
Proof.
  intros st st' res. unfold rm_add_proposal. intros Hrun.
  apply bind_inv in Hrun as [([] & s1 & Hlog & Hrun) | (e & Hlog & _)];
    [|by eapply frame_keeps_proposals, cm_log_frame].
  etransitivity; [by eapply frame_keeps_proposals, cm_log_frame|].
  apply bind_inv in Hrun as [(self & s2 & Hget & Hrun) | (e & Hget & _)];
    [|by eapply frame_keeps_proposals, rounds_getitem_frame].
  etransitivity; [by eapply frame_keeps_proposals, rounds_getitem_frame|].
  apply rounds_getitem_present in Hget.
  assert (proposal_at s2 h r = rm_proposal self) as Hat
    by (unfold proposal_at; by rewrite Hget).
  rewrite bind_assert in Hrun.
  destruct (match p with PBlock _ => _ | PInstr _ => _ end);
    [|injection Hrun as <- _; reflexivity].
  rewrite bind_assert in Hrun. destruct (rm_proposal self) as [q|] eqn:Hq.
  - case_bool_decide as Heq; [|injection Hrun as <- _; reflexivity].
    subst q. injection Hrun as <- _.
    by apply frame_keeps_proposals, frame_set_same_proposal.
  - injection Hrun as <- _. by apply keeps_proposals_set.
Qed.

Lemma keeps_proposals_track st e : keeps_proposals st (track e st).
Proof. by intros h r p. Qed.

Lemma keeps_proposals_candidates st f : keeps_proposals st (set_block_candidates f st).
Proof. by intros h r p. Qed.

Lemma cm_add_proposal_proposals p : preserves keeps_proposals (cm_add_proposal p).
Proof.
  pose proof (λ h r, steady_proposals_weaken _ (rounds_getitem_frame h r)).
  pose proof (λ k, steady_proposals_weaken _ (heights_getitem_frame k)).
  pose proof (steady_proposals_weaken _ cm_log_frame).
  pose proof (λ vs, steady_proposals_weaken _ (add_votes_frame vs)).
  pose proof rm_add_proposal_proposals.
  unfold cm_add_proposal, check, hm_add_proposal, hm_set_round, cm_add_block_proposal.
  repeat preserves_step;
    solve [done | apply keeps_proposals_track | apply keeps_proposals_candidates].
Qed.

Lemma rm_propose_proposals h r : preserves keeps_proposals (rm_propose h r).
Proof.
  intros st st' res. unfold rm_propose. intros Hrun.
  apply bind_inv in Hrun as [(self & s1 & Hget & Hrun) | (e & Hget & _)];
    [|by eapply frame_keeps_proposals, rounds_getitem_frame].
  etransitivity; [by eapply frame_keeps_proposals, rounds_getitem_frame|].
  apply rounds_getitem_present in Hget.
  assert (proposal_at s1 h r = rm_proposal self) as Hat
    by (unfold proposal_at; by rewrite Hget).
  destruct (rm_proposal self) as [q|] eqn:Hq.
  - eapply frame_keeps_proposals.
    assert (preserves frame
      (let! contract := gets cm_contract in
       let! proposer := lift (proposer contract (rm_height self) (rm_round self)) in
       run! cm_log in
       let! coinbase := gets cm_coinbase in
       if negb (bool_decide (proposer = coinbase)) then ret None
       else
         run! assert_ (bool_decide (p_sender q = coinbase)) in
         run! assert_ (bool_decide (is_Some (rm_lock self))) in
         ret (@None Proposal))) as Hframe by (repeat preserves_step).
    by eapply Hframe.
  - revert Hrun. apply (sets_unset_bind h r); [repeat preserves_step|intros contract|done].
    apply sets_unset_bind; [repeat preserves_step|intros a].
    apply sets_unset_bind; [repeat preserves_step|intros _].
    apply sets_unset_bind; [repeat preserves_step|intros coinbase].
    destruct (negb _); [apply sets_unset_frame; repeat preserves_step|].
    apply sets_unset_bind; [repeat preserves_step|intros round_lockset].
    apply sets_unset_bind; [repeat preserves_step|intros _].
    apply sets_unset_bind; [unfold not_None; repeat preserves_step|intros noquorum].
    apply sets_unset_bind; [|intros proposal].
    { pose proof rm_mk_proposal_frame. unfold not_None. repeat preserves_step. }
    apply sets_unset_bind; [repeat preserves_step|intros _].
    apply sets_unset_set.
Qed.

Lemma rm_vote_frame h r : preserves frame (rm_vote h r).
Proof.
  unfold rm_vote, not_None. repeat preserves_step; by apply frame_update_round.
Qed.

(** X28.  A proposal is written once: whatever [add_vote], [add_proposal],
    [propose] and [vote] do, a round that has a proposal keeps that
    proposal. *)
Theorem proposals_are_written_once st st' :
  (∃ v res, cm_add_vote v st = (st', res))
  ∨ (∃ p res, cm_add_proposal p st = (st', res))
  ∨ (∃ h r res, rm_propose h r st = (st', res))
  ∨ (∃ h r res, rm_vote h r st = (st', res)) →
  ∀ h r p, proposal_at st h r = Some p → proposal_at st' h r = Some p.
Proof.
  intros [(v & res & Hrun)|[(p & res & Hrun)|[(h & r & res & Hrun)
    |(h & r & res & Hrun)]]].
  - by eapply frame_keeps_proposals, cm_add_vote_frame.
  - by eapply cm_add_proposal_proposals.
  - by eapply rm_propose_proposals.
  - by eapply frame_keeps_proposals, rm_vote_frame.
Qed.
End WriteOnce.

Section WriteOnceExamples.
Import SpecBase Scenario.

(** [only_vote_locks] at work: the node that voted for [x] at (3, 0) keeps
    that lock when it accepts the proposal of [y] for round 1. *)
Lemma only_vote_locks_witness :
  lock_at proposed_y 3 0 = lock_at locked_x 3 0
  ∧ lock_at locked_x 3 0 = Some (vote_block "A" 3 0 "x").
Proof.
  split; [|by vm_compute].
  apply (only_vote_locks locked_x proposed_y).
  right. left. exists proposal3y, (cm_add_proposal proposal3y locked_x).2.
  apply surjective_pairing.
Defined.

(** [proposals_are_written_once] at work: the proposal of block [x] at
    (3, 0) stays when the node votes. *)
Lemma proposals_are_written_once_witness :
  proposal_at locked_x 3 0 = Some (PBlock linked3).
Proof.
  apply (proposals_are_written_once proposed locked_x); [|by vm_compute].
  right. right. right. exists 3, 0, (rm_vote 3 0 proposed).2.
  apply surjective_pairing.
Defined.
End WriteOnceExamples.

(** ** [process] *)

Section ProcessStatements.
Context `{Base}.

Lemma rounds_getitem_Ok h r st : ∃ st' rm, rounds_getitem h r st = (st', Ok rm).
Proof.
  unfold rounds_getitem. destruct (heights_getitem_Ok h st) as (s1 & hm & Hget).
  rewrite (bind_Ok _ _ _ _ _ Hget). destruct (hm_rounds hm !! r); simpl; eauto.
Qed.

Lemma rm_vote_rerun h r st s1 self :
  rounds_getitem h r st = (s1, Ok self) → rm_vote h r st = rm_vote h r s1.
Proof.
  intros Hget. unfold rm_vote. rewrite (bind_Ok _ _ _ _ _ Hget).
  by rewrite (bind_Ok _ _ _ _ _
                (rounds_getitem_exists _ _ _ _ (rounds_getitem_present _ _ _ _ _ Hget))).
Qed.

Lemma rm_vote_Some_lock h r st st' v :
  rm_vote h r st = (st', Ok (Some v)) → lock_at st' h r = Some v.
Proof.
  intros Hrun. destruct (rounds_getitem_Ok h r st) as (s1 & self & Hget).
  rewrite (rm_vote_rerun _ _ _ _ _ Hget) in Hrun.
  pose proof (rounds_getitem_present _ _ _ _ _ Hget) as Hself.
  destruct (rm_vote_inv h r s1 self st' v Hself Hrun)
    as (_ & _ & _ & s2 & ls & success & X & _ & _ & ->).
  unfold lock_at. rewrite !the_round_update_round, !decide_True by done.
  by rewrite (oc_rounds _ _ X _ _ _ Hself).
Qed.

Lemma cm_last_committing_lockset_creates :
  preserves only_creates cm_last_committing_lockset.
Proof.
  pose proof heights_getitem_creates.
  unfold cm_last_committing_lockset. repeat preserves_step.
Qed.

Lemma cm_last_valid_lockset_creates : preserves only_creates cm_last_valid_lockset.
Proof.
  pose proof heights_getitem_creates. pose proof cm_last_committing_lockset_creates.
  unfold cm_last_valid_lockset. repeat preserves_step; done.
Qed.

Lemma rm_mk_proposal_creates h r : preserves only_creates (rm_mk_proposal h r).
Proof.
  pose proof rounds_getitem_creates. pose proof cm_last_committing_lockset_creates.
  pose proof cm_last_valid_lockset_creates.
  unfold rm_mk_proposal, not_None. repeat preserves_step; done.
Qed.

Lemma proposes_bind {A} h r (m : M A) (k : A → M (option Proposal)) :
  preserves only_creates m → (∀ a, proposes h r (k a)) → proposes h r (bind m k).
Proof.
  intros Hm Hk st st' p [rm Hrm] Hrun.
  apply bind_Ok_inv in Hrun as (a & s & Hm1 & Hk1).
  eapply Hk; [|exact Hk1]. exists rm. by apply (oc_rounds _ _ (Hm _ _ _ Hm1)).
Qed.

Lemma rm_propose_Some h r st st' p :
  rm_propose h r st = (st', Ok (Some p)) → proposal_at st' h r = Some p.
Proof.
  pose proof cm_log_creates. pose proof cm_last_valid_lockset_creates.
  pose proof (rm_mk_proposal_creates h r).
  unfold rm_propose. intros Hrun.
  apply bind_Ok_inv in Hrun as (self & s1 & Hget & Hrun).
  apply rounds_getitem_present in Hget.
  revert Hrun. apply (proposes_bind h r); [repeat preserves_step|intros contract|by eexists].
  apply proposes_bind; [repeat preserves_step|intros a].
  apply proposes_bind; [done|intros _].
  apply proposes_bind; [repeat preserves_step|intros coinbase].
  destruct (negb _); [by intros ? ? ? _ [=]|].
  destruct (rm_proposal self).
  { intros s s' q _ Hrun.
    repeat (apply bind_Ok_inv in Hrun as (? & ? & _ & Hrun)). done. }
  apply proposes_bind; [done|intros round_lockset].
  apply proposes_bind; [done|intros _].
  apply proposes_bind; [unfold not_None; repeat preserves_step|intros noquorum].
  apply proposes_bind; [unfold not_None; repeat preserves_step; done|intros proposal].
  apply proposes_bind; [done|intros _].
  intros s s' q [rm Hrm] [= <- <-]. by eapply proposal_at_set_proposal.
Qed.

Lemma cm_add_block_proposal_proposals bp :
  preserves keeps_proposals (cm_add_block_proposal bp).
Proof.
  pose proof (steady_proposals_weaken _ cm_log_frame).
  pose proof (λ vs, steady_proposals_weaken _ (add_votes_frame vs)).
  unfold cm_add_block_proposal.
  repeat preserves_step; solve [done | apply keeps_proposals_candidates].
Qed.

Lemma cm_add_block_proposal_locks bp : preserves keeps_locks (cm_add_block_proposal bp).
Proof.
  pose proof cm_log_locks. pose proof add_votes_locks.
  unfold cm_add_block_proposal.
  repeat preserves_step; solve [done | apply keeps_locks_candidates].
Qed.

Lemma rm_process_steady h r : preserves steady (rm_process h r).
Proof.
  pose proof cm_log_steady. pose proof rounds_getitem_steady.
  pose proof heights_getitem_steady. pose proof rm_propose_steady.
  pose proof rm_vote_steady. pose proof cm_add_block_proposal_steady.
  unfold rm_process, cm_round, cm_broadcast. repeat preserves_step; done.
Qed.

(** What a call of [RoundManager.process] that returns has done. *)
Lemma rm_process_post h r st st' sent :
  rm_process h r st = (st', Ok sent) →
  (∃ p v, sent = from_option (λ p, [MProposal p]) [] p
                 ++ from_option (λ v, [MVote v]) [] v
     ∧ (∀ p', p = Some p' → proposal_at st' h r = Some p')
     ∧ (∀ v', v = Some v' → lock_at st' h r = Some v'))
  ∧ (is_Some (proposal_at st' h r) → is_Some (lock_at st' h r))
  ∧ steady st st'.
Proof.
  intros Hrun. split_and!; [| |by eapply rm_process_steady].
  - unfold rm_process in Hrun.
    do 7 (apply bind_Ok_inv in Hrun as (? & ? & _ & Hrun)).
    apply bind_Ok_inv in Hrun as (p & s1 & Hpropose & Hrun).
    apply bind_Ok_inv in Hrun as ([] & s2 & Hadd & Hrun).
    apply bind_Ok_inv in Hrun as (sent_p & s3 & Hsent_p & Hrun).
    apply bind_Ok_inv in Hrun as (v & s4 & Hvote & Hrun).
    apply bind_Ok_inv in Hrun as (sent_v & s5 & Hsent_v & Hrun).
    apply bind_Ok_inv in Hrun as (self' & s6 & Hget & Hrun).
    apply bind_Ok_inv in Hrun as ([] & s7 & Hassert & Hrun).
    injection Hrun as <- <-.
    assert (s7 = s6) as -> by (by destruct (_ || _); injection Hassert as <-).
    exists p, v. split_and!.
    + f_equal.
      * destruct p as [p|]; [|by injection Hsent_p as _ <-].
        unfold cm_broadcast in Hsent_p.
        apply bind_Ok_inv in Hsent_p as (? & ? & _ & Hsent_p).
        by injection Hsent_p as _ <-.
      * destruct v as [v|]; [|by injection Hsent_v as _ <-].
        unfold cm_broadcast in Hsent_v.
        apply bind_Ok_inv in Hsent_v as (? & ? & _ & Hsent_v).
        by injection Hsent_v as _ <-.
    + intros p' ->. apply rm_propose_Some in Hpropose.
      assert (keeps_proposals s1 s6) as K; [|by apply K].
      transitivity s2.
      { destruct p' as [bp|vi]; [by eapply cm_add_block_proposal_proposals|].
        injection Hadd as <-. reflexivity. }
      transitivity s3.
      { apply frame_keeps_proposals. unfold cm_broadcast in Hsent_p.
        apply bind_Ok_inv in Hsent_p as ([] & s & Hlog & Hret). injection Hret as <- _.
        by eapply cm_log_frame. }
      transitivity s4; [by eapply frame_keeps_proposals, rm_vote_frame|].
      transitivity s5.
      { apply frame_keeps_proposals. destruct v as [v|]; [|by injection Hsent_v as <- _].
        unfold cm_broadcast in Hsent_v.
        apply bind_Ok_inv in Hsent_v as ([] & s & Hlog & Hret). injection Hret as <- _.
        by eapply cm_log_frame. }
      by eapply frame_keeps_proposals, rounds_getitem_frame.
    + intros v' ->. apply rm_vote_Some_lock in Hvote.
      assert (keeps_locks s4 s6) as K; [|by rewrite K].
      transitivity s5.
      { unfold cm_broadcast in Hsent_v.
        apply bind_Ok_inv in Hsent_v as ([] & s & Hlog & Hret). injection Hret as <- _.
        by eapply cm_log_locks. }
      by eapply rounds_getitem_locks.
  - unfold rm_process in Hrun.
    do 12 (apply bind_Ok_inv in Hrun as (? & ? & _ & Hrun)).
    apply bind_Ok_inv in Hrun as (self' & s6 & Hget & Hrun).
    apply bind_Ok_inv in Hrun as ([] & s7 & Hassert & Hrun).
    injection Hrun as <- _. apply rounds_getitem_present in Hget.
    rewrite bind_assert in Hassert || unfold assert_ in Hassert.
    destruct (negb _ || _) eqn:Hcond; [|done]. injection Hassert as <-.
    unfold proposal_at, lock_at. rewrite Hget. simpl. intros Hp.
    apply orb_true_iff in Hcond as [Hnone|Hlock].
    + apply negb_true_iff, bool_decide_eq_false in Hnone. done.
    + by apply bool_decide_eq_true in Hlock.
Qed.

(** X29.  What [RoundManager.process], and [HeightManager.process], which
    runs it on the round of the height, broadcast when they return: at most
    one proposal and then at most one vote; the proposal is the proposal of
    the round and the vote is its lock; and a round that has a proposal has
    a lock.  The chain service, the contract and the key stay as they
    are. *)
Theorem process_proposes_then_votes h r st st' sent :
  rm_process h r st = (st', Ok sent)
  ∨ (hm_process h st = (st', Ok sent)
     ∧ r = hm_round (height_manager_at (cm_log st).1 h)) →
  (∃ p v, sent = from_option (λ p, [MProposal p]) [] p
                 ++ from_option (λ v, [MVote v]) [] v
     ∧ (∀ p', p = Some p' → proposal_at st' h r = Some p')
     ∧ (∀ v', v = Some v' → lock_at st' h r = Some v'))
  ∧ (is_Some (proposal_at st' h r) → is_Some (lock_at st' h r))
  ∧ steady st st'.
Proof.
  intros [Hrun|[Hrun ->]]; [by apply rm_process_post|].
  unfold hm_process in Hrun.
  apply bind_Ok_inv in Hrun as ([] & s1 & Hlog & Hrun).
  assert (s1 = (cm_log st).1) as -> by (by rewrite Hlog).
  apply bind_Ok_inv in Hrun as (self & s2 & Hget & Hrun).
  destruct (heights_getitem_value _ _ _ _ Hget) as [-> _].
  apply bind_Ok_inv in Hrun as (rm & s3 & Hround & Hrun).
  destruct (rm_process_post _ _ _ _ _ Hrun) as (Hsent & Hlocked & S).
  split_and!; [done..|].
  transitivity (cm_log st).1; [by eapply cm_log_steady|].
  transitivity s2; [by eapply heights_getitem_steady|].
  transitivity s3; [by eapply rounds_getitem_steady|done].
Qed.

Lemma height_manager_at_height_extends st st' k :
  lazily_extends st st' →
  hm_height (height_manager_at st' k) = hm_height (height_manager_at st k).
Proof.
  intros X. destruct (decide (k = cm_height st)) as [->|Hne].
  - apply (ext_height _ _ X).
  - by rewrite (ext_other _ _ X).
Qed.

(** X30.  [RoundManager.process] runs only in the active round of the current
    height: on a round manager whose round is not the round of the consensus
    manager, or whose height is not its height, it raises an
    [AssertionError], and nothing is proposed or voted: nothing changes but
    the managers that logging creates. *)
Theorem process_only_in_active_round h r st self :
  the_round h r st = Some self → fresh_lockset_not_valid st →
  hm_round (height_manager_at st (cm_height st)) ≠ rm_round self
  ∨ cm_height st ≠ hm_height (height_manager_at st h)
  ∨ hm_height (height_manager_at st h) ≠ rm_height self →
  ∃ st', rm_process h r st = (st', Raise AssertionError) ∧ only_creates st st'.
Proof.
  intros Hself Hfresh Hnot. unfold rm_process.
  destruct (cm_log_only_creates st) as [Hlog X1].
  pose proof (cm_log_extends st Hfresh) as L1. set (s1 := (cm_log st).1) in *.
  rewrite (bind_Ok _ _ _ _ _ Hlog).
  pose proof (oc_rounds _ _ X1 _ _ _ Hself) as Hself1.
  rewrite (bind_Ok _ _ _ _ _ (rounds_getitem_exists _ _ _ _ Hself1)).
  unfold cm_round. rewrite !bind_assoc, bind_gets.
  assert (cm_height s1 = cm_height st) as Hh1 by (by apply only_creates_height).
  rewrite Hh1. cbv beta.
  destruct (heights_getitem_Ok (cm_height st) s1) as (s2 & hm2 & Hget2).
  rewrite !bind_assoc, (bind_Ok _ _ _ _ _ Hget2), bind_ret.
  pose proof (heights_getitem_creates _ _ _ _ Hget2) as X2.
  pose proof (heights_getitem_extends _ _ _ _ Hget2) as L2.
  destruct (heights_getitem_value _ _ _ _ Hget2) as [-> _].
  assert (only_creates st s2) as X by (by etransitivity).
  assert (lazily_extends st s2) as L by (by etransitivity).
  assert (hm_round (height_manager_at s1 (cm_height st))
          = hm_round (height_manager_at st (cm_height st))) as ->
    by (unfold hm_round; by rewrite (ext_valid _ _ L1)).
  rewrite bind_assert. case_bool_decide as Hround; [|by exists s2].
  rewrite bind_gets. cbv beta.
  pose proof (oc_rounds _ _ X _ _ _ Hself) as Hself2.
  rewrite (bind_Ok _ _ _ _ _ (heights_getitem_of_round _ _ _ _ Hself2)).
  rewrite bind_assert, (only_creates_height _ _ X).
  rewrite (height_manager_at_height_extends _ _ h L).
  destruct Hnot as [?|[Hh|Hh]]; [done| |].
  - rewrite (bool_decide_eq_false_2 _ Hh). by exists s2.
  - rewrite (bool_decide_eq_false_2 _ Hh), andb_false_r. by exists s2.
Qed.
End ProcessStatements.

Section ProcessExamples.
Import SpecBase Scenario.

(** [process_proposes_then_votes] at work: round 0 of height 3 has the
    proposal of block [x]; [process] votes for it and broadcasts the vote. *)
Lemma process_proposes_then_votes_witness :
  (rm_process 3 0 proposed).2 = Ok [MVote (vote_block "A" 3 0 "x")]
  ∧ is_Some (lock_at (after (rm_process 3 0) proposed) 3 0).
Proof.
  split; [by vm_compute|].
  destruct (process_proposes_then_votes 3 0 proposed (after (rm_process 3 0) proposed)
              [MVote (vote_block "A" 3 0 "x")]) as (_ & Hlocked & _);
    [left; by vm_compute|].
  apply Hlocked. vm_compute. by eexists.
Defined.

(** [process_only_in_active_round] at work: once round 0 of height 3 has a
    valid lock-set, the round of the node is 1, and [process] of round 0
    fails. *)
Lemma process_only_in_active_round_witness :
  ∃ st', rm_process 3 0 proposed_y = (st', Raise AssertionError)
    ∧ only_creates proposed_y st'.
Proof.
  apply (process_only_in_active_round 3 0 proposed_y (round_of proposed_y 3 0));
    [by vm_compute..|].
  left. by vm_compute.
Defined.
End ProcessExamples.
